(** * phys-js: a shallow embedding of the step engine

    The development follows the modular sources:
    - [common.js]   body type tags, the fix limits and the id allocator;
    - [grid.js]     the broad phase ([getRegions], [getPairId], [canCollide],
                    class [Grid]);
    - [body/*.js]   the four body classes;
    - [engine.js]   the five stages of a sub-step;
    - [world.js]    class [World].

    JavaScript objects live in a heap: a body reference is modelled by the
    body's [id] (allocated by [getNextId], hence unique), and every function
    that mutates a body takes the heap and returns the new one.  Arrays are
    lists; the [pairs] object, whose keys are enumerated by [for ... in], is
    an insertion-ordered list; the [hash] object, which is only ever looked
    up, is a [gmap]. *)

From Stdlib Require Import ZArith QArith Qcanon Qround Lia.
From stdpp Require Import numbers list gmap.

Set Default Proof Using "Type".
Open Scope Z_scope.

(** ** JavaScript numbers

    A finite double is modelled by the rational it denotes, with exact
    arithmetic in place of rounding; the two infinities and NaN are kept,
    since the engine tests for them ([isFinite]) and divides by zero.
    Signed zeros are not distinguished: the sign of a zero only decides the
    sign of an infinite quotient, and the engine never looks at that sign.

    The theorems below either rest on the order of numbers alone, which
    rounding keeps, or carry as a hypothesis the range in which doubles and
    rationals agree on what the statement is about (see [half_least] and
    [no_overflow] in module [Num]). *)

Inductive num : Type :=
  | Fin (q : Qc)
  | PInf
  | NInf
  | NaN.

#[global] Instance num_eq_dec : EqDecision num.
Proof. solve_decision. Defined.

#[global] Instance num_inhabited : Inhabited num := populate NaN.

Module Num.

Definition ofZ (z : Z) : num := Fin (Q2Qc (inject_Z z)).
Definition ofQ (q : Q) : num := Fin (Q2Qc q).

Definition zero : num := ofZ 0.
Definition one : num := ofZ 1.

Definition Qc_ltb (a b : Qc) : bool := bool_decide (a < b)%Qc.
Definition Qc_leb (a b : Qc) : bool := bool_decide (a <= b)%Qc.
Definition Qc_eqb (a b : Qc) : bool := bool_decide (a = b).

(** Unary minus. *)
Definition neg (a : num) : num :=
  match a with
  | Fin q => Fin (- q)%Qc
  | PInf => NInf
  | NInf => PInf
  | NaN => NaN
  end.

Definition add (a b : num) : num :=
  match a, b with
  | NaN, _ | _, NaN => NaN
  | Fin p, Fin q => Fin (p + q)%Qc
  | PInf, NInf | NInf, PInf => NaN
  | PInf, _ | _, PInf => PInf
  | NInf, _ | _, NInf => NInf
  end.

Definition sub (a b : num) : num := add a (neg b).

(** The infinity with the sign of [q], NaN at zero. *)
Definition inf_of_sign (q : Qc) (pos : bool) : num :=
  if Qc_eqb q 0 then NaN
  else if Qc_ltb 0 q then (if pos then PInf else NInf)
  else (if pos then NInf else PInf).

Definition mul (a b : num) : num :=
  match a, b with
  | NaN, _ | _, NaN => NaN
  | Fin p, Fin q => Fin (p * q)%Qc
  | Fin p, PInf | PInf, Fin p => inf_of_sign p true
  | Fin p, NInf | NInf, Fin p => inf_of_sign p false
  | PInf, PInf | NInf, NInf => PInf
  | PInf, NInf | NInf, PInf => NInf
  end.

(** Division; a finite non-zero number over zero is infinite, zero over
    zero is NaN. *)
Definition div (a b : num) : num :=
  match a, b with
  | NaN, _ | _, NaN => NaN
  | Fin p, Fin q =>
      if Qc_eqb q 0 then inf_of_sign p true else Fin (p / q)%Qc
  | Fin _, (PInf | NInf) => Fin 0%Qc
  | PInf, Fin q => if Qc_ltb q 0 then NInf else PInf
  | NInf, Fin q => if Qc_ltb q 0 then PInf else NInf
  | (PInf | NInf), (PInf | NInf) => NaN
  end.

(** Comparisons; every comparison with NaN is false. *)
Definition ltb (a b : num) : bool :=
  match a, b with
  | NaN, _ | _, NaN => false
  | Fin p, Fin q => Qc_ltb p q
  | NInf, (Fin _ | PInf) => true
  | Fin _, PInf => true
  | _, _ => false
  end.

Definition eqb (a b : num) : bool :=
  match a, b with
  | Fin p, Fin q => Qc_eqb p q
  | PInf, PInf | NInf, NInf => true
  | _, _ => false
  end.

Definition leb (a b : num) : bool := ltb a b || eqb a b.
Definition gtb (a b : num) : bool := ltb b a.
Definition geb (a b : num) : bool := leb b a.

(** [a !== b] and [a != b] on numbers. *)
Definition neqb (a b : num) : bool := negb (eqb a b).

(** Truthiness of a number: neither zero nor NaN. *)
Definition truthy (a : num) : bool :=
  match a with
  | NaN => false
  | Fin q => negb (Qc_eqb q 0)
  | _ => true
  end.

Definition isFinite (a : num) : bool :=
  match a with Fin _ => true | _ => false end.

(** [Math.min], [Math.max], [Math.abs], [Math.sign], [Math.pow(a, 2)]. *)
Definition min (a b : num) : num :=
  match a, b with
  | NaN, _ | _, NaN => NaN
  | _, _ => if ltb b a then b else a
  end.

Definition max (a b : num) : num :=
  match a, b with
  | NaN, _ | _, NaN => NaN
  | _, _ => if ltb a b then b else a
  end.

Definition abs (a : num) : num :=
  match a with
  | Fin q => if Qc_ltb q 0 then Fin (- q)%Qc else Fin q
  | PInf | NInf => PInf
  | NaN => NaN
  end.

Definition sign (a : num) : num :=
  match a with
  | NaN => NaN
  | _ => if ltb a zero then ofZ (-1) else if ltb zero a then one else zero
  end.

Definition pow2 (a : num) : num := mul a a.

(** [Math.ceil]. *)
Definition ceil (a : num) : num :=
  match a with
  | Fin q => ofZ (Qceiling q)
  | _ => a
  end.

(** The ToInt32 conversion applied by the operator [>>]: NaN and the
    infinities go to 0, a finite number is truncated toward zero and
    wrapped into the signed 32-bit range. *)
Definition wrap32 (z : Z) : Z := (z + 2 ^ 31) mod 2 ^ 32 - 2 ^ 31.

Definition ToInt32 (a : num) : Z :=
  match a with
  | Fin q => wrap32 (Z.quot (Qnum q) (Zpos (Qden q)))
  | _ => 0
  end.

(** [a >> n]. *)
Definition shr (a : num) (n : Z) : Z := Z.shiftr (ToInt32 a) n.

(** Half of the least positive double, [2^-1074].  A positive quotient of
    two doubles is rounded to 0 exactly when it is at most this number;
    above it, the quotient is positive as a double too. *)
Definition half_least : num := Fin (Q2Qc (Qmake 1 (2 ^ 1075))).

(** A number below [2^1023] in absolute value: a product or a quotient of
    doubles that is in this range before rounding is a finite double after
    it. *)
Definition huge : Qc := Q2Qc (inject_Z (2 ^ 1023)).

Definition no_overflow (q : Qc) : Prop := (- huge < q)%Qc /\ (q < huge)%Qc.

(** [2^53]: every integer up to it is a double, and for a double [a] with
    [33 <= a < 2^53] the difference [a - 33] is a double as well, so that
    the subtraction is not rounded. *)
Definition exact_bound : Qc := Q2Qc (inject_Z (2 ^ 53)).

End Num.

Declare Scope num_scope.
Delimit Scope num_scope with num.
Bind Scope num_scope with num.
Infix "+" := Num.add : num_scope.
Infix "-" := Num.sub : num_scope.
Infix "*" := Num.mul : num_scope.
Infix "/" := Num.div : num_scope.
Notation "- a" := (Num.neg a) : num_scope.
Infix "<?" := Num.ltb : num_scope.
Infix "<=?" := Num.leb : num_scope.
Infix ">?" := Num.gtb : num_scope.
Infix ">=?" := Num.geb : num_scope.
Infix "=?" := Num.eqb : num_scope.

(** ** Vectors and rectangles *)

Record Vec : Type := mkVec { vx : num; vy : num }.

Record Bounds : Type := mkBounds { bmin : Vec; bmax : Vec }.

(** A rectangle of intersection, from [getIntersection]. *)
Record Intersection : Type := mkIntersection { width : num; height : num }.

(** ** common.js *)

Inductive BodyType : Type :=
  | STATIC   (* 0 *)
  | PLAYER   (* 1 *)
  | BOUNCE   (* 2 *)
  | BULLET.  (* 3 *)

#[global] Instance BodyType_eq_dec : EqDecision BodyType.
Proof. solve_decision. Defined.

Module BOUNCE_FIXES_LIMIT.
Definition X : Z := 3.
Definition Y : Z := 3.
End BOUNCE_FIXES_LIMIT.

(** [getNextId] returns the counter and increments it; the counter is part
    of the state that is threaded through the constructors. *)
Definition getNextId (nextId : Z) : Z * Z := (nextId, (nextId + 1)%Z).

(** ** Per-class state

    The fields every class has ([id], [position], [bounds], and the fields
    the grid adds) are gathered in [Body] below; the fields of one class
    only are in the records of this section.  [size] and [userData] are
    never read by the engine and are left out. *)

(** A region key is the string [x + ':' + y] of two 32-bit integers, and a
    pair key the string [a + ':' + b] of two ids; both encodings are
    injective, and the keys are modelled by the pairs they encode.  The
    cached [regionsString] is the join of the region keys by a comma, again
    injective, and is modelled by the list it joins. *)
Definition Region : Type := Z * Z.
Definition PairId : Type := Z * Z.

Module Static.
Record t : Type := mk { isSensor : bool }.
End Static.

Module Player.
Record t : Type := mk {
  moveSpeed : num;
  jumpDistance : num;
  gravity : num;
  jumpCoef : num;
  lastGroundPositionY : num;
  forceX : num;
  moveDirectionY : Z;
  isOnGround : bool;
  jumpInitDir : num;
  jumpTimer : option num;     (* [false] is [None] *)
  fallTimer : option num;     (* [false] is [None] *)
  normalBounds : Bounds
}.
End Player.

Module Bounce.
Record t : Type := mk {
  force : Vec;
  gravity : num;
  reboundSpeed : num;
  moveDirectionY : Z;
  countCollisionsFix : Z * Z;   (* [{x, y}] *)
  normalBounds : Bounds
}.
End Bounce.

Record EquationCoefs : Type := mkCoefs { ab : num; ba : num; ca : num; cb : num }.

Module Bullet.
Record t : Type := mk {
  prevPosition : Vec;
  force : Vec;
  ownerId : Z;
  longOfLife : option num;    (* [false] is [None] *)
  long : option num;          (* absent when there is no [longOfLife] *)
  equationCoefs : EquationCoefs
}.
End Bullet.

Inductive BodyState : Type :=
  | IsStatic (s : Static.t)
  | IsPlayer (s : Player.t)
  | IsBounce (s : Bounce.t)
  | IsBullet (s : Bullet.t).

Record Body : Type := mkBody {
  id : Z;
  position : Vec;
  bounds : Bounds;
  regions : option (list Region);        (* absent until registered *)
  regionsString : option (list Region);  (* absent on static bodies *)
  isUpdated : bool;                      (* absent, hence falsy, on static bodies *)
  state : BodyState
}.

Definition type (b : Body) : BodyType :=
  match state b with
  | IsStatic _ => STATIC
  | IsPlayer _ => PLAYER
  | IsBounce _ => BOUNCE
  | IsBullet _ => BULLET
  end.

(** [body.isSensor] is [undefined], hence falsy, on a body that is not static. *)
Definition isSensor (b : Body) : bool :=
  match state b with
  | IsStatic s => Static.isSensor s
  | _ => false
  end.

(** [body.moveDirectionY]; [undefined] (here [None]) on static bodies and bullets. *)
Definition moveDirectionY (b : Body) : option Z :=
  match state b with
  | IsPlayer s => Some (Player.moveDirectionY s)
  | IsBounce s => Some (Bounce.moveDirectionY s)
  | _ => None
  end.

Definition set_position (p : Vec) (b : Body) : Body :=
  mkBody (id b) p (bounds b) (regions b) (regionsString b) (isUpdated b) (state b).
Definition set_bounds (bd : Bounds) (b : Body) : Body :=
  mkBody (id b) (position b) bd (regions b) (regionsString b) (isUpdated b) (state b).
Definition set_regions (r : option (list Region)) (b : Body) : Body :=
  mkBody (id b) (position b) (bounds b) r (regionsString b) (isUpdated b) (state b).
Definition set_regionsString (r : option (list Region)) (b : Body) : Body :=
  mkBody (id b) (position b) (bounds b) (regions b) r (isUpdated b) (state b).
Definition set_isUpdated (u : bool) (b : Body) : Body :=
  mkBody (id b) (position b) (bounds b) (regions b) (regionsString b) u (state b).
Definition set_state (s : BodyState) (b : Body) : Body :=
  mkBody (id b) (position b) (bounds b) (regions b) (regionsString b) (isUpdated b) s.

(** The heap of body objects, addressed by id. *)
Abbreviation Heap := (gmap Z Body).

(** [array.indexOf(v)] followed by [splice(index, 1)] when the index is
    not -1: the first occurrence is removed. *)
Fixpoint splice_first (v : Z) (l : list Z) : list Z :=
  match l with
  | [] => []
  | w :: l' => if decide (w = v) then l' else w :: splice_first v l'
  end.

(** [array.indexOf(v) > -1]. *)
Definition includes (v : Z) (l : list Z) : bool := bool_decide (v ∈ l).

(** [Math.sqrt] has no exact value on the rationals; the development is
    parametric in it. *)
Class MathOps : Type := { Math_sqrt : num -> num }.

(** ** body/static.js *)

Module BodyStatic.

Record options : Type := mkOptions {
  x : num; y : num; width : num; height : num; isSensor : bool
}.

Definition constructor (o : options) (nextId : Z) : Body * Z :=
  let '(id, nextId) := getNextId nextId in
  let halfWidth := (width o / Num.ofZ 2)%num in
  let halfHeight := (height o / Num.ofZ 2)%num in
  (mkBody id
     (mkVec (x o) (y o))
     (mkBounds (mkVec (- halfWidth + x o) (- halfHeight + y o))
               (mkVec (halfWidth + x o) (halfHeight + y o)))
     None None false
     (IsStatic (Static.mk (isSensor o))),
   nextId).

End BodyStatic.

(** ** body/bullet.js *)

Module BodyBullet.

Record options : Type := mkOptions {
  x : num; y : num; force : Vec; ownerId : option Z; longOfLife : option num
}.

Definition set_prevPosition (p : Vec) (s : Bullet.t) : Bullet.t :=
  Bullet.mk p (Bullet.force s) (Bullet.ownerId s) (Bullet.longOfLife s)
    (Bullet.long s) (Bullet.equationCoefs s).
Definition set_long (l : option num) (s : Bullet.t) : Bullet.t :=
  Bullet.mk (Bullet.prevPosition s) (Bullet.force s) (Bullet.ownerId s)
    (Bullet.longOfLife s) l (Bullet.equationCoefs s).

(** [_updateBounds]: the hull of [position] and [prevPosition]. *)
Definition _updateBounds (this : Body) (s : Bullet.t) : Body :=
  let position := position this in
  let prevPosition := Bullet.prevPosition s in
  set_bounds
    (mkBounds
       (mkVec (Num.min (vx position) (vx prevPosition))
              (Num.min (vy position) (vy prevPosition)))
       (mkVec (Num.max (vx position) (vx prevPosition))
              (Num.max (vy position) (vy prevPosition))))
    this.

(** The coefficients of the line [a*x + b*y + c = 0] through the bullet's
    position along its force. *)
Definition equationCoefs_of (ox oy : num) (force : Vec) : EquationCoefs :=
  let a := (- vy force)%num in
  let b := vx force in
  let c := (ox * vy force - oy * vx force)%num in
  mkCoefs (a / b) (b / a) (c / a) (c / b).

Definition constructor (o : options) (nextId : Z) : Body * Z :=
  let position := mkVec (x o) (y o) in
  let prevPosition := mkVec (x o) (y o) in
  let force := mkVec (vx (force o) / Num.ofZ 1000) (vy (force o) / Num.ofZ 1000) in
  (* options.ownerId || 0 *)
  let ownerId := match ownerId o with Some i => i | None => 0%Z end in
  (* options.longOfLife || false *)
  let longOfLife :=
    match longOfLife o with
    | Some l => if Num.truthy l then Some l else None
    | None => None
    end in
  let long := match longOfLife with Some _ => Some Num.zero | None => None end in
  let coefs := equationCoefs_of (x o) (y o) force in
  let '(id, nextId) := getNextId nextId in
  let s := Bullet.mk prevPosition force ownerId longOfLife long coefs in
  (_updateBounds
     (mkBody id position
        (mkBounds (mkVec Num.zero Num.zero) (mkVec Num.zero Num.zero))
        None None true (IsBullet s))
     s,
   nextId).

(** [update(delta, bodiesToRemove)]; returns the body and the queue. *)
Definition update `{MathOps} (delta : num) (this : Body) (s : Bullet.t)
    (bodiesToRemove : list Z) : Body * list Z :=
  let force := Bullet.force s in
  let longOfLife := Bullet.longOfLife s in
  let s := set_prevPosition (position this) s in
  let moveX := (vx force * delta)%num in
  let moveY := (vy force * delta)%num in
  let this :=
    set_position (mkVec (vx (position this) + moveX) (vy (position this) + moveY)) this in
  match longOfLife with
  | Some life =>
      let long :=
        ((match Bullet.long s with Some l => l | None => NaN end)
         + Math_sqrt (moveX * moveX + moveY * moveY))%num in
      let s := set_long (Some long) s in
      let this := set_state (IsBullet s) this in
      if (long >=? life)%num then (this, bodiesToRemove ++ [id this])
      else (_updateBounds this s, bodiesToRemove)
  | None =>
      let this := set_state (IsBullet s) this in
      (_updateBounds this s, bodiesToRemove)
  end.

End BodyBullet.

(** ** body/bounce.js *)

Module BodyBounce.

Record options : Type := mkOptions {
  x : num; y : num; width : num; height : num; force : Vec; gravity : num
}.

Definition set_force (f : Vec) (s : Bounce.t) : Bounce.t :=
  Bounce.mk f (Bounce.gravity s) (Bounce.reboundSpeed s) (Bounce.moveDirectionY s)
    (Bounce.countCollisionsFix s) (Bounce.normalBounds s).
Definition set_reboundSpeed (r : num) (s : Bounce.t) : Bounce.t :=
  Bounce.mk (Bounce.force s) (Bounce.gravity s) r (Bounce.moveDirectionY s)
    (Bounce.countCollisionsFix s) (Bounce.normalBounds s).
Definition set_moveDirectionY (d : Z) (s : Bounce.t) : Bounce.t :=
  Bounce.mk (Bounce.force s) (Bounce.gravity s) (Bounce.reboundSpeed s) d
    (Bounce.countCollisionsFix s) (Bounce.normalBounds s).
Definition set_countCollisionsFix (c : Z * Z) (s : Bounce.t) : Bounce.t :=
  Bounce.mk (Bounce.force s) (Bounce.gravity s) (Bounce.reboundSpeed s)
    (Bounce.moveDirectionY s) c (Bounce.normalBounds s).

(** [_updateBounds]: [normalBounds] moved to [position]. *)
Definition _updateBounds (this : Body) (s : Bounce.t) : Body :=
  let normalBounds := Bounce.normalBounds s in
  let position := position this in
  set_bounds
    (mkBounds
       (mkVec (vx (bmin normalBounds) + vx position) (vy (bmin normalBounds) + vy position))
       (mkVec (vx (bmax normalBounds) + vx position) (vy (bmax normalBounds) + vy position)))
    this.

Definition constructor (o : options) (nextId : Z) : Body * Z :=
  let position := mkVec (x o) (y o) in
  let force := mkVec (vx (force o) / Num.ofZ 1000) (vy (force o) / Num.ofZ 1000) in
  let reboundSpeed :=
    if (vy force >? Num.zero)%num then (- vy force)%num else vy force in
  let '(id, nextId) := getNextId nextId in
  let halfWidth := (width o / Num.ofZ 2)%num in
  let halfHeight := (height o / Num.ofZ 2)%num in
  let normalBounds :=
    mkBounds (mkVec (- halfWidth) (- halfHeight)) (mkVec halfWidth halfHeight) in
  let s := Bounce.mk force (gravity o) reboundSpeed 0 (0, 0)%Z normalBounds in
  (_updateBounds
     (mkBody id position
        (mkBounds (mkVec Num.zero Num.zero) (mkVec Num.zero Num.zero))
        None None false (IsBounce s))
     s,
   nextId).

Definition setPosition (p : Vec) (this : Body) : Body :=
  set_isUpdated true (set_position (mkVec (vx p) (vy p)) this).

Definition update (delta : num) (this : Body) (s : Bounce.t) : Body :=
  (* if(this.countCollisionsFix.x < BOUNCE_FIXES_LIMIT.X) *)
  let this :=
    if (fst (Bounce.countCollisionsFix s) <? BOUNCE_FIXES_LIMIT.X)%Z then
      set_isUpdated true
        (set_position
           (mkVec (vx (position this) + vx (Bounce.force s) * delta) (vy (position this)))
           this)
    else this in
  (* if(this.countCollisionsFix.y < BOUNCE_FIXES_LIMIT.Y) *)
  let '(this, s) :=
    if (snd (Bounce.countCollisionsFix s) <? BOUNCE_FIXES_LIMIT.Y)%Z then
      let this :=
        set_position
          (mkVec (vx (position this)) (vy (position this) + vy (Bounce.force s) * delta))
          this in
      let s :=
        set_force
          (mkVec (vx (Bounce.force s)) (vy (Bounce.force s) + Bounce.gravity s * delta))
          s in
      let s :=
        set_moveDirectionY
          (if (vy (Bounce.force s) >? Num.zero)%num then 1 else -1)%Z s in
      (set_isUpdated true this, s)
    else (this, s) in
  let this := set_state (IsBounce s) this in
  if isUpdated this then _updateBounds this s else this.

Definition updateCollision (correction : Vec) (this : Body) (s : Bounce.t) : Body :=
  let cx := fst (Bounce.countCollisionsFix s) in
  let s :=
    if (cx <=? BOUNCE_FIXES_LIMIT.X)%Z then
      if (cx =? BOUNCE_FIXES_LIMIT.X)%Z then
        set_force (mkVec Num.zero (vy (Bounce.force s))) s
      else
        let s :=
          set_force
            (mkVec (vx (Bounce.force s)
                    * (Num.ofQ (1 # 2) - Num.ofQ (1 # 10) * Num.ofZ cx))
                   (vy (Bounce.force s)))
            s in
        let s :=
          if Num.neqb (vx correction) Num.zero
             && Num.neqb (Num.sign (vx correction)) (Num.sign (vx (Bounce.force s)))
          then set_force (mkVec (vx (Bounce.force s) * Num.ofZ (-1)) (vy (Bounce.force s))) s
          else s in
        set_countCollisionsFix
          ((cx + 1)%Z, snd (Bounce.countCollisionsFix s)) s
    else s in
  let cy := snd (Bounce.countCollisionsFix s) in
  let s :=
    if Num.neqb (vy correction) Num.zero && (cy <=? BOUNCE_FIXES_LIMIT.Y)%Z then
      let s :=
        if (vy correction <? Num.zero)%num then
          if (cy =? BOUNCE_FIXES_LIMIT.Y)%Z then
            set_moveDirectionY 0
              (set_force (mkVec (vx (Bounce.force s)) Num.zero) s)
          else
            let s :=
              set_reboundSpeed
                (Bounce.reboundSpeed s
                 * (Num.ofQ (1 # 2) - Num.ofQ (3 # 20) * Num.ofZ cy))
                s in
            let s := set_force (mkVec (vx (Bounce.force s)) (Bounce.reboundSpeed s)) s in
            set_countCollisionsFix
              (fst (Bounce.countCollisionsFix s), (cy + 1)%Z) s
        else s in
      if (vy correction >? Num.zero)%num then
        set_force (mkVec (vx (Bounce.force s)) (vy (Bounce.force s) * Num.ofZ (-1))) s
      else s
    else s in
  set_state (IsBounce s) this.

End BodyBounce.

(** ** body/player.js *)

Module BodyPlayer.

Record options : Type := mkOptions {
  x : num; y : num; width : num; height : num;
  moveSpeed : option num; jumpDistance : option num; gravity : num
}.

Definition set_lastGroundPositionY (v : num) (s : Player.t) : Player.t :=
  Player.mk (Player.moveSpeed s) (Player.jumpDistance s) (Player.gravity s)
    (Player.jumpCoef s) v (Player.forceX s) (Player.moveDirectionY s)
    (Player.isOnGround s) (Player.jumpInitDir s) (Player.jumpTimer s)
    (Player.fallTimer s) (Player.normalBounds s).
Definition set_forceX (v : num) (s : Player.t) : Player.t :=
  Player.mk (Player.moveSpeed s) (Player.jumpDistance s) (Player.gravity s)
    (Player.jumpCoef s) (Player.lastGroundPositionY s) v (Player.moveDirectionY s)
    (Player.isOnGround s) (Player.jumpInitDir s) (Player.jumpTimer s)
    (Player.fallTimer s) (Player.normalBounds s).
Definition set_moveDirectionY (v : Z) (s : Player.t) : Player.t :=
  Player.mk (Player.moveSpeed s) (Player.jumpDistance s) (Player.gravity s)
    (Player.jumpCoef s) (Player.lastGroundPositionY s) (Player.forceX s) v
    (Player.isOnGround s) (Player.jumpInitDir s) (Player.jumpTimer s)
    (Player.fallTimer s) (Player.normalBounds s).
Definition set_isOnGround (v : bool) (s : Player.t) : Player.t :=
  Player.mk (Player.moveSpeed s) (Player.jumpDistance s) (Player.gravity s)
    (Player.jumpCoef s) (Player.lastGroundPositionY s) (Player.forceX s)
    (Player.moveDirectionY s) v (Player.jumpInitDir s) (Player.jumpTimer s)
    (Player.fallTimer s) (Player.normalBounds s).
Definition set_jumpInitDir (v : num) (s : Player.t) : Player.t :=
  Player.mk (Player.moveSpeed s) (Player.jumpDistance s) (Player.gravity s)
    (Player.jumpCoef s) (Player.lastGroundPositionY s) (Player.forceX s)
    (Player.moveDirectionY s) (Player.isOnGround s) v (Player.jumpTimer s)
    (Player.fallTimer s) (Player.normalBounds s).
Definition set_jumpTimer (v : option num) (s : Player.t) : Player.t :=
  Player.mk (Player.moveSpeed s) (Player.jumpDistance s) (Player.gravity s)
    (Player.jumpCoef s) (Player.lastGroundPositionY s) (Player.forceX s)
    (Player.moveDirectionY s) (Player.isOnGround s) (Player.jumpInitDir s) v
    (Player.fallTimer s) (Player.normalBounds s).
Definition set_fallTimer (v : option num) (s : Player.t) : Player.t :=
  Player.mk (Player.moveSpeed s) (Player.jumpDistance s) (Player.gravity s)
    (Player.jumpCoef s) (Player.lastGroundPositionY s) (Player.forceX s)
    (Player.moveDirectionY s) (Player.isOnGround s) (Player.jumpInitDir s)
    (Player.jumpTimer s) v (Player.normalBounds s).

(** [_updateBounds]: [normalBounds] moved to [position]. *)
Definition _updateBounds (this : Body) (s : Player.t) : Body :=
  let normalBounds := Player.normalBounds s in
  let position := position this in
  set_bounds
    (mkBounds
       (mkVec (vx (bmin normalBounds) + vx position) (vy (bmin normalBounds) + vy position))
       (mkVec (vx (bmax normalBounds) + vx position) (vy (bmax normalBounds) + vy position)))
    this.

Definition constructor `{MathOps} (o : options) (nextId : Z) : Body * Z :=
  let position := mkVec (x o) (y o) in
  (* options.moveSpeed ? options.moveSpeed / 1000 : 0.4 *)
  let moveSpeed :=
    match moveSpeed o with
    | Some v => if Num.truthy v then (v / Num.ofZ 1000)%num else Num.ofQ (2 # 5)
    | None => Num.ofQ (2 # 5)
    end in
  (* options.jumpDistance || options.height * 1.1 *)
  let jumpDistance :=
    match jumpDistance o with
    | Some v => if Num.truthy v then v else (height o * Num.ofQ (11 # 10))%num
    | None => (height o * Num.ofQ (11 # 10))%num
    end in
  let jumpCoef := Math_sqrt (jumpDistance / gravity o) in
  (* options.y || 0 *)
  let lastGroundPositionY := if Num.truthy (y o) then y o else Num.zero in
  let '(id, nextId) := getNextId nextId in
  let halfWidth := (width o / Num.ofZ 2)%num in
  let halfHeight := (height o / Num.ofZ 2)%num in
  let normalBounds :=
    mkBounds (mkVec (- halfWidth) (- halfHeight)) (mkVec halfWidth halfHeight) in
  let s :=
    Player.mk moveSpeed jumpDistance (gravity o) jumpCoef lastGroundPositionY
      Num.zero 0 false Num.zero None None normalBounds in
  (_updateBounds
     (mkBody id position
        (mkBounds (mkVec Num.zero Num.zero) (mkVec Num.zero Num.zero))
        None None false (IsPlayer s))
     s,
   nextId).

Definition setPosition (newPosition : Vec) (this : Body) : Body :=
  set_isUpdated true (set_position (mkVec (vx newPosition) (vy newPosition)) this).

(** [update], lines 123-144: horizontal motion. *)
Definition update_move (delta : num) (p : Body * Player.t) : Body * Player.t :=
  let '(this, s) := p in
  if Num.truthy (Player.forceX s) then
    let this := set_isUpdated true this in
    let this :=
      set_position
        (mkVec (vx (position this) + Player.forceX s * delta) (vy (position this)))
        this in
    if Player.isOnGround s then
      (set_position (mkVec (vx (position this)) (vy (position this) + Num.one)) this,
       set_isOnGround false s)
    else (this, s)
  else (this, s).

(** [update], lines 150-171: the jump timer. *)
Definition update_jump (delta : num) (p : Body * Player.t) : Body * Player.t :=
  let '(this, s) := p in
  match Player.jumpTimer s with
  | Some t =>
      let jumpTimer := (t + delta)%num in
      let s := set_jumpTimer (Some jumpTimer) s in
      let this :=
        set_position
          (mkVec (vx (position this))
                 (Player.lastGroundPositionY s
                  + Player.gravity s * Num.pow2 (jumpTimer - Player.jumpCoef s)
                  - Player.jumpDistance s))
          this in
      let s :=
        set_moveDirectionY
          (if (jumpTimer - Player.jumpCoef s >? Num.zero)%num then 1 else -1)%Z s in
      (set_isUpdated true this, s)
  | None => (this, s)
  end.

(** [update], lines 175-192: the fall timer. *)
Definition update_fall (delta : num) (p : Body * Player.t) : Body * Player.t :=
  let '(this, s) := p in
  match Player.fallTimer s with
  | Some t =>
      if negb (Player.isOnGround s) then
        let fallTimer := (t + delta)%num in
        let s := set_fallTimer (Some fallTimer) s in
        let this :=
          set_position
            (mkVec (vx (position this))
                   (Player.lastGroundPositionY s + Player.gravity s * Num.pow2 fallTimer))
            this in
        let s := set_moveDirectionY 1 s in
        (set_isUpdated true this, s)
      else (this, s)
  | None => (this, s)
  end.

(** [update], line 204, storing the class fields back into the body. *)
Definition update_finish (p : Body * Player.t) : Body :=
  let '(this, s) := p in
  let this := set_state (IsPlayer s) this in
  if isUpdated this then _updateBounds this s else this.

Definition update (delta : num) (this : Body) (s : Player.t) : Body :=
  let p := update_move delta (this, s) in
  (* this.moveDirectionY = 0 *)
  let p := (fst p, set_moveDirectionY 0 (snd p)) in
  let p := update_jump delta p in
  let p := update_fall delta p in
  update_finish p.

Definition updateCollision (correction : Vec) (this : Body) (s : Player.t) : Body :=
  let s :=
    if Num.neqb (vx correction) Num.zero then set_jumpInitDir Num.zero s else s in
  let s :=
    if (vy correction <? Num.zero)%num then
      set_fallTimer None
        (set_jumpTimer None (set_jumpInitDir Num.zero (set_isOnGround true s)))
    else s in
  let s :=
    if (vy correction >? Num.zero)%num then
      set_jumpInitDir Num.zero (set_jumpTimer None s)
    else s in
  set_state (IsPlayer s) this.

Definition move (dir : num) (this : Body) (s : Player.t) : Body :=
  let s := set_forceX (Player.moveSpeed s * dir) s in
  let s :=
    if negb (Player.isOnGround s) && Num.neqb dir (Player.jumpInitDir s) then
      let s := set_jumpInitDir Num.zero s in
      set_forceX (Player.forceX s / Num.ofZ 2) s
    else s in
  set_state (IsPlayer s) this.

Definition stop (this : Body) (s : Player.t) : Body :=
  set_state (IsPlayer (set_forceX Num.zero s)) this.

Definition jump (this : Body) (s : Player.t) : Body :=
  if negb (Player.isOnGround s) then this
  else
    let s := set_jumpTimer (Some Num.zero) s in
    let s := set_lastGroundPositionY (vy (position this)) s in
    let s :=
      if (Player.forceX s <? Num.zero)%num then set_jumpInitDir (Num.ofZ (-1)) s else s in
    let s :=
      if (Player.forceX s >? Num.zero)%num then set_jumpInitDir Num.one s else s in
    set_state (IsPlayer (set_isOnGround false s)) this.

End BodyPlayer.

(** ** grid.js *)

Definition regionsShift : Z := 9.

(** The two nested loops of [getRegions], rows first. *)
Definition getRegions (bounds : Bounds) : list Region :=
  let sx := Num.shr (vx (bmin bounds)) regionsShift in
  let sy := Num.shr (vy (bmin bounds)) regionsShift in
  let ex := Num.shr (vx (bmax bounds)) regionsShift in
  let ey := Num.shr (vy (bmax bounds)) regionsShift in
  flat_map (fun y => (fun x => (x, y)) <$> seqZ sx (ex - sx + 1))
           (seqZ sy (ey - sy + 1)).

Definition getPairId (bodyAId bodyBId : Z) : PairId :=
  if (bodyAId <? bodyBId)%Z then (bodyAId, bodyBId) else (bodyBId, bodyAId).

Definition is_bullet_of (bullet other : Body) : bool :=
  match state bullet with
  | IsBullet s => bool_decide (Bullet.ownerId s = id other)
  | _ => false
  end.

Definition canCollide (bodyA bodyB : Body) : bool :=
  if bool_decide (type bodyA = type bodyB) then false
  else if bool_decide (type bodyA = BOUNCE) && negb (bool_decide (type bodyB = STATIC))
  then false
  else if bool_decide (type bodyB = BOUNCE) && negb (bool_decide (type bodyA = STATIC))
  then false
  else if is_bullet_of bodyA bodyB then false
  else if is_bullet_of bodyB bodyA then false
  else true.

(** An entry of [pairs]. *)
Record Pair : Type := mkPair {
  pair_id : PairId;
  bodyA : Z;
  bodyB : Z;
  count : Z
}.

Module Grid.

(** [pairs] keeps the order in which its keys were inserted, which is the
    order [for ... in] enumerates them in. *)
Record t : Type := mk {
  pairs : list Pair;
  hash : gmap Region (list Z)
}.

Definition constructor : t := mk [] ∅.

(** [this.pairs[pairId]]. *)
Fixpoint pairs_lookup (k : PairId) (ps : list Pair) : option Pair :=
  match ps with
  | [] => None
  | p :: ps' => if decide (pair_id p = k) then Some p else pairs_lookup k ps'
  end.

(** [this.pairs[pairId].count++] and [this.pairs[pairId].count--]. *)
Definition pairs_add_count (k : PairId) (d : Z) (ps : list Pair) : list Pair :=
  (fun p =>
     if decide (pair_id p = k)
     then mkPair (pair_id p) (bodyA p) (bodyB p) (count p + d)
     else p) <$> ps.

(** [delete(this.pairs[pairId])]. *)
Definition pairs_delete (k : PairId) (ps : list Pair) : list Pair :=
  filter (fun p => pair_id p ≠ k) ps.

(** [this.hash[region]], read where the entry exists; the empty list stands
    for a missing entry. *)
Definition hash_at (g : t) (region : Region) : list Z :=
  default [] (hash g !! region).

(** [if(this.hash[region]) this.hash[region].push(body);
     else this.hash[region] = [ body ];] *)
Definition hash_push (region : Region) (body : Z) (g : t) : t :=
  mk (pairs g) (<[region := hash_at g region ++ [body]]> (hash g)).

(** [index = hash.indexOf(body); if(index > -1) hash.splice(index, 1)] on
    the entry of [region], when there is one. *)
Definition hash_splice (region : Region) (body : Z) (g : t) : t :=
  mk (pairs g) (alter (splice_first body) region (hash g)).

(** The body of the inner loop of [_addPairs]. *)
Definition addPair (h : Heap) (body : Body) (g : t) (other : Z) : t :=
  match h !! other with
  | None => g
  | Some otherBody =>
      if bool_decide (id otherBody = id body) then g
      else if negb (canCollide body otherBody) then g
      else
        let pairId := getPairId (id body) (id otherBody) in
        match pairs_lookup pairId (pairs g) with
        | Some _ => mk (pairs_add_count pairId 1 (pairs g)) (hash g)
        | None =>
            mk (pairs g ++ [mkPair pairId (id body) (id otherBody) 1]) (hash g)
        end
  end.

(** The optional argument [regions] of [_addPairs] and [_removePairs]:
    [regions || body.regions]. *)
Definition regions_or (arg : option (list Region)) (body : Body) : list Region :=
  match arg with
  | Some r => r
  | None => default [] (regions body)
  end.

Definition _addPairs (h : Heap) (body : Body) (arg : option (list Region))
    (g : t) : t :=
  foldl (fun g region => foldl (addPair h body) g (hash_at g region))
        g (regions_or arg body).

(** The body of the inner loop of [_removePairs]. *)
Definition removePair (h : Heap) (body : Body) (g : t) (other : Z) : t :=
  match h !! other with
  | None => g
  | Some otherBody =>
      let pairId := getPairId (id body) (id otherBody) in
      match pairs_lookup pairId (pairs g) with
      | Some p =>
          if bool_decide (count p = 1) then mk (pairs_delete pairId (pairs g)) (hash g)
          else mk (pairs_add_count pairId (-1) (pairs g)) (hash g)
      | None => g
      end
  end.

Definition _removePairs (h : Heap) (body : Body) (arg : option (list Region))
    (g : t) : t :=
  foldl (fun g region => foldl (removePair h body) g (hash_at g region))
        g (regions_or arg body).

(** [_addBody(body)].  The body is read from the heap and written back with
    its regions. *)
Definition _addBody (body : Body) (st : Heap * t) : Heap * t :=
  let '(h, g) := st in
  let rs := getRegions (bounds body) in
  let body := set_regions (Some rs) body in
  let body :=
    if bool_decide (type body ≠ STATIC)
    then set_regionsString (Some rs) body else body in
  let h := <[id body := body]> h in
  let g := foldl (fun g region => hash_push region (id body) g) g rs in
  (h, _addPairs h body None g).

(** [_updateBody(body, newRegions, regionsString)]. *)
Definition _updateBody (body : Body) (newRegions regionsString : list Region)
    (st : Heap * t) : Heap * t :=
  let '(h, g) := st in
  let oldRegions := default [] (regions body) in
  let regionsToRemove :=
    filter (fun value => value ∉ newRegions) oldRegions in
  let regionsToAdd :=
    filter (fun value => value ∉ oldRegions) newRegions in
  let g :=
    if bool_decide (regionsToRemove ≠ []) then
      let g := foldl (fun g region => hash_splice region (id body) g) g regionsToRemove in
      _removePairs h body (Some regionsToRemove) g
    else g in
  let g :=
    if bool_decide (regionsToAdd ≠ []) then
      let g := foldl (fun g region => hash_push region (id body) g) g regionsToAdd in
      _addPairs h body (Some regionsToAdd) g
    else g in
  let body := set_regionsString (Some regionsString) (set_regions (Some newRegions) body) in
  (<[id body := body]> h, g).

(** [removeBody(body)]. *)
Definition removeBody (body : Z) (st : Heap * t) : Heap * t :=
  let '(h, g) := st in
  match h !! body with
  | None => st
  | Some b =>
      match regions b with
      | None => st
      | Some rs =>
          let g := foldl (fun g region => hash_splice region (id b) g) g rs in
          let g := _removePairs h b None g in
          let b := set_regionsString None (set_regions None b) in
          (<[id b := b]> h, g)
      end
  end.

(** One iteration of the loop of [update(bodies)]. *)
Definition update_body (st : Heap * t) (i : Z) : Heap * t :=
  match fst st !! i with
  | None => st
  | Some body =>
      match regions body with
      | None => _addBody body st
      | Some _ =>
          if bool_decide (type body = STATIC) then st
          else if isUpdated body then
            let body :=
              if bool_decide (type body ≠ BULLET) then set_isUpdated false body
              else body in
            let st := (<[id body := body]> (fst st), snd st) in
            let rs := getRegions (bounds body) in
            (* regions.join(',') *)
            let rsString := rs in
            if bool_decide (Some rsString ≠ regionsString body)
            then _updateBody body rs rsString st
            else st
          else st
      end
  end.

Definition update (bodies : list Z) (st : Heap * t) : Heap * t :=
  foldl update_body st bodies.

End Grid.

(** ** engine.js *)

(** The records pushed on the sensor list. *)
Inductive Sensor : Type :=
  | SensorOutWorld (body : Z)                          (* {isOutWorld: true, body} *)
  | SensorOverlap (bodyA bodyB : Z)                    (* {bodyA, bodyB} *)
  | SensorHit (bodyBullet bodyHitted : Z) (point : Vec).
                                   (* {isHit: true, bodyBullet, bodyHitted, point} *)

(** The records pushed on the list of collisions. *)
Record Collision : Type := mkCollision {
  collision_bodyA : Z;
  collision_bodyB : Z;
  intersection : Intersection
}.

Definition isOutOfRegion (vector : Vec) (bounds : Bounds) : bool :=
  (vx vector <? vx (bmin bounds))%num
  || (vx vector >? vx (bmax bounds))%num
  || (vy vector <? vy (bmin bounds))%num
  || (vy vector >? vy (bmax bounds))%num.

Definition getIntersection (boundsA boundsB : Bounds) : Intersection :=
  let maxMinX := Num.max (vx (bmin boundsA)) (vx (bmin boundsB)) in
  let minMaxX := Num.min (vx (bmax boundsA)) (vx (bmax boundsB)) in
  let maxMinY := Num.max (vy (bmin boundsA)) (vy (bmin boundsB)) in
  let minMaxY := Num.min (vy (bmax boundsA)) (vy (bmax boundsB)) in
  mkIntersection (minMaxX - maxMinX) (minMaxY - maxMinY).

Inductive Axis : Type := AxisX | AxisY.

(** [point[axis] = v]. *)
Definition set_axis (axis : Axis) (v : num) (point : Vec) : Vec :=
  match axis with
  | AxisX => mkVec v (vy point)
  | AxisY => mkVec (vx point) v
  end.

(** [hitResult]; [target] is [null] until a crossing is accepted. *)
Module HitResult.
Record t : Type := mk {
  point : Vec;
  halfSumm : num;
  target : option Z
}.
End HitResult.

Definition handlingLineIntersect
    (input a b minOutputValue maxOutputValue prevInput prevOutput : num)
    (inputAxis outputAxis : Axis) (target : Z) (result : HitResult.t) : HitResult.t :=
  if negb (Num.isFinite a) || negb (Num.isFinite b) then result
  else
    let output := (- a * input - b)%num in
    if (output <=? minOutputValue)%num || (output >=? maxOutputValue)%num then result
    else
      let halfSumm := (Num.abs (output - prevOutput) + Num.abs (input - prevInput))%num in
      if (halfSumm <? HitResult.halfSumm result)%num then
        HitResult.mk
          (set_axis outputAxis output
             (set_axis inputAxis input (HitResult.point result)))
          halfSumm (Some target)
      else result.

(** [body.update(delta, bodiesToRemove)], by class.  A static body has no
    such method; [updatePositions] never calls it on one. *)
Definition Body_update `{MathOps} (delta : num) (body : Body)
    (bodiesToRemove : list Z) : Body * list Z :=
  match state body with
  | IsBullet s => BodyBullet.update delta body s bodiesToRemove
  | IsBounce s => (BodyBounce.update delta body s, bodiesToRemove)
  | IsPlayer s => (BodyPlayer.update delta body s, bodiesToRemove)
  | IsStatic _ => (body, bodiesToRemove)
  end.

(** [resolvedBody.updateCollision(correction)] and
    [resolvedBody.setPosition(p)], by class; only player and bounce bodies
    have these methods, and only they are ever resolved. *)
Definition Body_updateCollision (correction : Vec) (body : Body) : Body :=
  match state body with
  | IsPlayer s => BodyPlayer.updateCollision correction body s
  | IsBounce s => BodyBounce.updateCollision correction body s
  | _ => body
  end.

Definition Body_setPosition (p : Vec) (body : Body) : Body :=
  match state body with
  | IsPlayer _ => BodyPlayer.setPosition p body
  | IsBounce _ => BodyBounce.setPosition p body
  | _ => body
  end.

(** The state the stages of a sub-step work on: the heap, and the arrays
    [bodiesToRemove] and [sensors], which the stages push on. *)
Record Stage : Type := mkStage {
  st_heap : Heap;
  st_bodiesToRemove : list Z;
  st_sensors : list Sensor
}.

(** One iteration of the loop of [updatePositions]. *)
Definition updatePosition `{MathOps} (delta : num) (worldBounds : Bounds)
    (st : Stage) (i : Z) : Stage :=
  match st_heap st !! i with
  | None => st
  | Some body =>
      if bool_decide (type body = STATIC) then st
      else if includes i (st_bodiesToRemove st) then st
      else
        let '(body, bodiesToRemove) := Body_update delta body (st_bodiesToRemove st) in
        let h := <[i := body]> (st_heap st) in
        if isOutOfRegion (position body) worldBounds then
          mkStage h (bodiesToRemove ++ [i]) (st_sensors st ++ [SensorOutWorld i])
        else mkStage h bodiesToRemove (st_sensors st)
  end.

Definition updatePositions `{MathOps} (delta : num) (bodies : list Z)
    (worldBounds : Bounds) (st : Stage) : Stage :=
  foldl (updatePosition delta worldBounds) st bodies.

(** [removeBodies(bodies, bodiesToRemove, broadphase)]; returns the heap,
    the grid and the array [bodies]; [bodiesToRemove] is emptied by the
    caller of this function below. *)
Definition removeBodies (bodies bodiesToRemove : list Z) (st : Heap * Grid.t)
    : Heap * Grid.t * list Z :=
  foldl (fun '(st, bodies) b => (Grid.removeBody b st, splice_first b bodies))
        (st, bodies) bodiesToRemove.

(** An entry [bulletsTargets[key] = {bullet, targets}]. *)
Record BulletTargets : Type := mkBulletTargets {
  bt_key : Z;
  bt_bullet : Z;
  bt_targets : list Z
}.

(** [bulletsTargets]: its keys are the ids of bullets, which [for ... in]
    enumerates in ascending order; the list is kept sorted by key.
    [bulletsTargets_push key bullet hitted] creates the entry of [key] when
    it is missing and pushes [hitted] on its targets. *)
Fixpoint bulletsTargets_push (key bullet hitted : Z) (bt : list BulletTargets)
    : list BulletTargets :=
  match bt with
  | [] => [mkBulletTargets key bullet [hitted]]
  | e :: bt' =>
      if decide (bt_key e = key)
      then mkBulletTargets (bt_key e) (bt_bullet e) (bt_targets e ++ [hitted]) :: bt'
      else if decide (key < bt_key e)
      then mkBulletTargets key bullet [hitted] :: bt
      else e :: bulletsTargets_push key bullet hitted bt'
  end.

(** What the first loop of [detectCollisions] builds. *)
Record Detected : Type := mkDetected {
  bulletsTargets : list BulletTargets;
  collisions : list Collision;
  sensors : list Sensor
}.

(** One iteration of the first loop of [detectCollisions]. *)
Definition detectPair (h : Heap) (d : Detected) (pair : Pair) : Detected :=
  let a := bodyA pair in
  let b := bodyB pair in
  match h !! a, h !! b with
  | Some bodyA, Some bodyB =>
      let intersection := getIntersection (bounds bodyA) (bounds bodyB) in
      if (width intersection <? Num.zero)%num || (height intersection <? Num.zero)%num
      then d
      else if isSensor bodyA || isSensor bodyB then
        mkDetected (bulletsTargets d) (collisions d)
          (sensors d ++ [SensorOverlap a b])
      else if bool_decide (type bodyA = BULLET) || bool_decide (type bodyB = BULLET) then
        let '(bullet, bodyBullet) :=
          if bool_decide (type bodyA = BULLET) then (a, bodyA) else (b, bodyB) in
        let hitted := if bool_decide (type bodyA = BULLET) then b else a in
        mkDetected
          (bulletsTargets_push (id bodyBullet) bullet hitted (bulletsTargets d))
          (collisions d) (sensors d)
      else
        mkDetected (bulletsTargets d)
          (collisions d ++ [mkCollision a b intersection])
          (sensors d)
  | _, _ => d
  end.

(** The four probes of one target, in the order of the source. *)
Definition probeTarget (h : Heap) (coefs : EquationCoefs) (prevPosition : Vec)
    (hitResult : HitResult.t) (t : Z) : HitResult.t :=
  match h !! t with
  | None => hitResult
  | Some target =>
      let tb := bounds target in
      let hitResult :=
        handlingLineIntersect (vx (bmin tb)) (ab coefs) (cb coefs)
          (vy (bmin tb)) (vy (bmax tb)) (vx prevPosition) (vy prevPosition)
          AxisX AxisY t hitResult in
      let hitResult :=
        handlingLineIntersect (vx (bmax tb)) (ab coefs) (cb coefs)
          (vy (bmin tb)) (vy (bmax tb)) (vx prevPosition) (vy prevPosition)
          AxisX AxisY t hitResult in
      let hitResult :=
        handlingLineIntersect (vy (bmin tb)) (ba coefs) (ca coefs)
          (vx (bmin tb)) (vx (bmax tb)) (vy prevPosition) (vx prevPosition)
          AxisY AxisX t hitResult in
      handlingLineIntersect (vy (bmax tb)) (ba coefs) (ca coefs)
        (vx (bmin tb)) (vx (bmax tb)) (vy prevPosition) (vx prevPosition)
        AxisY AxisX t hitResult
  end.

Definition hitResult_init : HitResult.t :=
  HitResult.mk (mkVec Num.zero Num.zero) PInf None.

(** The loop over the targets of one bullet. *)
Definition probeTargets (h : Heap) (s : Bullet.t) (bulletTargets : list Z)
    : HitResult.t :=
  foldl (probeTarget h (Bullet.equationCoefs s) (Bullet.prevPosition s))
        hitResult_init bulletTargets.

(** One iteration of the second loop of [detectCollisions]; the state is
    [bodiesToRemove] and [sensors]. *)
Definition resolveBullet (h : Heap) (st : list Z * list Sensor)
    (entry : BulletTargets) : list Z * list Sensor :=
  let '(bodiesToRemove, sensors) := st in
  let bullet := bt_bullet entry in
  let bulletTargets := bt_targets entry in
  match state <$> h !! bullet with
  | Some (IsBullet s) =>
      let hitResult := probeTargets h s bulletTargets in
      match HitResult.target hitResult with
      | None => st
      | Some target =>
          let bodiesToRemove :=
            if bool_decide (Bullet.longOfLife s = None)
               || bool_decide (type <$> h !! target = Some STATIC)
            then bodiesToRemove ++ [bullet] else bodiesToRemove in
          (bodiesToRemove,
           sensors ++ [SensorHit bullet target (HitResult.point hitResult)])
      end
  | _ => st
  end.

(** [detectCollisions(broadphasePairs, bodiesToRemove, collisions, sensors)];
    returns [bodiesToRemove], [collisions] and [sensors]. *)
Definition detectCollisions (h : Heap) (broadphasePairs : list Pair)
    (bodiesToRemove : list Z) (sensors0 : list Sensor)
    : list Z * list Collision * list Sensor :=
  let d := foldl (detectPair h) (mkDetected [] [] sensors0) broadphasePairs in
  let '(bodiesToRemove, sensors) :=
    foldl (resolveBullet h) (bodiesToRemove, sensors d) (bulletsTargets d) in
  (bodiesToRemove, collisions d, sensors).

(** One iteration of the loop of [correctionPositions]. *)
Definition correctionPosition (h : Heap) (collision : Collision) : Heap :=
  let a := collision_bodyA collision in
  let b := collision_bodyB collision in
  match h !! a, h !! b with
  | Some bodyA, Some bodyB =>
      let '(r, resolvedBody, staticBody) :=
        if bool_decide (type bodyA = PLAYER) || bool_decide (type bodyA = BOUNCE)
        then (a, bodyA, bodyB) else (b, bodyB, bodyA) in
      let cx := width (intersection collision) in
      let cy := height (intersection collision) in
      let needMinIntersectFix := true in
      let boundsResolved := bounds resolvedBody in
      let boundsStatic := bounds staticBody in
      let '(cx, needMinIntersectFix) :=
        if (vx (bmin boundsResolved) >? vx (bmin boundsStatic))%num
           && (vx (bmax boundsResolved) <? vx (bmax boundsStatic))%num
        then (Num.zero, false) else (cx, needMinIntersectFix) in
      let '(cy, needMinIntersectFix) :=
        if (vy (bmin boundsResolved) >? vy (bmin boundsStatic))%num
           && (vy (bmax boundsResolved) <? vy (bmax boundsStatic))%num
        then (Num.zero, false) else (cy, needMinIntersectFix) in
      let '(cx, cy, needMinIntersectFix) :=
        if Num.neqb cy Num.zero
           && (vy (position resolvedBody) <? vy (position staticBody))%num
        then
          let '(cy, needMinIntersectFix) :=
            if bool_decide (type resolvedBody = PLAYER)
               && bool_decide (moveDirectionY resolvedBody = Some (-1))
               && negb (match state resolvedBody with
                        | IsPlayer s => Player.isOnGround s
                        | _ => false
                        end)
            then (Num.zero, false) else (cy, needMinIntersectFix) in
          if bool_decide (moveDirectionY resolvedBody = Some 1) && (cy <? cx)%num
          then (Num.zero, cy, false) else (cx, cy, needMinIntersectFix)
        else (cx, cy, needMinIntersectFix) in
      let '(cx, cy) :=
        if needMinIntersectFix then
          if (cx <? cy)%num then (cx, Num.zero) else (Num.zero, cy)
        else (cx, cy) in
      let cy :=
        if (vy (position resolvedBody) <? vy (position staticBody))%num
        then (cy * Num.ofZ (-1))%num else cy in
      let cx :=
        if (vx (position resolvedBody) <? vx (position staticBody))%num
        then (cx * Num.ofZ (-1))%num else cx in
      let correction := mkVec cx cy in
      let resolvedBody := Body_updateCollision correction resolvedBody in
      let resolvedBody :=
        Body_setPosition
          (mkVec (vx (position resolvedBody) + vx correction)
                 (vy (position resolvedBody) + vy correction))
          resolvedBody in
      <[r := resolvedBody]> h
  | _, _ => h
  end.

Definition correctionPositions (collisions : list Collision) (h : Heap) : Heap :=
  foldl correctionPosition h collisions.

(** One iteration of the loop of [afterUpdate]. *)
Definition afterUpdate_body (h : Heap) (i : Z) : Heap :=
  match h !! i with
  | Some body =>
      match state body with
      | IsPlayer s =>
          if negb (Player.isOnGround s)
             && bool_decide (Player.jumpTimer s = None)
             && bool_decide (Player.fallTimer s = None)
          then
            let s := BodyPlayer.set_fallTimer (Some Num.zero) s in
            let s := BodyPlayer.set_lastGroundPositionY (vy (position body)) s in
            <[i := set_state (IsPlayer s) body]> h
          else h
      | _ => h
      end
  | None => h
  end.

Definition afterUpdate (bodies : list Z) (h : Heap) : Heap :=
  foldl afterUpdate_body h bodies.

(** ** world.js *)

Module World.

Record options : Type := mkOptions { o_bounds : option Bounds }.

(** Class [World], with the heap of the bodies it has created and the
    counter of [getNextId]. *)
Record t : Type := mk {
  bounds : Bounds;
  gravity : num;
  bodies : list Z;
  bodiesToRemove : list Z;
  broadphase : Grid.t;
  heap : Heap;
  nextId : Z
}.

Definition constructor (o : options) : t :=
  mk (default (mkBounds (mkVec NInf NInf) (mkVec PInf PInf)) (o_bounds o))
     (Num.ofQ (1 # 1000)) [] [] Grid.constructor ∅ 1.

(** [_update(delta)]: one sub-step. *)
Definition _update `{MathOps} (delta : num) (w : t) : t * list Sensor :=
  let bodies := bodies w in
  let st :=
    updatePositions delta bodies (bounds w)
      (mkStage (heap w) (bodiesToRemove w) []) in
  let '(h, broadphase, bodies) :=
    removeBodies bodies (st_bodiesToRemove st) (st_heap st, broadphase w) in
  (* bodiesToRemove.length = 0 *)
  let bodiesToRemove := [] in
  let '(h, broadphase) := Grid.update bodies (h, broadphase) in
  let broadphasePairs := Grid.pairs broadphase in
  let '(bodiesToRemove, collisions, sensors) :=
    detectCollisions h broadphasePairs bodiesToRemove (st_sensors st) in
  let h := correctionPositions collisions h in
  let h := afterUpdate bodies h in
  (mk (bounds w) (gravity w) bodies bodiesToRemove broadphase h (nextId w), sensors).

Definition maxDelta : num := Num.ofZ 33.

(** The body of the loop of [update], run [stepsCount] times. *)
Fixpoint update_loop `{MathOps} (stepsCount : nat) (delta : num) (w : t)
    (sensors : list Sensor) : t * list Sensor :=
  match stepsCount with
  | O => (w, sensors)
  | S stepsCount =>
      let '(stepDelta, delta) :=
        if (delta <? maxDelta)%num then (delta, delta)
        else (maxDelta, (delta - maxDelta)%num) in
      let '(w, s) := _update stepDelta w in
      update_loop stepsCount delta w (sensors ++ s)
  end.

(** [update(delta)].  [stepsCount = Math.ceil(delta / maxDelta)] is an
    integer, an infinity or NaN.  [while(stepsCount--)] runs [stepsCount]
    times when it is a natural number and not at all when it is NaN; when it
    is negative or infinite the loop never ends, since the counter only
    moves away from zero, and the result is [None]. *)
Definition update `{MathOps} (delta : num) (w : t) : option (t * list Sensor) :=
  match Num.ceil (delta / maxDelta) with
  | Fin q =>
      if Num.Qc_ltb q 0 then None
      else Some (update_loop (Z.to_nat (Qceiling q)) delta w [])
  | NaN => Some (w, [])
  | PInf | NInf => None
  end.

Definition removeBody (body : Z) (w : t) : t :=
  mk (bounds w) (gravity w) (bodies w) (bodiesToRemove w ++ [body])
     (broadphase w) (heap w) (nextId w).

(** [this.bodies.push(body)] for a body fresh from its constructor. *)
Definition push_body (w : t) (r : Body * Z) : t * Z :=
  let '(body, nextId) := r in
  (mk (bounds w) (gravity w) (bodies w ++ [id body]) (bodiesToRemove w)
      (broadphase w) (<[id body := body]> (heap w)) nextId,
   id body).

Definition createBulletBody (o : BodyBullet.options) (w : t) : t * Z :=
  push_body w (BodyBullet.constructor o (nextId w)).

(** [options.gravity = this.gravity] before the constructor is called. *)
Definition createBounceBody (o : BodyBounce.options) (w : t) : t * Z :=
  let o :=
    BodyBounce.mkOptions (BodyBounce.x o) (BodyBounce.y o) (BodyBounce.width o)
      (BodyBounce.height o) (BodyBounce.force o) (gravity w) in
  push_body w (BodyBounce.constructor o (nextId w)).

Definition createPlayerBody `{MathOps} (o : BodyPlayer.options) (w : t) : t * Z :=
  let o :=
    BodyPlayer.mkOptions (BodyPlayer.x o) (BodyPlayer.y o) (BodyPlayer.width o)
      (BodyPlayer.height o) (BodyPlayer.moveSpeed o) (BodyPlayer.jumpDistance o)
      (gravity w) in
  push_body w (BodyPlayer.constructor o (nextId w)).

Definition createStaticBody (o : BodyStatic.options) (w : t) : t * Z :=
  push_body w (BodyStatic.constructor o (nextId w)).

End World.

(** ** The host

    What the owner of a world can do to it through the public interface:
    the four factories, [update], [removeBody], and the methods of the
    bodies it has been handed.  A call on a body of the wrong class is not
    possible ([None]), and so is an [update] that does not return. *)

Inductive HostCall : Type :=
  | CreateBulletBody (o : BodyBullet.options)
  | CreateBounceBody (o : BodyBounce.options)
  | CreatePlayerBody (o : BodyPlayer.options)
  | CreateStaticBody (o : BodyStatic.options)
  | Update (delta : num)
  | RemoveBody (body : Z)
  | PlayerMove (body : Z) (dir : num)
  | PlayerStop (body : Z)
  | PlayerJump (body : Z)
  | PlayerSetPosition (body : Z) (p : Vec)
  | BounceSetPosition (body : Z) (p : Vec)
  | BounceUpdate (body : Z) (delta : num)
  | BounceUpdateCollision (body : Z) (correction : Vec).

Definition with_heap (h : Heap) (w : World.t) : World.t :=
  World.mk (World.bounds w) (World.gravity w) (World.bodies w)
    (World.bodiesToRemove w) (World.broadphase w) h (World.nextId w).

(** A method of a player body, applied in the heap. *)
Definition on_player (f : Body -> Player.t -> Body) (body : Z) (w : World.t)
    : option World.t :=
  match World.heap w !! body with
  | Some b =>
      match state b with
      | IsPlayer s => Some (with_heap (<[body := f b s]> (World.heap w)) w)
      | _ => None
      end
  | None => None
  end.

(** A method of a bounce body, applied in the heap. *)
Definition on_bounce (f : Body -> Bounce.t -> Body) (body : Z) (w : World.t)
    : option World.t :=
  match World.heap w !! body with
  | Some b =>
      match state b with
      | IsBounce s => Some (with_heap (<[body := f b s]> (World.heap w)) w)
      | _ => None
      end
  | None => None
  end.

Definition call `{MathOps} (c : HostCall) (w : World.t) : option World.t :=
  match c with
  | CreateBulletBody o => Some (fst (World.createBulletBody o w))
  | CreateBounceBody o => Some (fst (World.createBounceBody o w))
  | CreatePlayerBody o => Some (fst (World.createPlayerBody o w))
  | CreateStaticBody o => Some (fst (World.createStaticBody o w))
  | Update delta => fst <$> World.update delta w
  | RemoveBody body => Some (World.removeBody body w)
  | PlayerMove body dir => on_player (BodyPlayer.move dir) body w
  | PlayerStop body => on_player BodyPlayer.stop body w
  | PlayerJump body => on_player BodyPlayer.jump body w
  | PlayerSetPosition body p => on_player (fun b _ => BodyPlayer.setPosition p b) body w
  | BounceSetPosition body p => on_bounce (fun b _ => BodyBounce.setPosition p b) body w
  | BounceUpdate body delta => on_bounce (BodyBounce.update delta) body w
  | BounceUpdateCollision body correction =>
      on_bounce (BodyBounce.updateCollision correction) body w
  end.

Fixpoint run `{MathOps} (calls : list HostCall) (w : World.t) : option World.t :=
  match calls with
  | [] => Some w
  | c :: calls => w' ← call c w; run calls w'
  end.

(** The states a world can be in: those a sequence of calls leads to from
    a fresh world. *)
Definition reachable `{MathOps} (w : World.t) : Prop :=
  exists (o : World.options) (calls : list HostCall),
    run calls (World.constructor o) = Some w.

(** ** Notions the properties are stated with *)

(** The number of region keys under which both [a] and [b] appear in
    [hash]. *)
Definition coresidence (g : Grid.t) (a b : Z) : nat :=
  size (filter (fun e : Region * list Z => a ∈ e.2 /\ b ∈ e.2) (Grid.hash g)).

(** The regions a body is registered in, read from the heap. *)
Definition regs (h : Heap) (o : Z) : list Region :=
  match h !! o with
  | Some b => default [] (regions b)
  | None => []
  end.

(** [canCollide] on references. *)
Definition canCollide_ref (h : Heap) (a b : Z) : bool :=
  match h !! a, h !! b with
  | Some bodyA, Some bodyB => canCollide bodyA bodyB
  | _, _ => false
  end.

(** The count stored under a pair key, 0 when the key is absent. *)
Definition pair_count (g : Grid.t) (k : PairId) : Z :=
  match Grid.pairs_lookup k (Grid.pairs g) with
  | Some p => count p
  | None => 0
  end.

(** The number of regions two bodies share, by the region lists [rho]. *)
Definition shared (rho : Z -> list Region) (a b : Z) : Z :=
  Z.of_nat (length (filter (fun r => r ∈ rho b) (rho a))).

(** What never changes in a body: its id, its class and, for a bullet, its
    owner. *)
Definition ownerId_of (b : Body) : option Z :=
  match state b with
  | IsBullet s => Some (Bullet.ownerId s)
  | _ => None
  end.

Definition ident (b : Body) : Z * BodyType * option Z :=
  (id b, type b, ownerId_of b).

(** An iteration of the inner loop of [_addPairs], respectively of
    [_removePairs], on [o] touches the pair key [k]. *)
Definition addHit (h : Heap) (body : Body) (k : PairId) (o : Z) : Prop :=
  match h !! o with
  | Some ob =>
      id ob ≠ id body /\ canCollide body ob = true
      /\ getPairId (id body) (id ob) = k
  | None => False
  end.

Definition remHit (h : Heap) (body : Body) (k : PairId) (o : Z) : Prop :=
  match h !! o with
  | Some ob => getPairId (id body) (id ob) = k
  | None => False
  end.

#[global] Instance addHit_dec h body k o : Decision (addHit h body k o).
Proof. unfold addHit. destruct (h !! o); apply _. Defined.

#[global] Instance remHit_dec h body k o : Decision (remHit h body k o).
Proof. unfold remHit. destruct (h !! o); apply _. Defined.

(** The region lists [rho] with the list of [B] replaced. *)
Definition rho_set (rho : Z -> list Region) (B : Z) (l : list Region)
    : Z -> list Region :=
  fun o => if decide (o = B) then l else rho o.

(** The entries of [pairs] are well formed. *)
Definition pairs_ok (ps : list Pair) : Prop :=
  NoDup (pair_id <$> ps) /\
  forall p, p ∈ ps ->
    1 <= count p /\ pair_id p = getPairId (bodyA p) (bodyB p) /\ bodyA p ≠ bodyB p.

(** The invariant of the grid, relative to the region lists [rho] of the
    bodies: the hash lists hold exactly the bodies registered under their
    key, once each, and the count of a pair is the number of regions its
    bodies share, for exactly the pairs that can collide. *)
Record grid_inv_at (h : Heap) (rho : Z -> list Region) (g : Grid.t) : Prop := {
  inv_ids : forall i b, h !! i = Some b -> id b = i;
  inv_known : forall o, rho o ≠ [] -> is_Some (h !! o);
  inv_hash_nodup : forall r, NoDup (Grid.hash_at g r);
  inv_hash : forall o r, o ∈ Grid.hash_at g r <-> r ∈ rho o;
  inv_regs_nodup : forall o, NoDup (rho o);
  inv_pairs_ok : pairs_ok (Grid.pairs g);
  inv_count : forall a b, a ≠ b ->
    pair_count g (getPairId a b)
    = if canCollide_ref h a b then shared rho a b else 0
}.

Definition grid_inv (h : Heap) (g : Grid.t) : Prop := grid_inv_at h (regs h) g.

(** How the heap may change between two operations of the grid: a body
    keeps what [ident] gives and its registration, and a new body is not
    registered. *)
Definition heap_evolves (h h' : Heap) : Prop :=
  forall i,
    match h !! i, h' !! i with
    | Some b, Some b' =>
        ident b' = ident b /\ regions b' = regions b
    | None, Some b' => id b' = i /\ regions b' = None
    | None, None => True
    | Some _, None => False
    end.

(** The fix counters of a bounce body are within their limits. *)
Definition fixes_within_limit (b : Body) : Prop :=
  match state b with
  | IsBounce s =>
      fst (Bounce.countCollisionsFix s) <= BOUNCE_FIXES_LIMIT.X /\
      snd (Bounce.countCollisionsFix s) <= BOUNCE_FIXES_LIMIT.Y
  | _ => True
  end.

(** What the methods of a body and the stages of a sub-step leave alone
    ([body_frame]), and what the grid leaves alone ([body_grid]). *)
Definition body_frame (b b' : Body) : Prop :=
  ident b' = ident b /\ regions b' = regions b /\
  (fixes_within_limit b -> fixes_within_limit b').

Definition body_grid (b b' : Body) : Prop :=
  ident b' = ident b /\ state b' = state b.

(** What the grid leaves alone in a body: everything but its registration
    and its mark of update ([body_place]); and what a sub-step leaves alone
    in a static body ([static_rests]). *)
Definition body_place (b b' : Body) : Prop :=
  id b' = id b /\ position b' = position b /\ bounds b' = bounds b /\
  state b' = state b.

Definition static_rests (b b' : Body) : Prop :=
  type b = STATIC ->
  position b' = position b /\ bounds b' = bounds b /\ state b' = state b.

(** Two heaps hold the same bodies, related one by one. *)
Definition heap_rel (R : Body -> Body -> Prop) (h h' : Heap) : Prop :=
  forall i,
    match h !! i, h' !! i with
    | Some b, Some b' => R b b'
    | None, None => True
    | _, _ => False
    end.

(** The invariant of a world. *)
Record world_inv (w : World.t) : Prop := {
  winv_grid : grid_inv (World.heap w) (World.broadphase w);
  winv_fresh : forall i, is_Some (World.heap w !! i) -> i < World.nextId w;
  winv_fixes : forall i b, World.heap w !! i = Some b -> fixes_within_limit b
}.

(** Every queued body is a bullet of [h] with a hit record in [sensors]. *)
Definition queue_of_hits (h : Heap) (queue : list Z) (sensors : list Sensor) : Prop :=
  forall b, b ∈ queue ->
    type <$> h !! b = Some BULLET /\
    exists target point, SensorHit b target point ∈ sensors.

(** The list [ps] is [ps0] followed by entries whose key involves the body
    [B]. *)
Definition pairs_extend (B : Z) (ps0 ps : list Pair) : Prop :=
  exists e, ps = ps0 ++ e /\ forall p, p ∈ e -> exists o, pair_id p = getPairId B o.

(** ** Crossings of a bullet's line with the edges of its targets *)

(** The Manhattan distance between two points. *)
Definition manhattan (p q : Vec) : num :=
  (Num.abs (vx p - vx q) + Num.abs (vy p - vy q))%num.

(** A crossing: where the line meets an edge, and the body of that edge. *)
Record Crossing : Type := mkCrossing { cr_point : Vec; cr_target : Z }.

(** The crossing with the edge [inputAxis = input], when the probe accepts
    it: both coefficients are finite, and the other coordinate is neither at
    or below [minOutputValue] nor at or above [maxOutputValue]. *)
Definition probe (inputAxis : Axis) (input a b minOutputValue maxOutputValue : num)
    (t : Z) : option Crossing :=
  if Num.isFinite a && Num.isFinite b then
    let output := (- a * input - b)%num in
    if negb (output <=? minOutputValue)%num && negb (output >=? maxOutputValue)%num
    then
      Some (mkCrossing
              (match inputAxis with
               | AxisX => mkVec input output
               | AxisY => mkVec output input
               end) t)
    else None
  else None.

(** The accepted crossings of a bullet, target by target in the order of
    [targets], and for one target in the order min-X, max-X, min-Y, max-Y. *)
Definition crossings (h : Heap) (s : Bullet.t) (targets : list Z) : list Crossing :=
  targets ≫= fun t =>
    match h !! t with
    | Some target =>
        let tb := bounds target in
        let c := Bullet.equationCoefs s in
        omap Datatypes.id
          [ probe AxisX (vx (bmin tb)) (ab c) (cb c) (vy (bmin tb)) (vy (bmax tb)) t;
            probe AxisX (vx (bmax tb)) (ab c) (cb c) (vy (bmin tb)) (vy (bmax tb)) t;
            probe AxisY (vy (bmin tb)) (ba c) (ca c) (vx (bmin tb)) (vx (bmax tb)) t;
            probe AxisY (vy (bmax tb)) (ba c) (ca c) (vx (bmin tb)) (vx (bmax tb)) t ]
    | None => []
    end.

(** What one probe does to [hitResult], in terms of the crossing it accepts. *)
Definition take_crossing (prevPosition : Vec) (result : HitResult.t)
    (c : option Crossing) : HitResult.t :=
  match c with
  | Some c =>
      if (manhattan (cr_point c) prevPosition <? HitResult.halfSumm result)%num
      then HitResult.mk (cr_point c) (manhattan (cr_point c) prevPosition)
             (Some (cr_target c))
      else result
  | None => result
  end.

(** The invariant of the loop over the crossings seen so far. *)
Definition nearest_so_far (prev : Vec) (seen : list Crossing) (r : HitResult.t) : Prop :=
  (forall c, c ∈ seen ->
     Num.ltb (manhattan (cr_point c) prev) (HitResult.halfSumm r) = false) /\
  match HitResult.target r with
  | None => True
  | Some t =>
      exists (i : nat) c,
        seen !! i = Some c /\ HitResult.point r = cr_point c /\ t = cr_target c /\
        HitResult.halfSumm r = manhattan (cr_point c) prev /\
        forall (j : nat) c', (j < i)%nat -> seen !! j = Some c' ->
          Num.leb (manhattan (cr_point c') prev) (manhattan (cr_point c) prev) = false
  end.

(** ** Sample worlds

    A square root that is exact on the squares of rationals (and rounds the
    numerator and the denominator down elsewhere), to evaluate the engine
    with. *)
Definition sqrt_on_squares (a : num) : num :=
  match a with
  | Fin q =>
      if Num.Qc_ltb q 0 then NaN
      else Fin (Q2Qc (Z.sqrt (Qnum q) # Pos.sqrt (Qden q)))
  | PInf => PInf
  | NInf | NaN => NaN
  end.

Definition sample_ops : MathOps := {| Math_sqrt := sqrt_on_squares |}.

Module Sample.

Definition new_world : World.t := World.constructor (World.mkOptions None).

Definition run_from_new (calls : list HostCall) : World.t :=
  default new_world (@run sample_ops calls new_world).

(** A static square of side 100 centred at (500, 0), and a bullet at
    (400, 0) flying along the X axis at 5000 points per second. *)
Definition wall : BodyStatic.options :=
  BodyStatic.mkOptions (Num.ofZ 500) (Num.ofZ 0) (Num.ofZ 100) (Num.ofZ 100) false.

Definition bullet : BodyBullet.options :=
  BodyBullet.mkOptions (Num.ofZ 400) (Num.ofZ 0)
    (mkVec (Num.ofZ 5000) (Num.ofZ 0)) None None.

Definition shot_calls : list HostCall :=
  [CreateStaticBody wall; CreateBulletBody bullet].

Definition shot : World.t := run_from_new shot_calls.

(** The same world after one step of 16 ms. *)
Definition shot_calls_stepped : list HostCall :=
  shot_calls ++ [Update (Num.ofZ 16)].

Definition shot_stepped : World.t := run_from_new shot_calls_stepped.

(** The state of the bullet in that world. *)
Definition bullet_state (b : option Body) : Bullet.t :=
  match state <$> b with
  | Some (IsBullet s) => s
  | _ =>
      Bullet.mk (mkVec NaN NaN) (mkVec NaN NaN) 0 None None (mkCoefs NaN NaN NaN NaN)
  end.

Definition flying : Bullet.t := bullet_state (World.heap shot_stepped !! 2).

(** A static sensor of side 10 centred at (5, 0) and a player of side 10
    centred at (15, 0): the two rectangles share the edge x = 10. *)
Definition pad : BodyStatic.options :=
  BodyStatic.mkOptions (Num.ofZ 5) (Num.ofZ 0) (Num.ofZ 10) (Num.ofZ 10) true.

Definition walker : BodyPlayer.options :=
  BodyPlayer.mkOptions (Num.ofZ 15) (Num.ofZ 0) (Num.ofZ 10) (Num.ofZ 10)
    None (Some (Num.ofZ 10)) Num.zero.

Definition touching_calls : list HostCall :=
  [CreateStaticBody pad; CreatePlayerBody walker].

Definition touching : World.t := run_from_new touching_calls.

(** The two bodies of that world, as their constructors leave them. *)
Definition pad_body : Body := (BodyStatic.constructor pad 1).1.

Definition walker_body : Body :=
  (@BodyPlayer.constructor sample_ops
     (BodyPlayer.mkOptions (Num.ofZ 15) (Num.ofZ 0) (Num.ofZ 10) (Num.ofZ 10)
        None (Some (Num.ofZ 10)) (Num.ofQ (1 # 1000))) 2).1.

(** The pair of these two bodies, as the grid registers it. *)
Definition touching_pair : Pair := mkPair (1, 2) 2 1 2.

(** A world with the wall alone, not yet stepped. *)
Definition wall_only : World.t := run_from_new [CreateStaticBody wall].

(** A bounce body, in a world of its own. *)
Definition ball : BodyBounce.options :=
  BodyBounce.mkOptions (Num.ofZ 0) (Num.ofZ 0) (Num.ofZ 20) (Num.ofZ 20)
    (mkVec (Num.ofZ 0) (Num.ofZ (-300))) Num.zero.

Definition ball_calls : list HostCall := [CreateBounceBody ball].

Definition ball_world : World.t := run_from_new ball_calls.

Definition ball_body : Body :=
  (BodyBounce.constructor
     (BodyBounce.mkOptions (Num.ofZ 0) (Num.ofZ 0) (Num.ofZ 20) (Num.ofZ 20)
        (mkVec (Num.ofZ 0) (Num.ofZ (-300))) (Num.ofQ (1 # 1000))) 1).1.

(** A player with a jump of 10 points under the gravity of a world, whose
    [jumpCoef] is 100 ms: landed, then jumping, then stepped by 33, 33 and
    1 ms. *)
Definition jumper_options : BodyPlayer.options :=
  BodyPlayer.mkOptions (Num.ofZ 0) (Num.ofZ 0) (Num.ofZ 10) (Num.ofZ 10)
    None (Some (Num.ofZ 10)) (Num.ofQ (1 # 1000)).

Definition on_player_state (f : Body -> Player.t -> Body) (b : Body) : Body :=
  match state b with
  | IsPlayer s => f b s
  | _ => b
  end.

(** The class fields of a player body. *)
Definition player_state (b : Body) : Player.t :=
  match state b with
  | IsPlayer s => s
  | _ =>
      Player.mk NaN NaN NaN NaN NaN NaN 0 false NaN None None
        (mkBounds (mkVec NaN NaN) (mkVec NaN NaN))
  end.

Definition jumper : Body :=
  let b := (@BodyPlayer.constructor sample_ops jumper_options 1).1 in
  let b := on_player_state (BodyPlayer.updateCollision (mkVec Num.zero (Num.ofZ (-1)))) b in
  let b := on_player_state BodyPlayer.jump b in
  let b := on_player_state (BodyPlayer.update (Num.ofZ 33)) b in
  let b := on_player_state (BodyPlayer.update (Num.ofZ 33)) b in
  on_player_state (BodyPlayer.update (Num.ofZ 1)) b.

(** Its jump timer, 67 ms. *)
Definition jumper_timer : num :=
  default NaN (Player.jumpTimer (player_state jumper)).

(** The same body one step of 33 ms later, at the apex of the jump. *)
Definition jumper_at_apex : Body :=
  BodyPlayer.update (Num.ofZ 33) jumper (player_state jumper).

(** A player of side 10 centred at (500, -52), which overlaps the top of the
    wall by 3 points, in the world of the wall after one step of 16 ms. *)
Definition lander : BodyPlayer.options :=
  BodyPlayer.mkOptions (Num.ofZ 500) (Num.ofZ (-52)) (Num.ofZ 10) (Num.ofZ 10)
    None (Some (Num.ofZ 10)) Num.zero.

Definition landing_calls : list HostCall :=
  [CreateStaticBody wall; CreatePlayerBody lander; Update (Num.ofZ 16)].

Definition landing : World.t := run_from_new landing_calls.

(** The world of the pad and the walker after one step of 16 ms. *)
Definition touching_stepped : World.t :=
  run_from_new (touching_calls ++ [Update (Num.ofZ 16)]).

(** The ball after five collisions that push it left and up, reported by
    the host, and one step of 16 ms: both fix counters have reached 3. *)
Definition bounced_calls : list HostCall :=
  ball_calls
  ++ replicate 5 (BounceUpdateCollision 1 (mkVec (Num.ofZ (-1)) (Num.ofZ (-1))))
  ++ [Update (Num.ofZ 16)].

Definition bounced : World.t := run_from_new bounced_calls.

(** The ball in that world, and its class fields. *)
Definition bounced_body : Body := default ball_body (World.heap bounced !! 1).

Definition bounce_state (b : Body) : Bounce.t :=
  match state b with
  | IsBounce s => s
  | _ =>
      Bounce.mk (mkVec NaN NaN) NaN NaN 0 (0, 0)
        (mkBounds (mkVec NaN NaN) (mkVec NaN NaN))
  end.


(** The world of the wall and the lander after its step, in which the grid
    holds both and their pair, and then a bullet at (400, 0) that the grid
    does not hold yet. *)
Definition landing_then_bullet : World.t :=
  run_from_new (landing_calls ++ [CreateBulletBody bullet]).

Definition late_bullet : Body :=
  default pad_body (World.heap landing_then_bullet !! 3).

End Sample.

(** * Lists *)

Section lists.
Context {A : Type} `{EqDecision A}.

Lemma filter_eq_length (o : A) (l : list A) :
  NoDup l ->
  length (filter (fun x => x = o) l) = if decide (o ∈ l) then 1%nat else 0%nat.
Proof.
  induction 1 as [|x l Hx Hl IH]; [done|].
  rewrite filter_cons. destruct (decide (x = o)) as [->|Hne].
  - cbn. rewrite IH. rewrite (decide_True (P := o ∈ o :: l)) by left.
    by rewrite decide_False.
  - rewrite IH. destruct (decide (o ∈ l)) as [Hin|Hin].
    + by rewrite decide_True by (by right).
    + rewrite decide_False; [done|].
      intros [->|?]%elem_of_cons; done.
Qed.

Lemma filter_length_split (P Q : A -> Prop) `{!forall x, Decision (P x)}
    `{!forall x, Decision (Q x)} (l : list A) :
  length (filter P l)
  = (length (filter P (filter Q l))
     + length (filter P (filter (fun x => ~ Q x) l)))%nat.
Proof.
  induction l as [|x l IH]; [done|].
  repeat (rewrite filter_cons || case_decide); cbn [length]; try tauto; lia.
Qed.

Lemma filter_elem_of_sym (l1 l2 : list A) :
  NoDup l1 -> NoDup l2 ->
  length (filter (fun x => x ∈ l2) l1) = length (filter (fun x => x ∈ l1) l2).
Proof.
  intros H1 H2. apply Permutation_length, NoDup_Permutation.
  - by apply NoDup_filter.
  - by apply NoDup_filter.
  - intros x. rewrite !list_elem_of_filter. tauto.
Qed.

Lemma filter_length_perm (P : A -> Prop) `{!forall x, Decision (P x)} (l1 l2 : list A) :
  l1 ≡ₚ l2 -> length (filter P l1) = length (filter P l2).
Proof. intros HP. by rewrite HP. Qed.

Lemma filter_length_ext (P Q : A -> Prop) `{!forall x, Decision (P x)}
    `{!forall x, Decision (Q x)} (l : list A) :
  (forall x, x ∈ l -> P x <-> Q x) -> length (filter P l) = length (filter Q l).
Proof.
  intros Hext. induction l as [|x l IH]; [done|].
  rewrite !filter_cons.
  assert (P x <-> Q x) as Hx by (apply Hext; left).
  assert (length (filter P l) = length (filter Q l)) as IH'
    by (apply IH; intros y Hy; apply Hext; by right).
  repeat case_decide; cbn [length]; try tauto; lia.
Qed.

End lists.

(** * Keys *)

Lemma getPairId_sym a b : getPairId a b = getPairId b a.
Proof.
  unfold getPairId.
  destruct (Z.ltb_spec a b), (Z.ltb_spec b a); try done; try lia.
  by assert (a = b) as -> by lia.
Qed.

Lemma getPairId_inj a b c d :
  getPairId a b = getPairId c d -> (a = c /\ b = d) \/ (a = d /\ b = c).
Proof.
  unfold getPairId.
  destruct (Z.ltb_spec a b), (Z.ltb_spec c d); intros [= -> ->]; auto.
Qed.

Lemma getPairId_diag a b c : getPairId a b = (c, c) -> a = b.
Proof. unfold getPairId. by destruct (Z.ltb_spec a b); intros [= -> ->]. Qed.

Lemma NoDup_getRegions bounds : NoDup (getRegions bounds).
Proof.
  unfold getRegions.
  generalize (Num.shr (vx (bmin bounds)) regionsShift) as sx.
  generalize (Num.shr (vx (bmax bounds)) regionsShift) as ex.
  generalize (seqZ (Num.shr (vy (bmin bounds)) regionsShift)
    (Num.shr (vy (bmax bounds)) regionsShift
     - Num.shr (vy (bmin bounds)) regionsShift + 1)) (NoDup_seqZ
    (Num.shr (vy (bmin bounds)) regionsShift)
    (Num.shr (vy (bmax bounds)) regionsShift
     - Num.shr (vy (bmin bounds)) regionsShift + 1)).
  intros ys Hys ex sx. induction Hys as [|y ys Hy Hys IH]; cbn; [constructor|].
  apply NoDup_app. split_and!.
  - apply (NoDup_fmap_2 _), NoDup_seqZ.
  - intros [x' y'] [x [[= -> ->] _]]%list_elem_of_fmap Hin.
    apply list_elem_of_In, in_flat_map in Hin as (y'' & Hy'' & Hin).
    apply list_elem_of_In, list_elem_of_fmap in Hin as (? & [= -> ->] & _).
    by apply Hy, list_elem_of_In.
  - done.
Qed.

(** * The entries of [pairs] *)

Lemma pairs_lookup_Some k ps p :
  Grid.pairs_lookup k ps = Some p -> p ∈ ps /\ pair_id p = k.
Proof.
  induction ps as [|q ps IH]; [done|]. cbn.
  destruct (decide (pair_id q = k)).
  - intros [= ->]. split; [left|done].
  - intros [??]%IH. split; [by right|done].
Qed.

Lemma pairs_lookup_None k ps :
  Grid.pairs_lookup k ps = None <-> k ∉ pair_id <$> ps.
Proof.
  induction ps as [|q ps IH]; cbn.
  - split; [intros _ Hin; by apply elem_of_nil in Hin|done].
  - destruct (decide (pair_id q = k)) as [<-|Hne].
    + split; [done|]. intros []. left.
    + rewrite IH, not_elem_of_cons. naive_solver.
Qed.

Lemma pairs_lookup_elem_of ps p :
  NoDup (pair_id <$> ps) -> p ∈ ps -> Grid.pairs_lookup (pair_id p) ps = Some p.
Proof.
  induction ps as [|q ps IH]; cbn; [by intros _ []%elem_of_nil|].
  intros [Hq Hnd]%NoDup_cons [->|Hin]%elem_of_cons.
  - by rewrite decide_True.
  - rewrite decide_False; [by apply IH|].
    intros Heq. apply Hq. rewrite Heq. by apply list_elem_of_fmap_2.
Qed.

Lemma pairs_lookup_add_count k d ps k' :
  Grid.pairs_lookup k' (Grid.pairs_add_count k d ps)
  = (fun p => if decide (pair_id p = k)
              then mkPair (pair_id p) (bodyA p) (bodyB p) (count p + d) else p)
      <$> Grid.pairs_lookup k' ps.
Proof.
  induction ps as [|q ps IH]; [done|]. cbn.
  destruct (decide (pair_id q = k)); cbn; destruct (decide (pair_id q = k')); cbn;
    rewrite ?decide_True, ?decide_False by done; done.
Qed.

Lemma pairs_lookup_delete k ps k' :
  Grid.pairs_lookup k' (Grid.pairs_delete k ps)
  = if decide (k' = k) then None else Grid.pairs_lookup k' ps.
Proof.
  unfold Grid.pairs_delete.
  induction ps as [|q ps IH]; [by case_decide|].
  rewrite filter_cons. cbn. destruct (decide (pair_id q ≠ k)) as [Hne|Heq]; cbn.
  - rewrite IH. repeat case_decide; congruence.
  - rewrite IH. apply dec_stable in Heq. repeat case_decide; congruence.
Qed.

Lemma pairs_lookup_app ps qs k :
  Grid.pairs_lookup k (ps ++ qs)
  = match Grid.pairs_lookup k ps with
    | Some p => Some p
    | None => Grid.pairs_lookup k qs
    end.
Proof. induction ps as [|q ps IH]; [done|]. cbn. by case_decide. Qed.

Lemma fmap_pairs_add_count k d ps :
  pair_id <$> Grid.pairs_add_count k d ps = pair_id <$> ps.
Proof.
  unfold Grid.pairs_add_count. rewrite <- list_fmap_compose.
  apply list_fmap_ext. intros i p _. cbn. by case_decide.
Qed.

(** * The loops of [_addPairs] and [_removePairs] *)

Lemma pair_count_nonneg g k : pairs_ok (Grid.pairs g) -> 0 <= pair_count g k.
Proof.
  intros [_ Hok]. unfold pair_count.
  destruct (Grid.pairs_lookup k (Grid.pairs g)) as [p|] eqn:E; [|done].
  apply pairs_lookup_Some in E as [Hin _]. apply Hok in Hin. lia.
Qed.

Lemma hash_addPair h body g o : Grid.hash (Grid.addPair h body g o) = Grid.hash g.
Proof.
  unfold Grid.addPair. destruct (h !! o); [|done].
  repeat case_match; done.
Qed.

Lemma hash_removePair h body g o : Grid.hash (Grid.removePair h body g o) = Grid.hash g.
Proof.
  unfold Grid.removePair. destruct (h !! o); [|done].
  repeat case_match; done.
Qed.

Lemma pair_count_addPair h body g o k :
  pair_count (Grid.addPair h body g o) k
  = pair_count g k + (if decide (addHit h body k o) then 1 else 0).
Proof.
  destruct (decide (addHit h body k o)) as [Hhit|Hhit];
    unfold Grid.addPair, addHit in *; destruct (h !! o) as [ob|]; try done; try lia.
  - destruct Hhit as (Hid & Hcc & Hk). rewrite bool_decide_false, Hcc by done.
    cbn [negb]. rewrite Hk. unfold pair_count.
    destruct (Grid.pairs_lookup k (Grid.pairs g)) as [p|] eqn:E; cbn [Grid.pairs].
    + rewrite pairs_lookup_add_count, E. cbn.
      apply pairs_lookup_Some in E as [_ E]. by rewrite decide_True.
    + rewrite pairs_lookup_app, E. cbn. by rewrite decide_True.
  - case_bool_decide as Hid; [lia|].
    destruct (canCollide body ob) eqn:Hcc; cbn [negb]; [|lia].
    assert (getPairId (id body) (id ob) ≠ k) as Hk by tauto.
    unfold pair_count.
    destruct (Grid.pairs_lookup (getPairId (id body) (id ob)) (Grid.pairs g))
      as [p|] eqn:E; cbn [Grid.pairs].
    + rewrite pairs_lookup_add_count.
      destruct (Grid.pairs_lookup k (Grid.pairs g)) as [q|] eqn:E'; cbn; [|lia].
      apply pairs_lookup_Some in E' as [_ E'].
      rewrite decide_False by congruence. lia.
    + rewrite pairs_lookup_app.
      destruct (Grid.pairs_lookup k (Grid.pairs g)) as [q|] eqn:E'; [lia|].
      cbn. rewrite decide_False by done. lia.
Qed.

Lemma pairs_ok_addPair h body g o :
  pairs_ok (Grid.pairs g) -> pairs_ok (Grid.pairs (Grid.addPair h body g o)).
Proof.
  intros [Hnd Hok]. unfold Grid.addPair. destruct (h !! o) as [ob|]; [|done].
  case_bool_decide as Hid; [done|].
  destruct (canCollide body ob); cbn [negb]; [|done].
  destruct (Grid.pairs_lookup _ _) as [p|] eqn:E; cbn [Grid.pairs]; split.
  - by rewrite fmap_pairs_add_count.
  - intros q (q' & -> & Hq')%list_elem_of_fmap. apply Hok in Hq' as (?&?&?).
    case_decide; cbn; split_and!; try done; lia.
  - rewrite fmap_app. apply NoDup_app. split_and!; [done| |apply NoDup_singleton].
    intros k Hk [->|[]%elem_of_nil]%elem_of_cons.
    by apply pairs_lookup_None in E.
  - intros q [Hq| ->%list_elem_of_singleton]%elem_of_app; [by apply Hok|].
    cbn. split_and!; [lia|done|congruence].
Qed.

Lemma pair_count_removePair h body g o k :
  pairs_ok (Grid.pairs g) ->
  pair_count (Grid.removePair h body g o) k
  = if decide (remHit h body k o) then Z.max 0 (pair_count g k - 1)
    else pair_count g k.
Proof.
  intros Hok. pose proof (pair_count_nonneg g k Hok) as Hk0. destruct Hok as [Hnd Hok].
  destruct (decide (remHit h body k o)) as [Hhit|Hhit];
    unfold Grid.removePair, remHit in *; destruct (h !! o) as [ob|]; try done.
  - rewrite Hhit. unfold pair_count in *.
    destruct (Grid.pairs_lookup k (Grid.pairs g)) as [p|] eqn:E; cbn [Grid.pairs];
      [|rewrite E; lia].
    pose proof E as [Hp Hpk]%pairs_lookup_Some. apply Hok in Hp as (Hp1 & _).
    case_bool_decide as Hc; cbn [Grid.pairs].
    + rewrite pairs_lookup_delete, decide_True by done. lia.
    + rewrite pairs_lookup_add_count, E. cbn. rewrite decide_True by done. cbn. lia.
  - unfold pair_count in *.
    destruct (Grid.pairs_lookup (getPairId (id body) (id ob)) (Grid.pairs g))
      as [p|] eqn:E; cbn [Grid.pairs]; [|done].
    case_bool_decide as Hc; cbn [Grid.pairs].
    + rewrite pairs_lookup_delete, decide_False by congruence. done.
    + rewrite pairs_lookup_add_count.
      destruct (Grid.pairs_lookup k (Grid.pairs g)) as [q|] eqn:E'; cbn; [|done].
      apply pairs_lookup_Some in E' as [_ E'].
      by rewrite decide_False by congruence.
Qed.

Lemma pairs_ok_removePair h body g o :
  pairs_ok (Grid.pairs g) -> pairs_ok (Grid.pairs (Grid.removePair h body g o)).
Proof.
  intros [Hnd Hok]. unfold Grid.removePair. destruct (h !! o) as [ob|]; [|done].
  destruct (Grid.pairs_lookup _ _) as [p|] eqn:E; [|done].
  pose proof E as [Hp Hpk]%pairs_lookup_Some.
  case_bool_decide as Hc; cbn [Grid.pairs]; split.
  - eapply sublist_NoDup; [exact Hnd|apply fmap_sublist, sublist_filter].
  - intros q [_ Hq]%list_elem_of_filter. by apply Hok.
  - by rewrite fmap_pairs_add_count.
  - intros q (q' & -> & Hq')%list_elem_of_fmap.
    destruct (decide (pair_id q' = getPairId (id body) (id ob))) as [Heq|Hne].
    + assert (q' = p) as ->.
      { apply (pairs_lookup_elem_of _ _ Hnd) in Hq'. rewrite Heq in Hq'. congruence. }
      apply Hok in Hp as (?&?&?). cbn. split_and!; try done; lia.
    + by apply Hok.
Qed.

Lemma foldl_addPair h body L g k :
  Grid.hash (foldl (Grid.addPair h body) g L) = Grid.hash g /\
  (pairs_ok (Grid.pairs g) -> pairs_ok (Grid.pairs (foldl (Grid.addPair h body) g L))) /\
  pair_count (foldl (Grid.addPair h body) g L) k
  = pair_count g k + Z.of_nat (length (filter (addHit h body k) L)).
Proof.
  revert g. induction L as [|o L IH]; intros g; cbn [foldl].
  - split_and!; [done|done|cbn; lia].
  - destruct (IH (Grid.addPair h body g o)) as (IH1 & IH2 & IH3).
    rewrite IH1, IH3, hash_addPair, pair_count_addPair, filter_cons.
    split_and!; [done|by intros ?; apply IH2, pairs_ok_addPair|].
    case_decide; cbn [length]; lia.
Qed.

Lemma foldl_removePair h body L g k :
  pairs_ok (Grid.pairs g) ->
  Grid.hash (foldl (Grid.removePair h body) g L) = Grid.hash g /\
  pairs_ok (Grid.pairs (foldl (Grid.removePair h body) g L)) /\
  pair_count (foldl (Grid.removePair h body) g L) k
  = Z.max 0 (pair_count g k - Z.of_nat (length (filter (remHit h body k) L))).
Proof.
  revert g. induction L as [|o L IH]; intros g Hok; cbn [foldl].
  - split_and!; [done|done|]. pose proof (pair_count_nonneg g k Hok). cbn. lia.
  - destruct (IH (Grid.removePair h body g o)) as (IH1 & IH2 & IH3);
      [by apply pairs_ok_removePair|].
    rewrite IH1, IH3, hash_removePair, pair_count_removePair, filter_cons by done.
    split_and!; [done|done|].
    pose proof (pair_count_nonneg g k Hok).
    case_decide; cbn [length]; lia.
Qed.

Lemma hits_count {A B : Type} (P : B -> Prop) `{!forall x, Decision (P x)}
    (Q : A -> Prop) `{!forall x, Decision (Q x)} (f : A -> list B) (R : list A) :
  (forall r, r ∈ R ->
     length (filter P (f r)) = if decide (Q r) then 1%nat else 0%nat) ->
  length (filter P (R ≫= f)) = length (filter Q R).
Proof.
  induction R as [|r R IH]; intros HR; [done|].
  rewrite bind_cons, filter_app, length_app, filter_cons, IH, HR.
  - case_decide; cbn [length]; lia.
  - left.
  - intros r' Hr'. apply HR. by right.
Qed.

Lemma filter_length_zero {A : Type} (P : A -> Prop) `{!forall x, Decision (P x)}
    (l : list A) :
  (forall x, x ∈ l -> ~ P x) -> length (filter P l) = 0%nat.
Proof.
  induction l as [|x l IH]; intros Hl; [done|].
  rewrite filter_cons_False by (apply Hl; left).
  apply IH. intros y Hy. apply Hl. by right.
Qed.

(** The nested loops, over the concatenation of the hash lists. *)
Lemma addPairs_spec h body R g k :
  Grid.hash (Grid._addPairs h body (Some R) g) = Grid.hash g /\
  (pairs_ok (Grid.pairs g) -> pairs_ok (Grid.pairs (Grid._addPairs h body (Some R) g))) /\
  pair_count (Grid._addPairs h body (Some R) g) k
  = pair_count g k
    + Z.of_nat (length (filter (addHit h body k)
                          (R ≫= fun r => default [] (Grid.hash g !! r)))).
Proof.
  unfold Grid._addPairs. cbn [Grid.regions_or].
  revert g. induction R as [|r R IH]; intros g; cbn [foldl].
  - split_and!; [done|done|cbn; lia].
  - destruct (foldl_addPair h body (Grid.hash_at g r) g k) as (F1 & F2 & F3).
    destruct (IH (foldl (Grid.addPair h body) g (Grid.hash_at g r))) as (IH1 & IH2 & IH3).
    rewrite IH1, IH3, F1, F3, bind_cons, filter_app, length_app.
    split_and!; [done|by intros ?; apply IH2, F2|].
    unfold Grid.hash_at. lia.
Qed.

Lemma removePairs_spec h body R g k :
  pairs_ok (Grid.pairs g) ->
  Grid.hash (Grid._removePairs h body (Some R) g) = Grid.hash g /\
  pairs_ok (Grid.pairs (Grid._removePairs h body (Some R) g)) /\
  pair_count (Grid._removePairs h body (Some R) g) k
  = Z.max 0 (pair_count g k
             - Z.of_nat (length (filter (remHit h body k)
                                   (R ≫= fun r => default [] (Grid.hash g !! r))))).
Proof.
  unfold Grid._removePairs. cbn [Grid.regions_or].
  revert g. induction R as [|r R IH]; intros g Hok; cbn [foldl].
  - split_and!; [done|done|]. pose proof (pair_count_nonneg g k Hok). cbn. lia.
  - destruct (foldl_removePair h body (Grid.hash_at g r) g k Hok) as (F1 & F2 & F3).
    destruct (IH (foldl (Grid.removePair h body) g (Grid.hash_at g r)) F2)
      as (IH1 & IH2 & IH3).
    rewrite IH1, IH3, F1, F3, bind_cons, filter_app, length_app.
    split_and!; [done|done|].
    pose proof (pair_count_nonneg g k Hok).
    unfold Grid.hash_at. lia.
Qed.

(** * The hash lists *)

Lemma hash_at_push r B g r' :
  Grid.hash_at (Grid.hash_push r B g) r'
  = if decide (r' = r) then Grid.hash_at g r ++ [B] else Grid.hash_at g r'.
Proof.
  unfold Grid.hash_at, Grid.hash_push. cbn [Grid.hash].
  case_decide as Hr; [subst; by rewrite lookup_insert_eq|by rewrite lookup_insert_ne].
Qed.

Lemma hash_at_splice r B g r' :
  Grid.hash_at (Grid.hash_splice r B g) r'
  = if decide (r' = r) then splice_first B (Grid.hash_at g r) else Grid.hash_at g r'.
Proof.
  unfold Grid.hash_at, Grid.hash_splice. cbn [Grid.hash].
  case_decide as Hr; [subst|by rewrite lookup_alter_ne].
  rewrite lookup_alter_eq. by destruct (Grid.hash g !! r).
Qed.

Lemma foldl_hash_push B A g :
  NoDup A ->
  Grid.pairs (foldl (fun g r => Grid.hash_push r B g) g A) = Grid.pairs g /\
  forall r,
    Grid.hash_at (foldl (fun g r => Grid.hash_push r B g) g A) r
    = if decide (r ∈ A) then Grid.hash_at g r ++ [B] else Grid.hash_at g r.
Proof.
  intros HA. revert g. induction HA as [|a A Ha HA IH]; intros g; cbn [foldl].
  - split; [done|]. intros r. by rewrite decide_False by apply not_elem_of_nil.
  - destruct (IH (Grid.hash_push a B g)) as [IH1 IH2]. split; [by rewrite IH1|].
    intros r. rewrite IH2, !hash_at_push.
    destruct (decide (r = a)) as [->|Hne].
    + rewrite decide_False by done. by rewrite decide_True by left.
    + destruct (decide (r ∈ A)).
      * by rewrite decide_True by (by right).
      * rewrite decide_False; [done|]. by intros [?|?]%elem_of_cons.
Qed.

Lemma foldl_hash_splice B T g :
  NoDup T ->
  Grid.pairs (foldl (fun g r => Grid.hash_splice r B g) g T) = Grid.pairs g /\
  forall r,
    Grid.hash_at (foldl (fun g r => Grid.hash_splice r B g) g T) r
    = if decide (r ∈ T) then splice_first B (Grid.hash_at g r) else Grid.hash_at g r.
Proof.
  intros HT. revert g. induction HT as [|a T Ha HT IH]; intros g; cbn [foldl].
  - split; [done|]. intros r. by rewrite decide_False by apply not_elem_of_nil.
  - destruct (IH (Grid.hash_splice a B g)) as [IH1 IH2]. split; [by rewrite IH1|].
    intros r. rewrite IH2, !hash_at_splice.
    destruct (decide (r = a)) as [->|Hne].
    + rewrite decide_False by done. by rewrite decide_True by left.
    + destruct (decide (r ∈ T)).
      * by rewrite decide_True by (by right).
      * rewrite decide_False; [done|]. by intros [?|?]%elem_of_cons.
Qed.

Lemma elem_of_splice_first B l o :
  NoDup l -> o ∈ splice_first B l <-> o ∈ l /\ o ≠ B.
Proof.
  induction 1 as [|x l Hx Hl IH]; cbn.
  - split; [by intros ?%elem_of_nil|by intros [?%elem_of_nil _]].
  - case_decide as E.
    + subst x. rewrite elem_of_cons. split; [|naive_solver].
      intros Ho. split; [by right|]. by intros ->.
    + rewrite !elem_of_cons, IH. naive_solver.
Qed.

Lemma NoDup_splice_first B l : NoDup l -> NoDup (splice_first B l).
Proof.
  induction 1 as [|x l Hx Hl IH]; cbn; [constructor|].
  case_decide; [done|]. apply NoDup_cons. split; [|done].
  intros Hin. apply elem_of_splice_first in Hin; [|done]. tauto.
Qed.

(** * [canCollide] *)

Lemma canCollide_ident A A' B B' :
  ident A = ident A' -> ident B = ident B' -> canCollide A B = canCollide A' B'.
Proof.
  unfold ident, canCollide, is_bullet_of, ownerId_of, type.
  intros [= HA1 HA2 HA3] [= HB1 HB2 HB3].
  destruct (state A), (state A'), (state B), (state B'); cbn in *;
    try discriminate; try done;
    repeat match goal with H : Some _ = Some _ |- _ => injection H as H end;
    by rewrite ?HA1, ?HB1, ?HA3, ?HB3.
Qed.

Lemma canCollide_sym A B : canCollide A B = canCollide B A.
Proof.
  unfold canCollide, is_bullet_of, type.
  destruct (state A), (state B); cbn; try done; by repeat case_bool_decide.
Qed.

Lemma canCollide_ref_sym h a b : canCollide_ref h a b = canCollide_ref h b a.
Proof.
  unfold canCollide_ref. destruct (h !! a), (h !! b); try done. apply canCollide_sym.
Qed.

Lemma shared_sym rho a b :
  NoDup (rho a) -> NoDup (rho b) -> shared rho a b = shared rho b a.
Proof. intros Ha Hb. unfold shared. f_equal. by apply filter_elem_of_sym. Qed.

Lemma shared_nil_l rho a b : rho a = [] -> shared rho a b = 0.
Proof. unfold shared. by intros ->. Qed.

Lemma shared_nil_r rho a b : rho b = [] -> shared rho a b = 0.
Proof.
  unfold shared. intros ->. rewrite filter_length_zero; [done|].
  intros x _. apply not_elem_of_nil.
Qed.

Lemma shared_perm rho rho' a b :
  (forall o, rho' o ≡ₚ rho o) -> shared rho' a b = shared rho a b.
Proof.
  intros Hp. unfold shared. f_equal.
  rewrite (filter_length_perm _ _ _ (Hp a)).
  apply filter_length_ext. intros r _. by rewrite (Hp b).
Qed.

Lemma grid_inv_at_change h h' rho rho' g :
  grid_inv_at h rho g ->
  (forall i b, h' !! i = Some b -> id b = i) ->
  (forall o, rho' o ≡ₚ rho o) ->
  (forall o, rho o ≠ [] -> ident <$> h' !! o = ident <$> h !! o) ->
  grid_inv_at h' rho' g.
Proof.
  intros [Hids Hknown Hnd Hhash Hrnd Hok Hcount] Hids' Hperm Hident.
  assert (forall o, rho' o ≠ [] -> rho o ≠ []) as Hne.
  { intros o Ho Hnil. apply Ho. apply Permutation_nil_r. by rewrite <- Hnil, Hperm. }
  split; try done.
  - intros o Ho%Hne. pose proof (Hident o Ho) as Hi.
    destruct (Hknown o Ho) as [b Hb]. rewrite Hb in Hi.
    destruct (h' !! o); [done|discriminate].
  - intros o r. by rewrite Hhash, Hperm.
  - intros o. by rewrite Hperm.
  - intros a b Hab. rewrite Hcount, (shared_perm rho rho') by done.
    destruct (decide (rho a = [])) as [Ha|Ha];
      [rewrite shared_nil_l by done; by repeat case_match|].
    destruct (decide (rho b = [])) as [Hb|Hb];
      [rewrite shared_nil_r by done; by repeat case_match|].
    pose proof (Hident a Ha) as Hia. pose proof (Hident b Hb) as Hib.
    unfold canCollide_ref.
    destruct (h !! a) as [ba|], (h' !! a) as [ba'|]; cbn in Hia; try done;
      destruct (h !! b) as [bb|], (h' !! b) as [bb'|]; cbn in Hib; try done.
    injection Hia as Hia1 Hia2 Hia3. injection Hib as Hib1 Hib2 Hib3.
    by rewrite (canCollide_ident ba ba' bb bb') by (unfold ident; congruence).
Qed.

Lemma count_cases (h : Heap) (rho : Z -> list Region) (g : Grid.t) (B : Z) :
  (forall o, NoDup (rho o)) ->
  (forall a b, a ≠ b -> a ≠ B -> b ≠ B ->
     pair_count g (getPairId a b) = if canCollide_ref h a b then shared rho a b else 0) ->
  (forall b, b ≠ B ->
     pair_count g (getPairId B b) = if canCollide_ref h B b then shared rho B b else 0) ->
  forall a b, a ≠ b ->
    pair_count g (getPairId a b) = if canCollide_ref h a b then shared rho a b else 0.
Proof.
  intros Hnd H1 H2 a b Hab.
  destruct (decide (a = B)) as [->|Ha]; [by apply H2|].
  destruct (decide (b = B)) as [->|Hb]; [|by apply H1].
  rewrite getPairId_sym, canCollide_ref_sym, (shared_sym rho a B) by done.
  by apply H2.
Qed.

Lemma addHit_other h body a b o :
  a ≠ id body -> b ≠ id body -> ~ addHit h body (getPairId a b) o.
Proof.
  unfold addHit. destruct (h !! o) as [ob|]; [|tauto].
  intros Ha Hb (_ & _ & [[??]|[??]]%getPairId_inj); congruence.
Qed.

Lemma remHit_other h body a b o :
  a ≠ id body -> b ≠ id body -> ~ remHit h body (getPairId a b) o.
Proof.
  unfold remHit. destruct (h !! o) as [ob|]; [|tauto].
  intros Ha Hb [[??]|[??]]%getPairId_inj; congruence.
Qed.

Lemma addHit_iff h body B b o :
  (forall i x, h !! i = Some x -> id x = i) ->
  h !! B = Some body -> b ≠ B -> canCollide_ref h B b = true ->
  addHit h body (getPairId B b) o <-> o = b.
Proof.
  intros Hids HB Hb Hcc. pose proof (Hids _ _ HB) as Hid.
  unfold addHit, canCollide_ref in *. rewrite HB in Hcc. split.
  - destruct (h !! o) as [ob|] eqn:Ho; [|done].
    apply Hids in Ho. rewrite Hid, Ho.
    intros (_ & _ & [[??]|[??]]%getPairId_inj); congruence.
  - intros ->. destruct (h !! b) as [ob|] eqn:Ho; [|done].
    apply Hids in Ho. rewrite Hid, Ho. split_and!; congruence.
Qed.

Lemma addHit_never h body B b o :
  (forall i x, h !! i = Some x -> id x = i) ->
  h !! B = Some body -> b ≠ B -> canCollide_ref h B b = false ->
  ~ addHit h body (getPairId B b) o.
Proof.
  intros Hids HB Hb Hcc. pose proof (Hids _ _ HB) as Hid.
  unfold addHit, canCollide_ref in *. rewrite HB in Hcc.
  destruct (h !! o) as [ob|] eqn:Ho; [|tauto].
  pose proof (Hids _ _ Ho) as Hio. rewrite Hid, Hio.
  intros (_ & Hc & [[_ Hob]|[??]]%getPairId_inj); [|congruence].
  rewrite <- Hob, Ho in Hcc. congruence.
Qed.

Lemma remHit_iff h body B b o :
  (forall i x, h !! i = Some x -> id x = i) ->
  h !! B = Some body -> b ≠ B -> is_Some (h !! b) ->
  remHit h body (getPairId B b) o <-> o = b.
Proof.
  intros Hids HB Hb [ob' Hob]. pose proof (Hids _ _ HB) as Hid.
  unfold remHit. split.
  - destruct (h !! o) as [ob|] eqn:Ho; [|done].
    apply Hids in Ho. rewrite Hid, Ho.
    intros [[??]|[??]]%getPairId_inj; congruence.
  - intros ->. rewrite Hob. apply Hids in Hob. by rewrite Hid, Hob.
Qed.

Lemma grid_inv_add h rho g B body A :
  grid_inv_at h rho g -> h !! B = Some body -> NoDup A ->
  (forall r, r ∈ A -> r ∉ rho B) ->
  grid_inv_at h (rho_set rho B (rho B ++ A))
    (Grid._addPairs h body (Some A)
       (foldl (fun g r => Grid.hash_push r (id body) g) g A)).
Proof.
  intros [Hids Hknown Hnd Hhash Hrnd Hok Hcount] HB HA Hdisj.
  pose proof (Hids _ _ HB) as Hid. rewrite Hid.
  set (g1 := foldl (fun g r => Grid.hash_push r B g) g A).
  destruct (foldl_hash_push B A g HA) as [Hp1 Hh1]. fold g1 in Hp1, Hh1.
  assert (forall k,
    Grid.hash (Grid._addPairs h body (Some A) g1) = Grid.hash g1 /\
    pairs_ok (Grid.pairs (Grid._addPairs h body (Some A) g1)) /\
    pair_count (Grid._addPairs h body (Some A) g1) k
    = pair_count g k
      + Z.of_nat (length (filter (addHit h body k) (A ≫= Grid.hash_at g1)))) as Hspec.
  { intros k. destruct (addPairs_spec h body A g1 k) as (S1 & S2 & S3).
    split_and!; [done|apply S2; by rewrite Hp1|].
    rewrite S3. unfold pair_count. by rewrite Hp1. }
  assert (forall r, Grid.hash_at (Grid._addPairs h body (Some A) g1) r
                    = if decide (r ∈ A) then Grid.hash_at g r ++ [B]
                      else Grid.hash_at g r) as Hh2.
  { intros r. rewrite <- Hh1. unfold Grid.hash_at.
    by destruct (Hspec (0, 0)) as (-> & _). }
  split.
  - done.
  - intros o. unfold rho_set. case_decide; [by subst|by apply Hknown].
  - intros r. rewrite Hh2. case_decide as Hr; [|done].
    apply NoDup_app. split_and!; [done| |apply NoDup_singleton].
    intros o Ho ->%list_elem_of_singleton. apply Hhash in Ho. by apply (Hdisj r).
  - intros o r. rewrite Hh2. unfold rho_set.
    destruct (decide (o = B)) as [->|Ho].
    + rewrite elem_of_app. case_decide as Hr.
      * rewrite elem_of_app, list_elem_of_singleton. tauto.
      * rewrite Hhash. tauto.
    + case_decide as Hr; [|done].
      rewrite elem_of_app, list_elem_of_singleton, Hhash. tauto.
  - intros o. unfold rho_set. case_decide; [|done].
    apply NoDup_app. split_and!; [done| |done].
    intros r Hr1 Hr2. by apply (Hdisj r).
  - by destruct (Hspec (0, 0)) as (_ & ? & _).
  - assert (forall o, NoDup (rho_set rho B (rho B ++ A) o)) as Hrnd'.
    { intros o. unfold rho_set. case_decide; [|done].
      apply NoDup_app. split_and!; [done| |done].
      intros r Hr1 Hr2. by apply (Hdisj r). }
    apply (count_cases h _ _ B Hrnd').
    + intros a b Hab Ha Hb. destruct (Hspec (getPairId a b)) as (_ & _ & ->).
      rewrite filter_length_zero, Hcount by
        (done || intros; apply addHit_other; congruence).
      unfold shared, rho_set. rewrite !decide_False by done.
      replace (Z.of_nat 0) with 0 by done. rewrite Z.add_0_r.
      by destruct (canCollide_ref h a b).
    + intros b Hb. destruct (Hspec (getPairId B b)) as (_ & _ & ->).
      rewrite Hcount by done.
      destruct (canCollide_ref h B b) eqn:Hcc.
      * rewrite (hits_count _ (fun r => r ∈ rho b)).
        -- unfold shared, rho_set.
           rewrite (decide_True (P := B = B)), (decide_False (P := b = B)) by done.
           rewrite filter_app, length_app. lia.
        -- intros r Hr. rewrite Hh1, decide_True, filter_app, length_app by done.
           rewrite (filter_length_zero _ [B]).
           ++ rewrite (filter_length_ext _ (fun x => x = b)) by
                (intros; by apply (addHit_iff h body B b)).
              rewrite filter_eq_length by done.
              rewrite Nat.add_0_r.
              destruct (decide (b ∈ Grid.hash_at g r)) as [Hin|Hin];
                rewrite Hhash in Hin;
                [by rewrite decide_True|by rewrite decide_False].
           ++ intros o ->%list_elem_of_singleton.
              rewrite (addHit_iff h body B b) by done. congruence.
      * rewrite filter_length_zero; [lia|].
        intros o _. by apply (addHit_never h body B b).
Qed.

Lemma grid_inv_remove h rho g B body T :
  grid_inv_at h rho g -> h !! B = Some body -> NoDup T ->
  (forall r, r ∈ T -> r ∈ rho B) ->
  grid_inv_at h (rho_set rho B (filter (fun r => r ∉ T) (rho B)))
    (Grid._removePairs h body (Some T)
       (foldl (fun g r => Grid.hash_splice r (id body) g) g T)).
Proof.
  intros [Hids Hknown Hnd Hhash Hrnd Hok Hcount] HB HT Hsub.
  pose proof (Hids _ _ HB) as Hid. rewrite Hid.
  set (g1 := foldl (fun g r => Grid.hash_splice r B g) g T).
  destruct (foldl_hash_splice B T g HT) as [Hp1 Hh1]. fold g1 in Hp1, Hh1.
  assert (pairs_ok (Grid.pairs g1)) as Hok1 by (by rewrite Hp1).
  assert (forall k,
    Grid.hash (Grid._removePairs h body (Some T) g1) = Grid.hash g1 /\
    pairs_ok (Grid.pairs (Grid._removePairs h body (Some T) g1)) /\
    pair_count (Grid._removePairs h body (Some T) g1) k
    = Z.max 0 (pair_count g k
        - Z.of_nat (length (filter (remHit h body k) (T ≫= Grid.hash_at g1)))))
    as Hspec.
  { intros k. destruct (removePairs_spec h body T g1 k Hok1) as (S1 & S2 & S3).
    split_and!; [done|done|].
    rewrite S3. unfold pair_count. by rewrite Hp1. }
  assert (forall r, Grid.hash_at (Grid._removePairs h body (Some T) g1) r
                    = if decide (r ∈ T) then splice_first B (Grid.hash_at g r)
                      else Grid.hash_at g r) as Hh2.
  { intros r. rewrite <- Hh1. unfold Grid.hash_at.
    by destruct (Hspec (0, 0)) as (-> & _). }
  assert (forall o, NoDup (rho_set rho B (filter (fun r => r ∉ T) (rho B)) o)) as Hrnd'.
  { intros o. unfold rho_set. case_decide; [|done]. by apply NoDup_filter. }
  split.
  - done.
  - intros o. unfold rho_set. case_decide; [by subst|by apply Hknown].
  - intros r. rewrite Hh2. case_decide; [|done]. by apply NoDup_splice_first.
  - intros o r. rewrite Hh2. unfold rho_set.
    destruct (decide (o = B)) as [->|Ho].
    + rewrite list_elem_of_filter. case_decide as Hr.
      * rewrite elem_of_splice_first by done. tauto.
      * rewrite Hhash. tauto.
    + case_decide as Hr; [|done].
      rewrite elem_of_splice_first, Hhash by done. tauto.
  - done.
  - by destruct (Hspec (0, 0)) as (_ & ? & _).
  - apply (count_cases h _ _ B Hrnd').
    + intros a b Hab Ha Hb. destruct (Hspec (getPairId a b)) as (_ & _ & ->).
      rewrite filter_length_zero by (intros; apply remHit_other; congruence).
      pose proof (pair_count_nonneg g (getPairId a b) Hok).
      replace (Z.of_nat 0) with 0 by done. rewrite Z.sub_0_r, Z.max_r, Hcount by done.
      unfold shared, rho_set. by rewrite !decide_False by done.
    + intros b Hb. destruct (Hspec (getPairId B b)) as (_ & _ & ->).
      rewrite Hcount by done.
      destruct (canCollide_ref h B b) eqn:Hcc; [|lia].
      assert (is_Some (h !! b)) as Hsb.
      { unfold canCollide_ref in Hcc. rewrite HB in Hcc. by destruct (h !! b). }
      rewrite (hits_count _ (fun r => r ∈ rho b)).
      * unfold shared, rho_set.
        rewrite (decide_True (P := B = B)), (decide_False (P := b = B)) by done.
        rewrite (filter_length_split (fun r => r ∈ rho b) (fun r => r ∈ T) (rho B)).
        rewrite (filter_length_perm (fun r => r ∈ rho b)
                   (filter (fun r => r ∈ T) (rho B)) T); [lia|].
        apply NoDup_Permutation; [by apply NoDup_filter|done|].
        intros r. rewrite list_elem_of_filter. naive_solver.
      * intros r Hr. rewrite Hh1, decide_True by done.
        rewrite (filter_length_ext _ (fun x => x = b)) by
          (intros; by apply (remHit_iff h body B b)).
        rewrite filter_eq_length by (by apply NoDup_splice_first).
        destruct (decide (b ∈ splice_first B (Grid.hash_at g r))) as [Hin|Hin];
          rewrite elem_of_splice_first, Hhash in Hin by done;
          [rewrite decide_True by tauto|rewrite decide_False by tauto]; done.
Qed.

Lemma regs_insert h B b o :
  regs (<[B := b]> h) o = if decide (o = B) then default [] (regions b) else regs h o.
Proof.
  unfold regs. case_decide as Ho; [subst; by rewrite lookup_insert_eq|].
  by rewrite lookup_insert_ne.
Qed.

Lemma ids_insert (h : Heap) B b :
  (forall i x, h !! i = Some x -> id x = i) -> id b = B ->
  forall i x, <[B := b]> h !! i = Some x -> id x = i.
Proof.
  intros Hids Hb i x. destruct (decide (i = B)) as [->|Hne].
  - rewrite lookup_insert_eq. by intros [= <-].
  - rewrite lookup_insert_ne by done. apply Hids.
Qed.

(** Writing back a body whose identity has not changed, with the region
    lists given apart. *)
Lemma grid_inv_at_insert h rho rho' g B body body' :
  grid_inv_at h rho g -> h !! B = Some body -> ident body' = ident body ->
  (forall o, rho' o ≡ₚ rho o) ->
  grid_inv_at (<[B := body']> h) rho' g.
Proof.
  intros Hinv HB Hident Hperm.
  apply (grid_inv_at_change h _ rho rho' g Hinv); [|done|].
  - apply ids_insert; [apply Hinv|].
    injection Hident as -> _ _. by apply (inv_ids _ _ _ Hinv).
  - intros o _. destruct (decide (o = B)) as [->|Hne].
    + rewrite lookup_insert_eq, HB. cbn. by rewrite Hident.
    + by rewrite lookup_insert_ne.
Qed.

Lemma grid_inv_insert h g B body body' :
  grid_inv h g -> h !! B = Some body -> ident body' = ident body ->
  regions body' = regions body ->
  grid_inv (<[B := body']> h) g.
Proof.
  intros Hinv HB Hident Hregs.
  apply (grid_inv_at_insert h (regs h) _ g B body body'); try done.
  intros o. rewrite regs_insert. case_decide; [subst|done].
  unfold regs. by rewrite HB, Hregs.
Qed.

Lemma addPairs_None h body g R :
  regions body = Some R ->
  Grid._addPairs h body None g = Grid._addPairs h body (Some R) g.
Proof. intros HR. unfold Grid._addPairs, Grid.regions_or. by rewrite HR. Qed.

Lemma removePairs_None h body g R :
  regions body = Some R ->
  Grid._removePairs h body None g = Grid._removePairs h body (Some R) g.
Proof. intros HR. unfold Grid._removePairs, Grid.regions_or. by rewrite HR. Qed.

Lemma Grid_addBody_inv h g B body :
  grid_inv h g -> h !! B = Some body -> regions body = None ->
  grid_inv (Grid._addBody body (h, g)).1 (Grid._addBody body (h, g)).2.
Proof.
  intros Hinv HB Hreg. pose proof (inv_ids _ _ _ Hinv _ _ HB) as Hid.
  unfold Grid._addBody.
  set (R := getRegions (bounds body)).
  set (body' := if bool_decide (type (set_regions (Some R) body) ≠ STATIC)
                then set_regionsString (Some R) (set_regions (Some R) body)
                else set_regions (Some R) body).
  assert (id body' = B /\ ident body' = ident body /\ regions body' = Some R)
    as (Hid' & Hident' & Hreg').
  { unfold body'. by case_bool_decide. }
  cbn [fst snd]. rewrite Hid'.
  assert (grid_inv_at (<[B := body']> h) (regs h) g) as Hinv1.
  { by apply (grid_inv_at_insert h (regs h) _ g B body body'). }
  pose proof (grid_inv_add _ _ _ B body' R Hinv1 (lookup_insert_eq _ _ _)
                (NoDup_getRegions _)) as Hinv2.
  rewrite Hid' in Hinv2.
  assert (regs h B = []) as HregsB by (unfold regs; by rewrite HB, Hreg).
  unfold grid_inv. rewrite (addPairs_None _ _ _ R) by done.
  eapply grid_inv_at_change.
  - apply Hinv2. intros r _. rewrite HregsB. apply not_elem_of_nil.
  - apply Hinv1.
  - intros o. rewrite regs_insert. unfold rho_set.
    case_decide; [|done]. by rewrite Hreg', HregsB.
  - done.
Qed.

Lemma if_nonempty {A B : Type} (l : list A) (x y : B) :
  (l = [] -> x = y) -> (if bool_decide (l ≠ []) then x else y) = x.
Proof.
  intros Hl. case_bool_decide as H; [done|].
  symmetry. apply Hl. by destruct l.
Qed.

Lemma Grid_updateBody_inv h g B body old newRegions regionsString :
  grid_inv h g -> h !! B = Some body -> regions body = Some old ->
  NoDup newRegions ->
  grid_inv (Grid._updateBody body newRegions regionsString (h, g)).1
           (Grid._updateBody body newRegions regionsString (h, g)).2.
Proof.
  intros Hinv HB Hreg Hnew. pose proof (inv_ids _ _ _ Hinv _ _ HB) as Hid.
  subst B.
  assert (regs h (id body) = old) as HregsB by (unfold regs; by rewrite HB, Hreg).
  pose proof (inv_regs_nodup _ _ _ Hinv (id body)) as Hold. rewrite HregsB in Hold.
  unfold Grid._updateBody. rewrite Hreg.
  cbn [default from_option Datatypes.id fst snd id set_regions set_regionsString].
  set (T := filter (fun value => value ∉ newRegions) old).
  set (A := filter (fun value => value ∉ old) newRegions).
  rewrite !if_nonempty by (by intros ->).
  set (g1' := Grid._removePairs _ _ _ _).
  assert (grid_inv_at h (rho_set (regs h) (id body)
                           (filter (fun r => r ∉ T) (regs h (id body)))) g1')
    as Hinv1.
  { apply grid_inv_remove; [done|done|by apply NoDup_filter|].
    intros r [_ Hr]%list_elem_of_filter. by rewrite HregsB. }
  set (rho1 := rho_set _ _ _) in Hinv1.
  assert (rho1 (id body) = filter (fun r => r ∉ T) old) as Hrho1
    by (unfold rho1, rho_set; by rewrite decide_True, HregsB).
  pose proof (grid_inv_add h rho1 g1' (id body) body A Hinv1 HB) as Hinv2.
  eapply grid_inv_at_insert; [apply Hinv2| | |].
  - by apply NoDup_filter.
  - intros r [Hr _]%list_elem_of_filter. rewrite Hrho1.
    intros [_ Hr']%list_elem_of_filter. done.
  - exact HB.
  - done.
  - intros o. rewrite regs_insert. unfold rho_set at 1. cbn [regions].
    case_decide as Ho; [|unfold rho1, rho_set; by rewrite !decide_False by done].
    cbn [default from_option Datatypes.id]. rewrite Hrho1.
    apply NoDup_Permutation; [done| |].
    + apply NoDup_app. split_and!; [by apply NoDup_filter| |by apply NoDup_filter].
      intros r [_ Hr]%list_elem_of_filter [Hr' _]%list_elem_of_filter. done.
    + intros r. unfold T, A.
      rewrite elem_of_app, !list_elem_of_filter.
      destruct (decide (r ∈ old)), (decide (r ∈ newRegions)); naive_solver.
Qed.

Lemma Grid_removeBody_inv h g b :
  grid_inv h g ->
  grid_inv (Grid.removeBody b (h, g)).1 (Grid.removeBody b (h, g)).2.
Proof.
  intros Hinv. unfold Grid.removeBody.
  destruct (h !! b) as [body|] eqn:HB; [|done].
  destruct (regions body) as [rs|] eqn:Hreg; [|done].
  pose proof (inv_ids _ _ _ Hinv _ _ HB) as Hid.
  assert (regs h b = rs) as HregsB by (unfold regs; by rewrite HB, Hreg).
  pose proof (inv_regs_nodup _ _ _ Hinv b) as Hrs. rewrite HregsB in Hrs.
  cbn [fst snd id set_regions set_regionsString].
  rewrite (removePairs_None _ _ _ rs) by done. rewrite Hid.
  pose proof (grid_inv_remove h (regs h) g b body rs Hinv HB Hrs) as Hinv1.
  rewrite Hid in Hinv1.
  eapply grid_inv_at_insert; [apply Hinv1; by rewrite HregsB|exact HB|done|].
  intros o. rewrite regs_insert. unfold rho_set. cbn [regions default].
  case_decide; [|done]. rewrite HregsB.
  apply NoDup_Permutation; [constructor|by apply NoDup_filter|].
  intros r. rewrite list_elem_of_filter. split; [by intros ?%elem_of_nil|tauto].
Qed.

Lemma Grid_update_body_inv st i :
  grid_inv st.1 st.2 ->
  grid_inv (Grid.update_body st i).1 (Grid.update_body st i).2.
Proof.
  destruct st as [h g]. cbn [fst snd]. intros Hinv. unfold Grid.update_body.
  cbn [fst snd]. destruct (h !! i) as [body|] eqn:HB; [|done].
  pose proof (inv_ids _ _ _ Hinv _ _ HB) as Hid.
  destruct (regions body) as [old|] eqn:Hreg; [|by apply (Grid_addBody_inv h g i)].
  case_bool_decide as Hst; [done|].
  destruct (isUpdated body) eqn:Hup; [|done].
  set (body' := if bool_decide (type body ≠ BULLET) then set_isUpdated false body
                else body).
  assert (id body' = i /\ ident body' = ident body /\ regions body' = Some old)
    as (Hid' & Hident' & Hreg').
  { unfold body'. by case_bool_decide. }
  rewrite Hid'.
  assert (grid_inv (<[i := body']> h) g) as Hinv1.
  { apply (grid_inv_insert h g i body body'); congruence. }
  case_bool_decide; [|done].
  apply (Grid_updateBody_inv _ _ i _ old); try done.
  - apply lookup_insert_eq.
  - apply NoDup_getRegions.
Qed.

Lemma Grid_update_inv bodies st :
  grid_inv st.1 st.2 ->
  grid_inv (Grid.update bodies st).1 (Grid.update bodies st).2.
Proof.
  unfold Grid.update. revert st.
  induction bodies as [|i bodies IH]; intros st Hinv; [done|].
  cbn [foldl]. by apply IH, Grid_update_body_inv.
Qed.

Lemma grid_inv_evolves h h' g :
  grid_inv h g -> heap_evolves h h' -> grid_inv h' g.
Proof.
  intros Hinv Hev. unfold grid_inv.
  apply (grid_inv_at_change h h' (regs h) (regs h') g Hinv).
  - intros i b Hb. specialize (Hev i). rewrite Hb in Hev.
    destruct (h !! i) as [b0|] eqn:Hb0.
    + destruct Hev as [[= -> _ _] _]. by apply (inv_ids _ _ _ Hinv).
    + by destruct Hev.
  - intros o. specialize (Hev o). unfold regs.
    destruct (h !! o), (h' !! o); try done.
    + destruct Hev as [_ ->]. done.
    + destruct Hev as [_ ->]. done.
  - intros o Ho. specialize (Hev o). unfold regs in Ho.
    destruct (h !! o), (h' !! o); try done. cbn. by destruct Hev as [-> _].
Qed.

Lemma grid_inv_init : grid_inv ∅ Grid.constructor.
Proof.
  split.
  - by intros i b ?%lookup_empty_Some.
  - intros o. unfold regs. by rewrite lookup_empty.
  - intros r. unfold Grid.hash_at. cbn. rewrite lookup_empty. constructor.
  - intros o r. unfold Grid.hash_at, regs. cbn. rewrite !lookup_empty. cbn.
    split; intros H; by apply elem_of_nil in H.
  - intros o. unfold regs. rewrite lookup_empty. constructor.
  - split; [constructor|]. by intros p ?%elem_of_nil.
  - intros a b _. unfold canCollide_ref. by rewrite lookup_empty.
Qed.

Lemma coresidence_shared h g a b :
  grid_inv h g -> Z.of_nat (coresidence g a b) = shared (regs h) a b.
Proof.
  intros Hinv. unfold coresidence, shared. f_equal.
  rewrite <- size_dom.
  rewrite <- (size_list_to_set (C := gset Region))
    by (apply NoDup_filter, (inv_regs_nodup _ _ _ Hinv)).
  f_equal. apply set_eq. intros r.
  rewrite elem_of_dom, elem_of_list_to_set, list_elem_of_filter.
  rewrite <- !(inv_hash _ _ _ Hinv). unfold Grid.hash_at. split.
  - intros [l [Hl [Ha Hb]]%map_lookup_filter_Some]. by rewrite Hl.
  - intros [Hb Ha]. destruct (Grid.hash g !! r) as [l|] eqn:Hl;
      [|by apply elem_of_nil in Ha].
    exists l. by apply map_lookup_filter_Some.
Qed.

Lemma grid_inv_pair_count h g p :
  grid_inv h g -> p ∈ Grid.pairs g ->
  count p = Z.of_nat (coresidence g (bodyA p) (bodyB p)).
Proof.
  intros Hinv Hp. destruct (inv_pairs_ok _ _ _ Hinv) as [Hnd Hok].
  destruct (Hok p Hp) as (H1 & Hk & Hne).
  pose proof (inv_count _ _ _ Hinv _ _ Hne) as Hc.
  unfold pair_count in Hc. rewrite <- Hk, (pairs_lookup_elem_of _ _ Hnd Hp) in Hc.
  rewrite (coresidence_shared h) by done.
  destruct (canCollide_ref h (bodyA p) (bodyB p)); lia.
Qed.

(** * Heaps related body by body *)

Lemma heap_rel_refl R h : (forall b, R b b) -> heap_rel R h h.
Proof. intros HR i. by destruct (h !! i). Qed.

Lemma heap_rel_trans R h1 h2 h3 :
  (forall a b c, R a b -> R b c -> R a c) ->
  heap_rel R h1 h2 -> heap_rel R h2 h3 -> heap_rel R h1 h3.
Proof.
  intros HR H12 H23 i. specialize (H12 i). specialize (H23 i).
  destruct (h1 !! i), (h2 !! i), (h3 !! i); try done. by eapply HR.
Qed.

Lemma heap_rel_insert R (h : Heap) i b b' :
  (forall b, R b b) -> h !! i = Some b -> R b b' -> heap_rel R h (<[i := b']> h).
Proof.
  intros HR Hb Hbb j. destruct (decide (j = i)) as [->|Hne].
  - by rewrite lookup_insert_eq, Hb.
  - rewrite lookup_insert_ne by done. by destruct (h !! j).
Qed.

Lemma heap_rel_foldl {A : Type} R (f : Heap -> A -> Heap) (l : list A) h :
  (forall b, R b b) -> (forall a b c, R a b -> R b c -> R a c) ->
  (forall h x, heap_rel R h (f h x)) -> heap_rel R h (foldl f h l).
Proof.
  intros Hr Ht Hf. revert h. induction l as [|x l IH]; intros h; cbn.
  - by apply heap_rel_refl.
  - eapply heap_rel_trans; [done|apply Hf|apply IH].
Qed.

Lemma heap_rel_mono (R R' : Body -> Body -> Prop) h h' :
  (forall b b', R b b' -> R' b b') -> heap_rel R h h' -> heap_rel R' h h'.
Proof.
  intros HR Hh i. specialize (Hh i). destruct (h !! i), (h' !! i); try done.
  by apply HR.
Qed.

Lemma body_frame_refl b : body_frame b b.
Proof. by split_and!. Qed.

Lemma body_frame_trans a b c : body_frame a b -> body_frame b c -> body_frame a c.
Proof. intros (?&?&?) (?&?&?). split_and!; [congruence|congruence|tauto]. Qed.

Lemma body_grid_refl b : body_grid b b.
Proof. by split. Qed.

Lemma body_grid_trans a b c : body_grid a b -> body_grid b c -> body_grid a c.
Proof. intros [??] [??]. split; congruence. Qed.

Lemma heap_rel_frame_evolves h h' : heap_rel body_frame h h' -> heap_evolves h h'.
Proof.
  intros Hh i. specialize (Hh i). destruct (h !! i), (h' !! i); try done.
  by destruct Hh as (?&?&?).
Qed.

Lemma heap_rel_is_Some R (h h' : Heap) i :
  heap_rel R h h' -> is_Some (h' !! i) <-> is_Some (h !! i).
Proof.
  intros Hh. specialize (Hh i).
  destruct (h !! i), (h' !! i); try done; split; intros [? ?]; done.
Qed.

Lemma heap_rel_fixes R (h h' : Heap) :
  (forall b b', R b b' -> fixes_within_limit b -> fixes_within_limit b') ->
  heap_rel R h h' ->
  (forall i b, h !! i = Some b -> fixes_within_limit b) ->
  forall i b, h' !! i = Some b -> fixes_within_limit b.
Proof.
  intros HR Hh Hfix i b' Hb'. specialize (Hh i). rewrite Hb' in Hh.
  destruct (h !! i) as [b|] eqn:Hb; [|done]. eapply HR; [done|]. by eapply Hfix.
Qed.

(** * The methods of the bodies *)

Lemma fixes_set_state_other b s :
  (forall t, s ≠ IsBounce t) -> fixes_within_limit (set_state s b).
Proof. intros Hs. unfold fixes_within_limit. cbn. destruct s; try done. by destruct (Hs s). Qed.

Lemma BodyBullet_update_frame `{MathOps} delta b s q :
  state b = IsBullet s -> body_frame b (BodyBullet.update delta b s q).1.
Proof.
  intros Hs. unfold BodyBullet.update.
  destruct (Bullet.longOfLife s); [case_match|]; cbn;
    (split_and!; [unfold ident, type, ownerId_of; cbn; by rewrite Hs|done|done]).
Qed.

Lemma BodyBounce_updateCollision_fixes correction b s :
  state b = IsBounce s -> fixes_within_limit b ->
  fixes_within_limit (BodyBounce.updateCollision correction b s).
Proof.
  unfold fixes_within_limit. intros -> [Hx Hy].
  unfold BodyBounce.updateCollision, BOUNCE_FIXES_LIMIT.X, BOUNCE_FIXES_LIMIT.Y in *.
  destruct s as [f gr rs md [cx cy] nb]. cbn in *.
  repeat (case_match; cbn in *); simplify_eq; lia.
Qed.

Lemma body_frame_player b b' s s' :
  state b = IsPlayer s -> state b' = IsPlayer s' -> id b' = id b ->
  regions b' = regions b -> body_frame b b'.
Proof.
  intros Hs Hs' Hid Hr. unfold body_frame, ident, type, ownerId_of, fixes_within_limit.
  by rewrite Hs, Hs', Hid, Hr.
Qed.

Lemma body_frame_bounce b b' s s' :
  state b = IsBounce s -> state b' = IsBounce s' -> id b' = id b ->
  regions b' = regions b ->
  Bounce.countCollisionsFix s' = Bounce.countCollisionsFix s -> body_frame b b'.
Proof.
  intros Hs Hs' Hid Hr Hc. unfold body_frame, ident, type, ownerId_of, fixes_within_limit.
  by rewrite Hs, Hs', Hid, Hr, Hc.
Qed.

Lemma BodyBounce_update_frame delta b s :
  state b = IsBounce s -> body_frame b (BodyBounce.update delta b s).
Proof.
  intros Hs. unfold BodyBounce.update.
  repeat (case_match; simplify_eq); cbn;
    (eapply body_frame_bounce; [done|reflexivity|..]);
    repeat case_match; done.
Qed.

Lemma BodyBounce_updateCollision_frame correction b s :
  state b = IsBounce s -> body_frame b (BodyBounce.updateCollision correction b s).
Proof.
  intros Hs. split_and!.
  - unfold ident, type, ownerId_of, BodyBounce.updateCollision. cbn. by rewrite Hs.
  - done.
  - by apply BodyBounce_updateCollision_fixes.
Qed.

Lemma BodyBounce_setPosition_frame p b s :
  state b = IsBounce s -> body_frame b (BodyBounce.setPosition p b).
Proof. intros Hs. by eapply body_frame_bounce. Qed.

Lemma BodyPlayer_update_frame delta b s :
  state b = IsPlayer s -> body_frame b (BodyPlayer.update delta b s).
Proof.
  intros Hs. unfold BodyPlayer.update, BodyPlayer.update_finish,
    BodyPlayer.update_fall, BodyPlayer.update_jump, BodyPlayer.update_move.
  repeat (case_match; simplify_eq); cbn in *;
    (eapply body_frame_player; [done|reflexivity|..]); simplify_eq; done.
Qed.

Lemma BodyPlayer_updateCollision_frame correction b s :
  state b = IsPlayer s -> body_frame b (BodyPlayer.updateCollision correction b s).
Proof. intros Hs. by eapply body_frame_player. Qed.

Lemma BodyPlayer_setPosition_frame p b s :
  state b = IsPlayer s -> body_frame b (BodyPlayer.setPosition p b).
Proof. intros Hs. by eapply body_frame_player. Qed.

Lemma BodyPlayer_move_frame dir b s :
  state b = IsPlayer s -> body_frame b (BodyPlayer.move dir b s).
Proof. intros Hs. by eapply body_frame_player. Qed.

Lemma BodyPlayer_stop_frame b s :
  state b = IsPlayer s -> body_frame b (BodyPlayer.stop b s).
Proof. intros Hs. by eapply body_frame_player. Qed.

Lemma BodyPlayer_jump_frame b s :
  state b = IsPlayer s -> body_frame b (BodyPlayer.jump b s).
Proof.
  intros Hs. unfold BodyPlayer.jump. case_match; [apply body_frame_refl|].
  by eapply body_frame_player.
Qed.

Lemma Body_update_frame `{MathOps} delta b q :
  body_frame b (Body_update delta b q).1.
Proof.
  unfold Body_update. destruct (state b) eqn:Hs; cbn [fst].
  - apply body_frame_refl.
  - by apply BodyPlayer_update_frame.
  - by apply BodyBounce_update_frame.
  - by apply BodyBullet_update_frame.
Qed.

Lemma Body_updateCollision_frame correction b :
  body_frame b (Body_updateCollision correction b).
Proof.
  unfold Body_updateCollision. destruct (state b) eqn:Hs.
  - apply body_frame_refl.
  - by apply BodyPlayer_updateCollision_frame.
  - by apply BodyBounce_updateCollision_frame.
  - apply body_frame_refl.
Qed.

Lemma Body_setPosition_frame p b : body_frame b (Body_setPosition p b).
Proof.
  unfold Body_setPosition. destruct (state b) eqn:Hs.
  - apply body_frame_refl.
  - by eapply BodyPlayer_setPosition_frame.
  - by eapply BodyBounce_setPosition_frame.
  - apply body_frame_refl.
Qed.

(** * The stages *)

Lemma updatePosition_frame `{MathOps} delta worldBounds st i :
  heap_rel body_frame (st_heap st) (st_heap (updatePosition delta worldBounds st i)).
Proof.
  unfold updatePosition.
  destruct (st_heap st !! i) as [body|] eqn:Hb;
    [|by apply heap_rel_refl, body_frame_refl].
  repeat case_match; try (by apply heap_rel_refl, body_frame_refl); cbn [st_heap];
    (eapply heap_rel_insert; [apply body_frame_refl|done|]);
    match goal with
    | E : Body_update ?d ?b ?q = (_, _) |- _ =>
        pose proof (Body_update_frame d b q) as HF; by rewrite E in HF
    end.
Qed.

Lemma updatePositions_frame `{MathOps} delta bodies worldBounds st :
  heap_rel body_frame (st_heap st) (st_heap (updatePositions delta bodies worldBounds st)).
Proof.
  unfold updatePositions. revert st.
  induction bodies as [|i bodies IH]; intros st; cbn [foldl].
  - by apply heap_rel_refl, body_frame_refl.
  - eapply heap_rel_trans; [apply body_frame_trans|apply updatePosition_frame|apply IH].
Qed.

Lemma correctionPosition_frame h collision :
  heap_rel body_frame h (correctionPosition h collision).
Proof.
  unfold correctionPosition.
  destruct (h !! collision_bodyA collision) as [bodyA|] eqn:Ha;
    [|by apply heap_rel_refl, body_frame_refl].
  destruct (h !! collision_bodyB collision) as [bodyB|] eqn:Hb;
    [|by apply heap_rel_refl, body_frame_refl].
  destruct (bool_decide (type bodyA = PLAYER) || bool_decide (type bodyA = BOUNCE));
    repeat (match goal with |- context [let '(_, _) := ?x in _] => destruct x end);
    (eapply heap_rel_insert; [apply body_frame_refl|done|]);
    (eapply body_frame_trans; [apply Body_updateCollision_frame|apply Body_setPosition_frame]).
Qed.

Lemma correctionPositions_frame collisions h :
  heap_rel body_frame h (correctionPositions collisions h).
Proof.
  apply heap_rel_foldl;
    [apply body_frame_refl|apply body_frame_trans|apply correctionPosition_frame].
Qed.

Lemma afterUpdate_frame bodies h : heap_rel body_frame h (afterUpdate bodies h).
Proof.
  apply heap_rel_foldl; [apply body_frame_refl|apply body_frame_trans|].
  clear. intros h i. unfold afterUpdate_body.
  destruct (h !! i) as [body|] eqn:Hb; [|by apply heap_rel_refl, body_frame_refl].
  destruct (state body) eqn:Hs; try (by apply heap_rel_refl, body_frame_refl).
  case_match; [|by apply heap_rel_refl, body_frame_refl].
  eapply heap_rel_insert; [apply body_frame_refl|done|].
  by eapply body_frame_player.
Qed.

Lemma body_grid_fixes b b' :
  body_grid b b' -> fixes_within_limit b -> fixes_within_limit b'.
Proof. intros [_ Hs]. unfold fixes_within_limit. by rewrite Hs. Qed.

Lemma body_frame_fixes b b' :
  body_frame b b' -> fixes_within_limit b -> fixes_within_limit b'.
Proof. by intros (_ & _ & ?). Qed.

Lemma Grid_removeBody_grid h g b :
  grid_inv h g -> heap_rel body_grid h (Grid.removeBody b (h, g)).1.
Proof.
  intros Hinv. unfold Grid.removeBody.
  destruct (h !! b) as [body|] eqn:HB; [|by apply heap_rel_refl, body_grid_refl].
  destruct (regions body) as [rs|] eqn:Hreg; [|by apply heap_rel_refl, body_grid_refl].
  cbn [fst id set_regions set_regionsString].
  rewrite (inv_ids _ _ _ Hinv _ _ HB).
  by eapply heap_rel_insert; [apply body_grid_refl|done|].
Qed.

Lemma Grid_update_body_grid st i :
  grid_inv st.1 st.2 -> heap_rel body_grid st.1 (Grid.update_body st i).1.
Proof.
  destruct st as [h g]. cbn [fst snd]. intros Hinv. unfold Grid.update_body.
  cbn [fst snd]. destruct (h !! i) as [body|] eqn:HB;
    [|by apply heap_rel_refl, body_grid_refl].
  pose proof (inv_ids _ _ _ Hinv _ _ HB) as Hid.
  destruct (regions body) as [old|] eqn:Hreg.
  - case_bool_decide as Hst; [by apply heap_rel_refl, body_grid_refl|].
    destruct (isUpdated body) eqn:Hup; [|by apply heap_rel_refl, body_grid_refl].
    set (body' := if bool_decide (type body ≠ BULLET) then set_isUpdated false body
                  else body).
    assert (id body' = i /\ body_grid body body') as (Hid' & Hg').
    { unfold body'. by case_bool_decide. }
    rewrite Hid'. case_bool_decide.
    + unfold Grid._updateBody. cbn [fst id set_regions set_regionsString]. rewrite Hid'.
      eapply heap_rel_trans; [apply body_grid_trans| |].
      * by eapply heap_rel_insert; [apply body_grid_refl|done|].
      * eapply heap_rel_insert; [apply body_grid_refl|apply lookup_insert_eq|done].
    + by eapply heap_rel_insert; [apply body_grid_refl|done|].
  - unfold Grid._addBody. cbn [fst].
    set (body' := if bool_decide _ then _ else _).
    assert (id body' = i /\ body_grid body body') as (Hid' & Hg').
    { unfold body'. by case_bool_decide. }
    rewrite Hid'. by eapply heap_rel_insert; [apply body_grid_refl|done|].
Qed.

Lemma Grid_update_grid bodies st :
  grid_inv st.1 st.2 ->
  grid_inv (Grid.update bodies st).1 (Grid.update bodies st).2 /\
  heap_rel body_grid st.1 (Grid.update bodies st).1.
Proof.
  unfold Grid.update. revert st.
  induction bodies as [|i bodies IH]; intros st Hinv; cbn [foldl].
  - split; [done|by apply heap_rel_refl, body_grid_refl].
  - destruct (IH (Grid.update_body st i)) as [IH1 IH2];
      [by apply Grid_update_body_inv|].
    split; [done|].
    eapply heap_rel_trans; [apply body_grid_trans| |exact IH2].
    by apply Grid_update_body_grid.
Qed.

Lemma removeBodies_grid bodiesToRemove bodies st :
  grid_inv st.1 st.2 ->
  grid_inv (removeBodies bodies bodiesToRemove st).1.1
           (removeBodies bodies bodiesToRemove st).1.2 /\
  heap_rel body_grid st.1 (removeBodies bodies bodiesToRemove st).1.1.
Proof.
  unfold removeBodies. revert bodies st.
  induction bodiesToRemove as [|b l IH]; intros bodies st Hinv; cbn [foldl].
  - split; [done|by apply heap_rel_refl, body_grid_refl].
  - destruct st as [h g].
    destruct (IH (splice_first b bodies) (Grid.removeBody b (h, g))) as [IH1 IH2];
      [by apply Grid_removeBody_inv|].
    split; [done|].
    eapply heap_rel_trans; [apply body_grid_trans| |exact IH2].
    by apply Grid_removeBody_grid.
Qed.

(** * A sub-step keeps the invariant of the world *)

Lemma world_inv_heap_frame (w : World.t) h' :
  world_inv w -> heap_rel body_frame (World.heap w) h' -> world_inv (with_heap h' w).
Proof.
  intros [Hg Hf Hx] Hrel. split; cbn.
  - by eapply grid_inv_evolves, heap_rel_frame_evolves.
  - intros i Hi. apply Hf. by apply (heap_rel_is_Some _ _ _ i Hrel) in Hi.
  - by eapply heap_rel_fixes; [apply body_frame_fixes|..].
Qed.

Lemma World_update_inv `{MathOps} delta w :
  world_inv w -> world_inv (World._update delta w).1.
Proof.
  intros [Hg Hf Hx]. unfold World._update.
  set (st1 := updatePositions _ _ _ _).
  pose proof (updatePositions_frame delta (World.bodies w) (World.bounds w)
                (mkStage (World.heap w) (World.bodiesToRemove w) [])) as F1.
  fold st1 in F1. cbn [st_heap] in F1.
  assert (grid_inv (st_heap st1) (World.broadphase w)) as G1
    by (by eapply grid_inv_evolves, heap_rel_frame_evolves).
  destruct (removeBodies_grid (st_bodiesToRemove st1) (World.bodies w)
              (st_heap st1, World.broadphase w) G1) as [G2 F2].
  destruct (removeBodies _ _ _) as [[h2 g2] bodies2]. cbn [fst snd] in G2, F2.
  destruct (Grid_update_grid bodies2 (h2, g2) G2) as [G3 F3].
  destruct (Grid.update bodies2 (h2, g2)) as [h3 g3]. cbn [fst snd] in G3, F3.
  destruct (detectCollisions _ _ _ _) as [[btr collisions] sensors].
  pose proof (correctionPositions_frame collisions h3) as F4.
  pose proof (afterUpdate_frame bodies2 (correctionPositions collisions h3)) as F5.
  cbn [fst].
  assert (heap_rel body_frame h3 (afterUpdate bodies2 (correctionPositions collisions h3)))
    as F45 by (eapply heap_rel_trans; [apply body_frame_trans|done|done]).
  split; cbn.
  - by eapply grid_inv_evolves, heap_rel_frame_evolves.
  - intros i Hi. apply Hf.
    apply (heap_rel_is_Some _ _ _ i F45) in Hi.
    apply (heap_rel_is_Some _ _ _ i F3) in Hi.
    apply (heap_rel_is_Some _ _ _ i F2) in Hi.
    by apply (heap_rel_is_Some _ _ _ i F1) in Hi.
  - eapply heap_rel_fixes; [apply body_frame_fixes|exact F45|].
    eapply heap_rel_fixes; [apply body_grid_fixes|exact F3|].
    eapply heap_rel_fixes; [apply body_grid_fixes|exact F2|].
    by eapply heap_rel_fixes; [apply body_frame_fixes|exact F1|].
Qed.

Lemma World_update_loop_inv `{MathOps} n delta w sensors :
  world_inv w -> world_inv (World.update_loop n delta w sensors).1.
Proof.
  revert delta w sensors. induction n as [|n IH]; intros delta w sensors Hw; [done|].
  cbn [World.update_loop].
  destruct (Num.ltb delta World.maxDelta);
    match goal with
    | |- context [World._update ?d w] =>
        pose proof (World_update_inv d w Hw) as Hw';
        destruct (World._update d w) as [w' s]
    end; by apply IH.
Qed.

Lemma push_body_inv (w : World.t) body nid :
  world_inv w -> id body = World.nextId w -> regions body = None ->
  fixes_within_limit body -> nid = World.nextId w + 1 ->
  world_inv (World.push_body w (body, nid)).1.
Proof.
  intros [Hg Hf Hx] Hid Hreg Hfix ->. unfold World.push_body. cbn [fst].
  assert (World.heap w !! id body = None) as Hnone.
  { destruct (World.heap w !! id body) eqn:E; [|done].
    assert (id body < World.nextId w) by (apply Hf; eauto). lia. }
  split; cbn.
  - eapply grid_inv_evolves; [done|]. intros i.
    destruct (decide (i = id body)) as [->|Hne].
    + by rewrite lookup_insert_eq, Hnone.
    + rewrite lookup_insert_ne by done. by destruct (World.heap w !! i).
  - intros i. destruct (decide (i = id body)) as [->|Hne]; [lia|].
    rewrite lookup_insert_ne by done. intros Hi%Hf. lia.
  - intros i b. destruct (decide (i = id body)) as [->|Hne].
    + rewrite lookup_insert_eq. by intros [= <-].
    + rewrite lookup_insert_ne by done. apply Hx.
Qed.

Lemma on_player_inv (f : Body -> Player.t -> Body) body w w' :
  (forall b s, state b = IsPlayer s -> body_frame b (f b s)) ->
  on_player f body w = Some w' -> world_inv w -> world_inv w'.
Proof.
  intros Hf. unfold on_player.
  destruct (World.heap w !! body) as [b|] eqn:Hb; [|done].
  destruct (state b) eqn:Hs; try done. intros [= <-] Hw.
  apply world_inv_heap_frame; [done|].
  eapply heap_rel_insert; [apply body_frame_refl|done|by apply Hf].
Qed.

Lemma on_bounce_inv (f : Body -> Bounce.t -> Body) body w w' :
  (forall b s, state b = IsBounce s -> body_frame b (f b s)) ->
  on_bounce f body w = Some w' -> world_inv w -> world_inv w'.
Proof.
  intros Hf. unfold on_bounce.
  destruct (World.heap w !! body) as [b|] eqn:Hb; [|done].
  destruct (state b) eqn:Hs; try done. intros [= <-] Hw.
  apply world_inv_heap_frame; [done|].
  eapply heap_rel_insert; [apply body_frame_refl|done|by apply Hf].
Qed.

Lemma BodyBullet_constructor_fresh o n :
  id (BodyBullet.constructor o n).1 = n /\
  regions (BodyBullet.constructor o n).1 = None /\
  fixes_within_limit (BodyBullet.constructor o n).1 /\
  (BodyBullet.constructor o n).2 = n + 1.
Proof. done. Qed.

Lemma BodyBounce_constructor_fresh o n :
  id (BodyBounce.constructor o n).1 = n /\
  regions (BodyBounce.constructor o n).1 = None /\
  fixes_within_limit (BodyBounce.constructor o n).1 /\
  (BodyBounce.constructor o n).2 = n + 1.
Proof. done. Qed.

Lemma BodyPlayer_constructor_fresh `{MathOps} o n :
  id (BodyPlayer.constructor o n).1 = n /\
  regions (BodyPlayer.constructor o n).1 = None /\
  fixes_within_limit (BodyPlayer.constructor o n).1 /\
  (BodyPlayer.constructor o n).2 = n + 1.
Proof. done. Qed.

Lemma BodyStatic_constructor_fresh o n :
  id (BodyStatic.constructor o n).1 = n /\
  regions (BodyStatic.constructor o n).1 = None /\
  fixes_within_limit (BodyStatic.constructor o n).1 /\
  (BodyStatic.constructor o n).2 = n + 1.
Proof. done. Qed.

Lemma push_body_fresh_inv (w : World.t) (r : Body * Z) :
  world_inv w ->
  id r.1 = World.nextId w /\ regions r.1 = None /\ fixes_within_limit r.1
  /\ r.2 = World.nextId w + 1 ->
  world_inv (World.push_body w r).1.
Proof. destruct r as [body nid]. intros Hw (?&?&?&?). by apply push_body_inv. Qed.

Lemma call_inv `{MathOps} c w w' :
  call c w = Some w' -> world_inv w -> world_inv w'.
Proof.
  destruct c; cbn [call].
  - intros Heq%(inj Some) Hw. subst w'.
    apply push_body_fresh_inv, BodyBullet_constructor_fresh. done.
  - intros Heq%(inj Some) Hw. subst w'.
    apply push_body_fresh_inv, BodyBounce_constructor_fresh. done.
  - intros Heq%(inj Some) Hw. subst w'.
    apply push_body_fresh_inv, BodyPlayer_constructor_fresh. done.
  - intros Heq%(inj Some) Hw. subst w'.
    apply push_body_fresh_inv, BodyStatic_constructor_fresh. done.
  - unfold World.update. intros Hu Hw.
    destruct (Num.ceil _) as [q| | |]; cbn in Hu; try done.
    + destruct (Num.Qc_ltb q 0); cbn in Hu; [done|]. apply (inj Some) in Hu. subst w'.
      by apply World_update_loop_inv.
    + apply (inj Some) in Hu. by subst w'.
  - intros Heq%(inj Some) [Hg Hf Hx]. subst w'. by split.
  - apply on_player_inv. intros. by apply BodyPlayer_move_frame.
  - apply on_player_inv. intros. by apply BodyPlayer_stop_frame.
  - apply on_player_inv. intros. by apply BodyPlayer_jump_frame.
  - apply on_player_inv. intros. by eapply BodyPlayer_setPosition_frame.
  - apply on_bounce_inv. intros. by eapply BodyBounce_setPosition_frame.
  - apply on_bounce_inv. intros. by apply BodyBounce_update_frame.
  - apply on_bounce_inv. intros. by apply BodyBounce_updateCollision_frame.
Qed.

Lemma run_inv `{MathOps} calls w w' :
  run calls w = Some w' -> world_inv w -> world_inv w'.
Proof.
  revert w. induction calls as [|c calls IH]; intros w; cbn [run].
  - by intros [= <-].
  - destruct (call c w) as [w1|] eqn:Hc; cbn; [|done].
    intros Hr Hw. eapply IH; [done|]. by eapply call_inv.
Qed.

Lemma world_inv_constructor o : world_inv (World.constructor o).
Proof.
  split; cbn.
  - apply grid_inv_init.
  - intros i [b Hb]. by apply lookup_empty_Some in Hb.
  - intros i b Hb. by apply lookup_empty_Some in Hb.
Qed.

Lemma reachable_inv `{MathOps} w : reachable w -> world_inv w.
Proof.
  intros (o & calls & Hr). eapply run_inv; [done|apply world_inv_constructor].
Qed.

(** Claim C1.  In every state a world can reach, each entry of [pairs] has
    a [count] equal to the number of region keys under which both its
    [bodyA] and its [bodyB] appear in [hash].  The invariant [grid_inv]
    behind it is kept by the first registration ([Grid_addBody_inv]), by the
    re-indexing on a change of regions ([Grid_updateBody_inv]) and by
    [removeBody] ([Grid_removeBody_inv]). *)
Theorem pair_count_is_coresidence `{MathOps} (w : World.t) :
  reachable w ->
  forall p, p ∈ Grid.pairs (World.broadphase w) ->
    count p = Z.of_nat (coresidence (World.broadphase w) (bodyA p) (bodyB p)).
Proof.
  intros Hw%reachable_inv p Hp.
  apply (grid_inv_pair_count (World.heap w)); [apply Hw|done].
Qed.

(** Claim C5.  In every state a world can reach, both fix counters of every
    bounce body are at most 3, whatever calls of [update] and
    [updateCollision], by the engine or by the host, led there. *)
Theorem bounce_fixes_at_most_3 `{MathOps} (w : World.t) :
  reachable w ->
  forall i b s, World.heap w !! i = Some b -> state b = IsBounce s ->
    fst (Bounce.countCollisionsFix s) <= 3 /\ snd (Bounce.countCollisionsFix s) <= 3.
Proof.
  intros Hw%reachable_inv i b s Hb Hs.
  pose proof (winv_fixes _ Hw i b Hb) as Hfix.
  unfold fixes_within_limit in Hfix. by rewrite Hs in Hfix.
Qed.

(** * Numbers *)

Lemma Qc_ltb_true a b : Num.Qc_ltb a b = true <-> (a < b)%Qc.
Proof. unfold Num.Qc_ltb. apply bool_decide_eq_true. Qed.

Lemma Qc_eqb_true a b : Num.Qc_eqb a b = true <-> a = b.
Proof. unfold Num.Qc_eqb. apply bool_decide_eq_true. Qed.

Lemma ltb_trans a b c :
  Num.ltb a b = true -> Num.ltb b c = true -> Num.ltb a c = true.
Proof.
  destruct a, b, c; cbn; try done.
  rewrite !Qc_ltb_true. apply Qclt_trans.
Qed.

Lemma leb_ltb_trans a b c :
  Num.leb a b = true -> Num.ltb b c = true -> Num.ltb a c = true.
Proof.
  unfold Num.leb. intros [Hab|Hab]%orb_true_iff Hbc; [by eapply ltb_trans|].
  destruct a, b; cbn in Hab; try done.
  apply Qc_eqb_true in Hab. by subst.
Qed.

Lemma ltb_leb a b : Num.ltb a b = true -> Num.leb a b = true.
Proof. unfold Num.leb. by intros ->. Qed.

Lemma add_comm a b : Num.add a b = Num.add b a.
Proof. destruct a, b; cbn; try done. f_equal. ring. Qed.

(** * C9 and C8 *)

Lemma Qceiling_unit (x : Q) :
  (0 < x)%Q -> (x <= 33)%Q -> Qceiling (x / 33) = 1.
Proof.
  intros Hlo Hhi.
  assert (0 < x / 33)%Q as Hlo' by (apply Qlt_shift_div_l; [done|by rewrite Qmult_0_l]).
  assert (x / 33 <= 1)%Q as Hhi' by (apply Qle_shift_div_r; [done|by rewrite Qmult_1_l]).
  pose proof (Qceiling_resp_le _ _ Hhi') as H1. change (Qceiling 1) with 1 in H1.
  pose proof (Qle_ceiling (x / 33)) as H2.
  assert (0 < inject_Z (Qceiling (x / 33)))%Q as H3 by (eapply Qlt_le_trans; done).
  rewrite <- (Zlt_Qlt 0) in H3. lia.
Qed.

Lemma ceil_unit d :
  Num.ltb Num.zero d = true -> Num.leb d World.maxDelta = true ->
  Num.ceil (Num.div d World.maxDelta) = Num.one.
Proof.
  destruct d as [q| | |]; try done. intros H0 H33.
  assert (0 < q)%Q as Hq0 by (by apply Qc_ltb_true in H0).
  assert (q <= 33)%Q as Hq33.
  { unfold Num.leb in H33. apply orb_true_iff in H33 as [H|H]; cbn in H.
    - apply Qc_ltb_true in H. by apply Qlt_le_weak.
    - apply Qc_eqb_true in H. rewrite H. done. }
  unfold World.maxDelta, Num.ofZ, Num.div, Num.ceil, Num.one, Num.ofZ.
  assert (Num.Qc_eqb (Q2Qc (inject_Z 33)) (Q2Qc 0) = false) as -> by done.
  do 3 f_equal. rewrite <- (Qceiling_unit q) by done.
  apply Qceiling_comp. unfold Qcdiv, Qcmult, Qcinv, Q2Qc. cbn [this].
  rewrite !Qred_correct. done.
Qed.

Lemma update_zero_steps `{MathOps} w : World.update Num.zero w = Some (w, []).
Proof. done. Qed.

Lemma update_one_step `{MathOps} delta w :
  Num.ltb Num.zero delta = true -> Num.leb delta World.maxDelta = true ->
  World.update delta w = Some (World._update delta w).
Proof.
  intros H0 H33. unfold World.update. rewrite ceil_unit by done.
  change (Some (World.update_loop 1 delta w []) = Some (World._update delta w)).
  f_equal. cbn [World.update_loop].
  destruct (Num.ltb delta World.maxDelta) eqn:Hlt.
  - by destruct (World._update delta w).
  - assert (delta = World.maxDelta) as ->.
    { unfold Num.leb in H33. rewrite Hlt in H33. cbn in H33.
      destruct delta; try done. cbn in H33. apply Qc_eqb_true in H33. by subst. }
    by destruct (World._update World.maxDelta w).
Qed.

(** A delta whose quotient by [maxDelta] lies above [half_least] is finite
    and positive, or infinite. *)
Lemma above_half_least (delta : num) :
  Num.ltb Num.half_least (delta / World.maxDelta)%num = true ->
  delta = PInf \/ Num.ltb Num.zero delta = true.
Proof.
  destruct delta as [d| | |]; [|by left|done|done]. intros Hq. right.
  unfold World.maxDelta, Num.ofZ, Num.div in Hq.
  assert (Num.Qc_eqb (Q2Qc (inject_Z 33)) (Q2Qc 0) = false) as Hne by done.
  rewrite Hne in Hq. cbn in Hq |- *. apply Qc_ltb_true in Hq. apply Qc_ltb_true.
  assert (0 < d / Q2Qc (inject_Z 33))%Qc as Hpos.
  { eapply Qclt_trans; [|exact Hq]. by vm_compute. }
  assert (d = d / Q2Qc (inject_Z 33) * Q2Qc (inject_Z 33))%Qc as ->.
  { field. intros H. apply (f_equal this) in H. discriminate H. }
  rewrite <- (Qcmult_0_l (Q2Qc (inject_Z 33))) at 1.
  apply Qcmult_lt_compat_r; [by vm_compute|exact Hpos].
Qed.

(** Claim C9.  [update(0)] returns an empty list of sensors and leaves the
    whole world as it was: the number of sub-steps is [Math.ceil(0 / 33) = 0]
    and no stage runs. *)
Theorem update_zero_is_noop `{MathOps} (w : World.t) :
  World.update Num.zero w = Some (w, []).
Proof. apply update_zero_steps. Qed.

(** Claim C8, for a delta that gives one sub-step.  For a delta of at most
    33 whose quotient by 33 lies above [2^-1075], and so is not rounded to 0
    by the division of [Math.ceil(delta / maxDelta)], [update(delta)] gives
    exactly the world and the sensors of one call of [_update(delta)]. *)
Theorem update_is_single_step `{MathOps} (delta : num) (w : World.t) :
  Num.ltb Num.half_least (delta / World.maxDelta)%num = true ->
  Num.leb delta World.maxDelta = true ->
  World.update delta w = Some (World._update delta w).
Proof.
  intros [->|Hpos]%above_half_least Hle; [done|]. by apply update_one_step.
Qed.

Lemma update_is_single_step_witness :
  Num.ltb Num.half_least (Num.ofZ 16 / World.maxDelta)%num = true /\
  Num.leb (Num.ofZ 16) World.maxDelta = true /\
  @World.update sample_ops (Num.ofZ 16) Sample.shot
  = Some (@World._update sample_ops (Num.ofZ 16) Sample.shot).
Proof.
  split; [by vm_compute|]. split; [reflexivity|].
  apply (@update_is_single_step sample_ops (Num.ofZ 16) Sample.shot);
    [by vm_compute|reflexivity].
Defined.

(** Claim C8 does not hold at [delta = 0], which is at most 33:
    [update(0)] runs no sub-step, while [_update(0)] registers the wall in
    the grid. *)
Lemma update_zero_is_not_a_step :
  Num.leb Num.zero World.maxDelta = true /\
  @World.update sample_ops Num.zero Sample.wall_only
  ≠ Some (@World._update sample_ops Num.zero Sample.wall_only).
Proof.
  split; [reflexivity|]. rewrite update_zero_steps. intros Heq.
  apply (f_equal (fun r => match r with
                           | Some (w, _) => Grid.hash (World.broadphase w) !! (0, 0)
                           | None => None
                           end)) in Heq.
  vm_compute in Heq. discriminate Heq.
Qed.

(** * C10 *)

Lemma Body_update_queue `{MathOps} delta b q x :
  x ∈ q -> x ∈ (Body_update delta b q).2.
Proof.
  intros Hx. unfold Body_update, BodyBullet.update.
  repeat case_match; cbn [snd]; try done; apply elem_of_app; by left.
Qed.

Lemma updatePosition_skips_queued `{MathOps} delta worldBounds st i b :
  b ∈ st_bodiesToRemove st ->
  st_heap (updatePosition delta worldBounds st i) !! b = st_heap st !! b /\
  b ∈ st_bodiesToRemove (updatePosition delta worldBounds st i).
Proof.
  intros Hb. unfold updatePosition.
  destruct (st_heap st !! i) as [body|] eqn:Hi; [|done].
  case_bool_decide; [done|].
  unfold includes. case_bool_decide as Hin; [done|].
  assert (i ≠ b) as Hne by (by intros ->).
  pose proof (Body_update_queue delta body (st_bodiesToRemove st) b Hb) as Hq.
  destruct (Body_update delta body (st_bodiesToRemove st)) as [body' q'].
  cbn [snd] in Hq.
  case_match; cbn [st_heap st_bodiesToRemove]; rewrite lookup_insert_ne by done;
    (split; [done|]); [apply elem_of_app; by left|done].
Qed.

(** Claim C10.  A body that is in [bodiesToRemove] when a sub-step begins is
    not updated by stage 1: after [updatePositions] the heap holds it exactly
    as it was when the sub-step began, which is how stage 2 finds it. *)
Theorem queued_body_is_not_updated `{MathOps} (delta : num) (w : World.t) (b : Z) :
  b ∈ World.bodiesToRemove w ->
  st_heap (updatePositions delta (World.bodies w) (World.bounds w)
             (mkStage (World.heap w) (World.bodiesToRemove w) [])) !! b
  = World.heap w !! b.
Proof.
  intros Hb. unfold updatePositions.
  change (World.heap w) with
    (st_heap (mkStage (World.heap w) (World.bodiesToRemove w) [])) at 2.
  change (b ∈ st_bodiesToRemove (mkStage (World.heap w) (World.bodiesToRemove w) []))
    in Hb.
  generalize dependent (mkStage (World.heap w) (World.bodiesToRemove w) []).
  induction (World.bodies w) as [|i bodies IH]; intros st Hb; [done|].
  cbn [foldl].
  destruct (updatePosition_skips_queued delta (World.bounds w) st i b Hb) as [H1 H2].
  by rewrite IH, H1.
Qed.

Lemma queued_body_is_not_updated_witness :
  2 ∈ World.bodiesToRemove Sample.shot_stepped /\
  st_heap (@updatePositions sample_ops (Num.ofZ 16)
             (World.bodies Sample.shot_stepped) (World.bounds Sample.shot_stepped)
             (mkStage (World.heap Sample.shot_stepped)
                (World.bodiesToRemove Sample.shot_stepped) [])) !! 2
  = World.heap Sample.shot_stepped !! 2.
Proof.
  assert (2 ∈ World.bodiesToRemove Sample.shot_stepped) as Hin
    by (apply (bool_decide_unpack _); vm_compute; exact I).
  split; [exact Hin|].
  exact (@queued_body_is_not_updated sample_ops (Num.ofZ 16) Sample.shot_stepped 2 Hin).
Defined.

Lemma run_from_new_reachable calls :
  is_Some (@run sample_ops calls Sample.new_world) ->
  @reachable sample_ops (Sample.run_from_new calls).
Proof.
  intros [w Hw]. exists (World.mkOptions None), calls.
  unfold Sample.run_from_new. fold Sample.new_world. by rewrite Hw.
Qed.

Lemma pair_count_is_coresidence_witness :
  count (mkPair (1, 2) 2 1 1)
  = Z.of_nat (coresidence (World.broadphase Sample.shot_stepped) 2 1).
Proof.
  apply (@pair_count_is_coresidence sample_ops Sample.shot_stepped).
  - apply run_from_new_reachable. vm_compute. eexists. reflexivity.
  - vm_compute. left.
Defined.

Lemma bounce_fixes_at_most_3_witness :
  World.heap Sample.bounced !! 1 = Some Sample.bounced_body /\
  state Sample.bounced_body = IsBounce (Sample.bounce_state Sample.bounced_body) /\
  Bounce.countCollisionsFix (Sample.bounce_state Sample.bounced_body) = (3, 3) /\
  fst (Bounce.countCollisionsFix (Sample.bounce_state Sample.bounced_body)) <= 3 /\
  snd (Bounce.countCollisionsFix (Sample.bounce_state Sample.bounced_body)) <= 3.
Proof.
  assert (World.heap Sample.bounced !! 1 = Some Sample.bounced_body) as Hb
    by (vm_compute; reflexivity).
  assert (state Sample.bounced_body
          = IsBounce (Sample.bounce_state Sample.bounced_body)) as Hs
    by (vm_compute; reflexivity).
  split; [exact Hb|]. split; [exact Hs|]. split; [vm_compute; reflexivity|].
  refine (@bounce_fixes_at_most_3 sample_ops Sample.bounced _ 1 Sample.bounced_body
            (Sample.bounce_state Sample.bounced_body) Hb Hs).
  apply run_from_new_reachable. vm_compute. eexists. reflexivity.
Defined.

(** * C4: what stage 4 leaves in the queue *)

Lemma queue_of_hits_sensors h queue sensors sensors' :
  queue_of_hits h queue sensors -> queue_of_hits h queue (sensors ++ sensors').
Proof.
  intros Hq b Hb. destruct (Hq b Hb) as (Ht & t & p & Hs).
  split; [done|]. exists t, p. apply elem_of_app. by left.
Qed.

Lemma queue_of_hits_before h queue sensors sensors' :
  queue_of_hits h queue sensors -> queue_of_hits h queue (sensors' ++ sensors).
Proof.
  intros Hq b Hb. destruct (Hq b Hb) as (Ht & t & p & Hs).
  split; [done|]. exists t, p. apply elem_of_app. by right.
Qed.

Lemma resolveBullet_queue h st entry :
  queue_of_hits h st.1 st.2 ->
  queue_of_hits h (resolveBullet h st entry).1 (resolveBullet h st entry).2.
Proof.
  destruct st as [queue sensors]. cbn [fst snd]. intros Hq. unfold resolveBullet.
  destruct (h !! bt_bullet entry) as [body|] eqn:Hb; cbn [fmap option_fmap option_map];
    [|done].
  destruct (state body) as [| | |s] eqn:Hs; try done.
  destruct (HitResult.target _) as [t|]; [|done]. cbn [fst snd].
  intros b Hin.
  assert (b ∈ queue \/ b = bt_bullet entry) as [Hold| ->].
  { case_match; [|by left].
    apply elem_of_app in Hin as [?|?%list_elem_of_singleton]; [by left|by right]. }
  - by apply (queue_of_hits_sensors h queue sensors).
  - split; [rewrite Hb; cbn; unfold type; by rewrite Hs|].
    eexists _, _. apply elem_of_app. right. by apply list_elem_of_singleton.
Qed.

Lemma detectCollisions_queue h broadphasePairs sensors0 :
  queue_of_hits h (detectCollisions h broadphasePairs [] sensors0).1.1
    (detectCollisions h broadphasePairs [] sensors0).2.
Proof.
  unfold detectCollisions.
  set (d := foldl (detectPair h) _ _).
  assert (queue_of_hits h (@nil Z, sensors d).1 (@nil Z, sensors d).2) as Hq0.
  { intros b Hb. by apply elem_of_nil in Hb. }
  generalize dependent (@nil Z, sensors d).
  induction (bulletsTargets d) as [|e l IH]; intros st Hq; cbn [foldl].
  - by destruct st.
  - by apply IH, resolveBullet_queue.
Qed.

Lemma queue_of_hits_frame h h' queue sensors :
  heap_rel body_frame h h' -> queue_of_hits h queue sensors ->
  queue_of_hits h' queue sensors.
Proof.
  intros Hrel Hq b Hb. destruct (Hq b Hb) as [Ht Hs]. split; [|done].
  specialize (Hrel b). destruct (h !! b) as [x|], (h' !! b) as [x'|]; try done.
  destruct Hrel as ([= _ Hty _] & _). cbn in *. congruence.
Qed.

Lemma World_update_queue `{MathOps} delta w :
  queue_of_hits (World.heap (World._update delta w).1)
    (World.bodiesToRemove (World._update delta w).1) (World._update delta w).2.
Proof.
  unfold World._update.
  destruct (removeBodies _ _ _) as [[h2 g2] bodies2].
  destruct (Grid.update bodies2 (h2, g2)) as [h3 g3].
  pose proof (detectCollisions_queue h3 (Grid.pairs g3)
    (st_sensors (updatePositions delta (World.bodies w) (World.bounds w)
       (mkStage (World.heap w) (World.bodiesToRemove w) [])))) as Hq.
  destruct (detectCollisions _ _ _ _) as [[queue collisions] sensors].
  cbn [fst snd World.heap World.bodiesToRemove] in *.
  eapply queue_of_hits_frame; [|exact Hq].
  eapply heap_rel_trans;
    [apply body_frame_trans|apply correctionPositions_frame|apply afterUpdate_frame].
Qed.

Lemma World_update_loop_queue `{MathOps} n delta w sensors :
  queue_of_hits (World.heap (World.update_loop (S n) delta w sensors).1)
    (World.bodiesToRemove (World.update_loop (S n) delta w sensors).1)
    (World.update_loop (S n) delta w sensors).2.
Proof.
  revert delta w sensors. induction n as [|n IH]; intros delta w sensors.
  - cbn [World.update_loop].
    destruct (Num.ltb delta World.maxDelta);
      match goal with
      | |- context [World._update ?d w] =>
          pose proof (World_update_queue d w) as Hq;
          destruct (World._update d w) as [w' s]
      end; by apply queue_of_hits_before.
  - change (World.update_loop (S (S n)) delta w sensors) with
      (let '(stepDelta, delta) :=
         if Num.ltb delta World.maxDelta then (delta, delta)
         else (World.maxDelta, Num.sub delta World.maxDelta) in
       let '(w, s) := World._update stepDelta w in
       World.update_loop (S n) delta w (sensors ++ s)).
    destruct (Num.ltb delta World.maxDelta);
      match goal with
      | |- context [World._update ?d w] => destruct (World._update d w) as [w' s]
      end; apply IH.
Qed.

Lemma Qceiling_Q2Qc (x : Q) : Qceiling (Q2Qc x) = Qceiling x.
Proof. apply Qceiling_comp. unfold Q2Qc. cbn [this]. apply Qred_correct. Qed.

Lemma ceil_positive d q :
  Num.ltb Num.zero d = true -> Num.ceil (Num.div d World.maxDelta) = Fin q ->
  exists n, Z.to_nat (Qceiling q) = S n.
Proof.
  destruct d as [x| | |]; try done. intros H0.
  assert (0 < x)%Q as Hx by (by apply Qc_ltb_true in H0).
  unfold World.maxDelta, Num.ofZ, Num.div, Num.ceil, Num.ofZ.
  assert (Num.Qc_eqb (Q2Qc (inject_Z 33)) (Q2Qc 0) = false) as -> by done.
  intros [= <-]. rewrite Qceiling_Q2Qc, Qceiling_Z.
  match goal with
  | |- exists n, Z.to_nat (Qceiling ?y) = S n =>
      assert (0 < y)%Q as Hlo;
      [|pose proof (Qle_ceiling y) as H2;
        assert (0 < inject_Z (Qceiling y))%Q as H3 by (eapply Qlt_le_trans; done);
        rewrite <- (Zlt_Qlt 0) in H3;
        exists (Z.to_nat (Qceiling y - 1)); lia]
  end.
  unfold Qcdiv, Qcmult, Qcinv, Q2Qc. cbn [this]. rewrite !Qred_correct.
  apply Qlt_shift_div_l; [done|by rewrite Qmult_0_l].
Qed.

(** Claim C4, with the bullets that hit.  When [_update] returns, and when
    [update] returns from a delta whose quotient by 33 lies above [2^-1075]
    (a positive delta that the division of [Math.ceil(delta / maxDelta)]
    does not round to 0, so that a sub-step runs), every body in
    [bodiesToRemove] is a bullet for which the sensors returned hold an
    [isHit] record: stage 2 empties the queue, and stage 4 queues the
    bullets that hit. *)
Theorem queue_after_step_holds_hit_bullets `{MathOps} (delta : num)
    (w w' : World.t) (sensors : list Sensor) (b : Z) :
  World._update delta w = (w', sensors) \/
  (Num.ltb Num.half_least (delta / World.maxDelta)%num = true /\
   World.update delta w = Some (w', sensors)) ->
  b ∈ World.bodiesToRemove w' ->
  type <$> World.heap w' !! b = Some BULLET /\
  exists target point, SensorHit b target point ∈ sensors.
Proof.
  intros [Hstep|[Hpos Hup]] Hb.
  - pose proof (World_update_queue delta w) as Hq. rewrite Hstep in Hq.
    by apply Hq.
  - apply above_half_least in Hpos as [->|Hpos]; [done|].
    unfold World.update in Hup.
    destruct (Num.ceil _) as [q| | |] eqn:Hceil; try done.
    + destruct (Num.Qc_ltb q 0); [done|].
      destruct (ceil_positive delta q Hpos Hceil) as [n Hn]. rewrite Hn in Hup.
      pose proof (World_update_loop_queue n delta w []) as Hq.
      apply (inj Some) in Hup. rewrite Hup in Hq. by apply Hq.
    + by destruct delta.
Qed.

Lemma queue_after_step_holds_hit_bullets_witness :
  2 ∈ World.bodiesToRemove (@World._update sample_ops (Num.ofZ 16) Sample.shot).1 /\
  type <$> World.heap (@World._update sample_ops (Num.ofZ 16) Sample.shot).1 !! 2
  = Some BULLET /\
  exists target point,
    SensorHit 2 target point ∈ (@World._update sample_ops (Num.ofZ 16) Sample.shot).2.
Proof.
  assert (2 ∈ World.bodiesToRemove
                (@World._update sample_ops (Num.ofZ 16) Sample.shot).1) as Hin
    by (apply (bool_decide_unpack _); vm_compute; exact I).
  split; [exact Hin|].
  apply (@queue_after_step_holds_hit_bullets sample_ops (Num.ofZ 16) Sample.shot
           (@World._update sample_ops (Num.ofZ 16) Sample.shot).1
           (@World._update sample_ops (Num.ofZ 16) Sample.shot).2 2);
    [left; apply surjective_pairing|exact Hin].
Defined.

(** Claim C4, the queue is not always empty on return: when a bullet hits,
    the queue holds it after [_update(16)] and after [update(16)]. *)
Lemma queue_not_empty_after_hit :
  World.bodiesToRemove (@World._update sample_ops (Num.ofZ 16) Sample.shot).1 ≠ [] /\
  (exists w' sensors,
     @World.update sample_ops (Num.ofZ 16) Sample.shot = Some (w', sensors) /\
     World.bodiesToRemove w' ≠ []).
Proof.
  assert (World.bodiesToRemove (@World._update sample_ops (Num.ofZ 16) Sample.shot).1
          = [2]) as Hq by (vm_compute; reflexivity).
  split; [by rewrite Hq|].
  exists (@World._update sample_ops (Num.ofZ 16) Sample.shot).1,
         (@World._update sample_ops (Num.ofZ 16) Sample.shot).2.
  split; [|by rewrite Hq].
  rewrite (@update_one_step sample_ops) by reflexivity.
  by rewrite <- surjective_pairing.
Qed.

(** Claim C2, with strictly negative extents.  Stage 4 skips a pair exactly
    when the width or the height of its intersection is negative; otherwise, also when one of
    them is 0, the pair is reported as a sensor overlap, recorded as a
    target of its bullet, or added to the collisions. *)
Theorem detect_skips_negative_intersections (h : Heap) (d : Detected) (pair : Pair)
    (A B : Body) :
  h !! bodyA pair = Some A -> h !! bodyB pair = Some B ->
  let i := getIntersection (bounds A) (bounds B) in
  if Num.ltb (width i) Num.zero || Num.ltb (height i) Num.zero
  then detectPair h d pair = d
  else
    sensors (detectPair h d pair) = sensors d ++ [SensorOverlap (bodyA pair) (bodyB pair)]
    \/ (exists key bullet hitted,
          bulletsTargets (detectPair h d pair)
          = bulletsTargets_push key bullet hitted (bulletsTargets d))
    \/ collisions (detectPair h d pair)
       = collisions d ++ [mkCollision (bodyA pair) (bodyB pair) i].
Proof.
  intros HA HB i. unfold detectPair. rewrite HA, HB. fold i.
  destruct (Num.ltb (width i) Num.zero || Num.ltb (height i) Num.zero); [done|].
  destruct (isSensor A || isSensor B); [by left|].
  destruct (bool_decide (type A = BULLET) || bool_decide (type B = BULLET)).
  - right. left. destruct (bool_decide (type A = BULLET)); by eexists _, _, _.
  - right. by right.
Qed.

Lemma detect_skips_negative_intersections_witness :
  World.heap Sample.touching !! bodyA Sample.touching_pair = Some Sample.walker_body /\
  World.heap Sample.touching !! bodyB Sample.touching_pair = Some Sample.pad_body /\
  (sensors (detectPair (World.heap Sample.touching) (mkDetected [] [] [])
              Sample.touching_pair)
   = [] ++ [SensorOverlap (bodyA Sample.touching_pair) (bodyB Sample.touching_pair)]
   \/ (exists key bullet hitted,
          bulletsTargets (detectPair (World.heap Sample.touching) (mkDetected [] [] [])
                            Sample.touching_pair)
          = bulletsTargets_push key bullet hitted [])
   \/ collisions (detectPair (World.heap Sample.touching) (mkDetected [] [] [])
                    Sample.touching_pair)
      = [] ++ [mkCollision (bodyA Sample.touching_pair) (bodyB Sample.touching_pair)
                 (getIntersection (bounds Sample.walker_body)
                    (bounds Sample.pad_body))]).
Proof.
  assert (World.heap Sample.touching !! bodyA Sample.touching_pair
          = Some Sample.walker_body) as HA by (vm_compute; reflexivity).
  assert (World.heap Sample.touching !! bodyB Sample.touching_pair
          = Some Sample.pad_body) as HB by (vm_compute; reflexivity).
  split; [exact HA|]. split; [exact HB|].
  pose proof (detect_skips_negative_intersections (World.heap Sample.touching)
                (mkDetected [] [] []) Sample.touching_pair
                Sample.walker_body Sample.pad_body HA HB) as H.
  cbv zeta in H.
  replace (Num.ltb (width (getIntersection (bounds Sample.walker_body)
                             (bounds Sample.pad_body))) Num.zero
           || Num.ltb (height (getIntersection (bounds Sample.walker_body)
                                 (bounds Sample.pad_body))) Num.zero)
    with false in H by (vm_compute; reflexivity).
  exact H.
Defined.

(** Claim C2, an intersection of width 0 is not skipped: the pad and the
    walker share an edge, their intersection has width 0, and the sub-step reports the overlap. *)
Lemma zero_width_intersection_is_detected :
  exists A B,
    World.heap Sample.touching !! 2 = Some A /\
    World.heap Sample.touching !! 1 = Some B /\
    Num.eqb (width (getIntersection (bounds A) (bounds B))) Num.zero = true /\
    (@World._update sample_ops (Num.ofZ 16) Sample.touching).2 = [SensorOverlap 2 1].
Proof.
  eexists _, _. split; [vm_compute; reflexivity|]. split; [vm_compute; reflexivity|].
  split; vm_compute; reflexivity.
Qed.

(** * Probes *)

Lemma handlingLineIntersect_skip input a b lo hi prevInput prevOutput ia oa t r :
  Num.isFinite a && Num.isFinite b = false ->
  handlingLineIntersect input a b lo hi prevInput prevOutput ia oa t r = r.
Proof.
  unfold handlingLineIntersect. intros Hf.
  by destruct (Num.isFinite a), (Num.isFinite b).
Qed.

Lemma handlingLineIntersect_X input a b lo hi prev t r :
  handlingLineIntersect input a b lo hi (vx prev) (vy prev) AxisX AxisY t r
  = take_crossing prev r (probe AxisX input a b lo hi t).
Proof.
  unfold handlingLineIntersect, probe, take_crossing, manhattan.
  destruct (Num.isFinite a), (Num.isFinite b); cbn [negb orb andb]; try done.
  destruct (Num.leb _ lo), (Num.geb _ hi); cbn [negb orb andb]; try done.
  cbn [cr_point cr_target vx vy set_axis]. by rewrite add_comm.
Qed.

Lemma handlingLineIntersect_Y input a b lo hi prev t r :
  handlingLineIntersect input a b lo hi (vy prev) (vx prev) AxisY AxisX t r
  = take_crossing prev r (probe AxisY input a b lo hi t).
Proof.
  unfold handlingLineIntersect, probe, take_crossing, manhattan.
  destruct (Num.isFinite a), (Num.isFinite b); cbn [negb orb andb]; try done.
  destruct (Num.leb _ lo), (Num.geb _ hi); cbn [negb orb andb]; try done.
Qed.

(** Claim C3, with the probes that are skipped.  A bullet flying along the
    X axis ([force.y] is zero) has its min-Y and max-Y probes skipped, and a
    bullet flying along the Y axis ([force.x] is zero) its min-X and max-X
    probes.  The coefficients of the other two probes are finite, and so
    those probes are carried out, when the other force component is not zero
    and the coordinate that enters [c] and its product with that component
    are below [2^1023] in absolute value, the range in which the product
    does not overflow. *)
Theorem axial_bullet_skips_parallel_probes (x0 y0 fx fy : Qc) :
  let c := BodyBullet.equationCoefs_of (Fin x0) (Fin y0) (mkVec (Fin fx) (Fin fy)) in
  (fy = 0%Qc ->
     forall input lo hi prevInput prevOutput t r,
       handlingLineIntersect input (ba c) (ca c) lo hi prevInput prevOutput
         AxisY AxisX t r = r) /\
  (fx = 0%Qc ->
     forall input lo hi prevInput prevOutput t r,
       handlingLineIntersect input (ab c) (cb c) lo hi prevInput prevOutput
         AxisX AxisY t r = r) /\
  (fy = 0%Qc -> fx ≠ 0%Qc -> Num.no_overflow y0 -> Num.no_overflow (y0 * fx) ->
     Num.isFinite (ab c) = true /\ Num.isFinite (cb c) = true) /\
  (fx = 0%Qc -> fy ≠ 0%Qc -> Num.no_overflow x0 -> Num.no_overflow (x0 * fy) ->
     Num.isFinite (ba c) = true /\ Num.isFinite (ca c) = true).
Proof.
  cbn zeta. unfold BodyBullet.equationCoefs_of. cbn [ab ba ca cb vx vy].
  split_and!.
  - intros -> *. apply handlingLineIntersect_skip.
    assert (Num.isFinite (Fin fx / - Fin 0%Qc)%num = false) as ->; [|done].
    cbn. unfold Num.inf_of_sign. by repeat case_match.
  - intros -> *. apply handlingLineIntersect_skip.
    assert (Num.isFinite (- Fin fy / Fin 0%Qc)%num = false) as ->; [|done].
    cbn. unfold Num.inf_of_sign. by repeat case_match.
  - intros _ Hfx _ _. cbn. unfold Num.Qc_eqb. by rewrite !bool_decide_eq_false_2.
  - intros _ Hfy _ _. cbn. unfold Num.Qc_eqb.
    assert (- fy ≠ 0)%Qc as Hn.
    { intros Hz. apply Hfy. rewrite <- (Qcopp_involutive fy), Hz. done. }
    by rewrite !bool_decide_eq_false_2.
Qed.

Lemma axial_bullet_skips_parallel_probes_witness :
  let c := BodyBullet.equationCoefs_of (Num.ofZ 400) (Num.ofZ 20)
             (mkVec (Num.ofZ 5) (Num.ofZ 0)) in
  handlingLineIntersect (Num.ofZ (-50)) (ba c) (ca c) (Num.ofZ 450) (Num.ofZ 550)
    (Num.ofZ 20) (Num.ofZ 400) AxisY AxisX 1 hitResult_init = hitResult_init /\
  Num.isFinite (ab c) = true /\ Num.isFinite (cb c) = true.
Proof.
  pose proof (axial_bullet_skips_parallel_probes
                (Q2Qc (inject_Z 400)) (Q2Qc (inject_Z 20))
                (Q2Qc (inject_Z 5)) (Q2Qc (inject_Z 0))) as (HY & _ & HX & _).
  split.
  - apply HY. apply Qc_is_canon. reflexivity.
  - apply HX.
    + apply Qc_is_canon. reflexivity.
    + intros H. apply (f_equal this) in H. discriminate H.
    + by vm_compute.
    + by vm_compute.
Defined.

(** Claim C3, an axis-aligned bullet can hit: the bullet of the sample
    flies along the X axis, and the sub-step reports its hit on the wall at (450, 0). *)
Lemma axial_bullet_hits :
  exists b s p,
    World.heap Sample.shot !! 2 = Some b /\ state b = IsBullet s /\
    Num.eqb (vy (Bullet.force s)) Num.zero = true /\
    (@World._update sample_ops (Num.ofZ 16) Sample.shot).2 = [SensorHit 2 1 p] /\
    Num.eqb (vx p) (Num.ofZ 450) = true /\ Num.eqb (vy p) (Num.ofZ 0) = true.
Proof.
  eexists _, _, _. split; [vm_compute; reflexivity|].
  split; [reflexivity|]. split; [vm_compute; reflexivity|].
  split; [vm_compute; reflexivity|]. split; vm_compute; reflexivity.
Qed.

(** * C6: the nearest crossing *)

Lemma ltb_irrefl a : Num.ltb a a = false.
Proof.
  destruct a; cbn; try done. unfold Num.Qc_ltb.
  apply bool_decide_eq_false_2. intros E. by apply Qclt_not_eq in E.
Qed.

Lemma take_crossing_None prev r : take_crossing prev r None = r.
Proof. done. Qed.

Lemma foldl_take_crossing_omap prev (l : list (option Crossing)) r :
  foldl (take_crossing prev) r l
  = foldl (fun r c => take_crossing prev r (Some c)) r (omap Datatypes.id l).
Proof.
  revert r. induction l as [|[c|] l IH]; intros r; cbn; [done|apply IH|apply IH].
Qed.

Lemma probeTarget_crossings h s r t :
  probeTarget h (Bullet.equationCoefs s) (Bullet.prevPosition s) r t
  = foldl (fun r c => take_crossing (Bullet.prevPosition s) r (Some c)) r
      (crossings h s [t]).
Proof.
  unfold probeTarget, crossings. cbn [mbind list_bind]. rewrite app_nil_r.
  destruct (h !! t) as [target|]; [|done].
  rewrite <- foldl_take_crossing_omap. cbn [foldl].
  by rewrite !handlingLineIntersect_X, !handlingLineIntersect_Y.
Qed.

Lemma crossings_app h s l1 l2 :
  crossings h s (l1 ++ l2) = crossings h s l1 ++ crossings h s l2.
Proof. unfold crossings. apply bind_app. Qed.

Lemma probeTargets_crossings h s targets r :
  foldl (probeTarget h (Bullet.equationCoefs s) (Bullet.prevPosition s)) r targets
  = foldl (fun r c => take_crossing (Bullet.prevPosition s) r (Some c)) r
      (crossings h s targets).
Proof.
  revert r. induction targets as [|t targets IH]; intros r; [done|].
  cbn [foldl]. change (t :: targets) with ([t] ++ targets).
  by rewrite crossings_app, foldl_app, IH, probeTarget_crossings.
Qed.

Lemma nearest_so_far_step prev seen r c :
  nearest_so_far prev seen r ->
  nearest_so_far prev (seen ++ [c]) (take_crossing prev r (Some c)).
Proof.
  intros [Hmin Hsel]. unfold take_crossing.
  destruct (Num.ltb (manhattan (cr_point c) prev) (HitResult.halfSumm r)) eqn:Hlt.
  - split; cbn [HitResult.halfSumm HitResult.target HitResult.point].
    + intros c' [Hc'| ->%list_elem_of_singleton]%elem_of_app.
      * destruct (Num.ltb (manhattan (cr_point c') prev) (manhattan (cr_point c) prev))
          eqn:E; [|done].
        rewrite <- (Hmin c' Hc'). symmetry. by eapply ltb_trans.
      * apply ltb_irrefl.
    + exists (length seen), c. split_and!; try done.
      * by rewrite lookup_app_r, Nat.sub_diag by lia.
      * intros j c' Hj Hc'. rewrite lookup_app_l in Hc' by done.
        destruct (Num.leb _ _) eqn:E; [|done].
        rewrite <- (Hmin c'); [|by eapply list_elem_of_lookup_2].
        symmetry. by eapply leb_ltb_trans.
  - split.
    + intros c' [Hc'| ->%list_elem_of_singleton]%elem_of_app; [by apply Hmin|done].
    + destruct (HitResult.target r) as [t|]; [|done].
      destruct Hsel as (i & c0 & Hi & Hp & Ht & Hd & Hearlier).
      exists i, c0. split_and!; try done.
      * by apply lookup_app_l_Some.
      * intros j c' Hj Hc'. apply (Hearlier j c' Hj).
        apply lookup_lt_Some in Hi. by rewrite lookup_app_l in Hc' by lia.
Qed.

Lemma nearest_so_far_foldl prev l seen r :
  nearest_so_far prev seen r ->
  nearest_so_far prev (seen ++ l)
    (foldl (fun r c => take_crossing prev r (Some c)) r l).
Proof.
  revert seen r. induction l as [|c l IH]; intros seen r Hr; cbn [foldl].
  - by rewrite app_nil_r.
  - replace (seen ++ c :: l) with ((seen ++ [c]) ++ l) by (by rewrite <- app_assoc).
    by apply IH, nearest_so_far_step.
Qed.

Lemma probeTargets_nearest h s targets :
  nearest_so_far (Bullet.prevPosition s) (crossings h s targets)
    (probeTargets h s targets).
Proof.
  unfold probeTargets. rewrite probeTargets_crossings.
  apply (nearest_so_far_foldl _ _ []). split; [|done].
  intros c Hc. by apply elem_of_nil in Hc.
Qed.

(** Claim C6.  When the loop over the targets of a bullet emits a record,
    it is the [isHit] record of an accepted crossing whose Manhattan distance
    to [prevPosition] no accepted crossing undercuts, and which no earlier
    crossing, in the order of the targets and of the four probes, equals. *)
Theorem bullet_hit_is_nearest_crossing (h : Heap) (queue queue' : list Z)
    (sensors sensors' : list Sensor) (entry : BulletTargets) (s : Bullet.t) :
  state <$> h !! bt_bullet entry = Some (IsBullet s) ->
  resolveBullet h (queue, sensors) entry = (queue', sensors') ->
  sensors' ≠ sensors ->
  exists (i : nat) c,
    crossings h s (bt_targets entry) !! i = Some c /\
    sensors' = sensors ++ [SensorHit (bt_bullet entry) (cr_target c) (cr_point c)] /\
    (forall c', c' ∈ crossings h s (bt_targets entry) ->
       Num.ltb (manhattan (cr_point c') (Bullet.prevPosition s))
               (manhattan (cr_point c) (Bullet.prevPosition s)) = false) /\
    (forall (j : nat) c', (j < i)%nat ->
       crossings h s (bt_targets entry) !! j = Some c' ->
       Num.leb (manhattan (cr_point c') (Bullet.prevPosition s))
               (manhattan (cr_point c) (Bullet.prevPosition s)) = false).
Proof.
  intros Hs. unfold resolveBullet. rewrite Hs.
  destruct (probeTargets_nearest h s (bt_targets entry)) as [Hmin Hsel].
  destruct (HitResult.target (probeTargets h s (bt_targets entry))) as [t|];
    [|by intros [= _ <-]].
  intros [= _ <-] _.
  destruct Hsel as (i & c & Hi & Hp & Ht & Hd & Hearlier).
  exists i, c. rewrite Hp, Ht. split_and!; try done.
  intros c' Hc'. rewrite <- Hd. by apply Hmin.
Qed.

Lemma bullet_hit_is_nearest_crossing_witness :
  exists (i : nat) c,
    crossings (World.heap Sample.shot_stepped) Sample.flying [1] !! i = Some c /\
    (resolveBullet (World.heap Sample.shot_stepped) ([], [])
       (mkBulletTargets 2 2 [1])).2
    = [] ++ [SensorHit 2 (cr_target c) (cr_point c)] /\
    (forall c', c' ∈ crossings (World.heap Sample.shot_stepped) Sample.flying [1] ->
       Num.ltb (manhattan (cr_point c') (Bullet.prevPosition Sample.flying))
               (manhattan (cr_point c) (Bullet.prevPosition Sample.flying)) = false) /\
    (forall (j : nat) c', (j < i)%nat ->
       crossings (World.heap Sample.shot_stepped) Sample.flying [1] !! j = Some c' ->
       Num.leb (manhattan (cr_point c') (Bullet.prevPosition Sample.flying))
               (manhattan (cr_point c) (Bullet.prevPosition Sample.flying)) = false).
Proof.
  apply (bullet_hit_is_nearest_crossing (World.heap Sample.shot_stepped) []
           (resolveBullet (World.heap Sample.shot_stepped) ([], [])
              (mkBulletTargets 2 2 [1])).1
           [] _ (mkBulletTargets 2 2 [1]) Sample.flying).
  - vm_compute. reflexivity.
  - apply surjective_pairing.
  - intros H. vm_compute in H. discriminate H.
Defined.

(** * C7: the jump of a player *)

Lemma update_move_fields delta b s :
  let p := BodyPlayer.update_move delta (b, s) in
  Player.jumpTimer p.2 = Player.jumpTimer s /\
  Player.fallTimer p.2 = Player.fallTimer s /\
  Player.lastGroundPositionY p.2 = Player.lastGroundPositionY s /\
  Player.gravity p.2 = Player.gravity s /\
  Player.jumpCoef p.2 = Player.jumpCoef s /\
  Player.jumpDistance p.2 = Player.jumpDistance s.
Proof. unfold BodyPlayer.update_move. by repeat case_match. Qed.

(** Claim C7, with the direction the code computes.  On a player whose
    [jumpTimer] is [t], [update] sets [jumpTimer] to [t + delta], then [position.y] to
    [lastGroundPositionY + gravity * (jumpTimer - jumpCoef)^2 - jumpDistance],
    and [moveDirectionY] to 1 when [jumpTimer - jumpCoef > 0] and to -1
    otherwise; it returns with these values when [fallTimer] is [false]. *)
Theorem player_jump_update (delta : num) (b : Body) (s : Player.t) (t : num) :
  Player.jumpTimer s = Some t ->
  let moved := BodyPlayer.update_move delta (b, s) in
  let jumped :=
    BodyPlayer.update_jump delta (moved.1, BodyPlayer.set_moveDirectionY 0 moved.2) in
  let y :=
    (Player.lastGroundPositionY s
     + Player.gravity s * Num.pow2 (t + delta - Player.jumpCoef s)
     - Player.jumpDistance s)%num in
  let dir := if Num.gtb (t + delta - Player.jumpCoef s)%num Num.zero then 1 else -1 in
  BodyPlayer.update delta b s
  = BodyPlayer.update_finish (BodyPlayer.update_fall delta jumped) /\
  Player.jumpTimer jumped.2 = Some (t + delta)%num /\
  vy (position jumped.1) = y /\
  Player.moveDirectionY jumped.2 = dir /\
  (Player.fallTimer s = None ->
   exists s',
     state (BodyPlayer.update delta b s) = IsPlayer s' /\
     Player.jumpTimer s' = Some (t + delta)%num /\
     vy (position (BodyPlayer.update delta b s)) = y /\
     Player.moveDirectionY s' = dir).
Proof.
  intros Hj. cbv zeta. unfold BodyPlayer.update.
  destruct (update_move_fields delta b s) as (M1 & M2 & M3 & M4 & M5 & M6).
  destruct (BodyPlayer.update_move delta (b, s)) as [b1 s1]. cbn [fst snd] in *.
  unfold BodyPlayer.update_jump.
  cbn [Player.jumpTimer BodyPlayer.set_moveDirectionY]. rewrite M1, Hj.
  cbn [fst snd position set_position set_isUpdated vy Player.jumpTimer
       Player.moveDirectionY Player.lastGroundPositionY Player.gravity
       Player.jumpCoef Player.jumpDistance BodyPlayer.set_jumpTimer
       BodyPlayer.set_moveDirectionY].
  rewrite M3, M4, M5, M6. split_and!; try reflexivity.
  intros Hf. unfold BodyPlayer.update_fall, BodyPlayer.update_finish.
  cbn [Player.fallTimer BodyPlayer.set_moveDirectionY BodyPlayer.set_jumpTimer].
  rewrite M2, Hf. cbn. eexists. split_and!; reflexivity.
Qed.

Lemma player_jump_update_witness :
  Player.jumpTimer (Sample.player_state Sample.jumper) = Some Sample.jumper_timer /\
  Player.fallTimer (Sample.player_state Sample.jumper) = None /\
  exists s',
    state (BodyPlayer.update (Num.ofZ 16) Sample.jumper (Sample.player_state Sample.jumper))
    = IsPlayer s' /\
    Player.jumpTimer s' = Some (Sample.jumper_timer + Num.ofZ 16)%num /\
    vy (position (BodyPlayer.update (Num.ofZ 16) Sample.jumper
                    (Sample.player_state Sample.jumper)))
    = (Player.lastGroundPositionY (Sample.player_state Sample.jumper)
       + Player.gravity (Sample.player_state Sample.jumper)
         * Num.pow2 (Sample.jumper_timer + Num.ofZ 16
                     - Player.jumpCoef (Sample.player_state Sample.jumper))
       - Player.jumpDistance (Sample.player_state Sample.jumper))%num /\
    Player.moveDirectionY s'
    = if Num.gtb (Sample.jumper_timer + Num.ofZ 16
                  - Player.jumpCoef (Sample.player_state Sample.jumper))%num Num.zero
      then 1 else -1.
Proof.
  assert (Player.jumpTimer (Sample.player_state Sample.jumper)
          = Some Sample.jumper_timer) as Hj by (vm_compute; reflexivity).
  assert (Player.fallTimer (Sample.player_state Sample.jumper) = None) as Hf
    by (vm_compute; reflexivity).
  split; [exact Hj|]. split; [exact Hf|].
  exact (proj2 (proj2 (proj2 (proj2
           (player_jump_update (Num.ofZ 16) Sample.jumper
              (Sample.player_state Sample.jumper) Sample.jumper_timer Hj)))) Hf).
Defined.

(** Claim C7, the direction is not the sign at the apex, where
    [jumpTimer = jumpCoef]:
    [moveDirectionY] is -1, and the sign of 0 is 0. *)
Lemma jump_direction_at_apex_is_not_sign :
  state Sample.jumper = IsPlayer (Sample.player_state Sample.jumper) /\
  Player.jumpTimer (Sample.player_state Sample.jumper) ≠ None /\
  state Sample.jumper_at_apex = IsPlayer (Sample.player_state Sample.jumper_at_apex) /\
  Num.eqb
    (Num.sign (default NaN (Player.jumpTimer (Sample.player_state Sample.jumper_at_apex))
               - Player.jumpCoef (Sample.player_state Sample.jumper_at_apex))%num)
    Num.zero = true /\
  Player.moveDirectionY (Sample.player_state Sample.jumper_at_apex) = -1.
Proof.
  split; [vm_compute; reflexivity|].
  split; [vm_compute; discriminate|].
  split; [vm_compute; reflexivity|].
  split; vm_compute; reflexivity.
Qed.

(** * grid.js: which bodies can collide, and the regions of a rectangle *)

Lemma is_bullet_of_owner a b :
  is_bullet_of a b = true <-> ownerId_of a = Some (id b).
Proof.
  unfold is_bullet_of, ownerId_of. destruct (state a); try done.
  rewrite bool_decide_eq_true. split; [by intros ->|by intros [= ->]].
Qed.

Lemma canCollide_cases (a b : Body) :
  canCollide a b = true <->
  ((type a = STATIC /\ type b <> STATIC) \/ (type b = STATIC /\ type a <> STATIC) \/
   (type a = PLAYER /\ type b = BULLET) \/ (type a = BULLET /\ type b = PLAYER)) /\
  ownerId_of a <> Some (id b) /\ ownerId_of b <> Some (id a).
Proof.
  rewrite <- !is_bullet_of_owner. unfold canCollide.
  destruct (is_bullet_of a b), (is_bullet_of b a);
    unfold type; destruct (state a), (state b); cbn; naive_solver.
Qed.

(** X1.  [canCollide] holds exactly for a static body with a body that is
    not static and for a player with a bullet, in either order, provided
    neither body is a bullet owned by the other. *)
Theorem canCollide_table (a b : Body) :
  canCollide a b = true <->
  ((type a = STATIC /\ type b <> STATIC) \/ (type b = STATIC /\ type a <> STATIC) \/
   (type a = PLAYER /\ type b = BULLET) \/ (type a = BULLET /\ type b = PLAYER)) /\
  ownerId_of a <> Some (id b) /\ ownerId_of b <> Some (id a).
Proof. apply canCollide_cases. Qed.

(** ** ToInt32 and the shift, on numbers within the 32-bit range *)

Lemma quot_nonneg_floor (q : Q) :
  0 <= Qnum q -> Z.quot (Qnum q) (Zpos (Qden q)) = Qfloor q.
Proof. destruct q as [n d]; cbn. intros Hn. by apply Z.quot_div_nonneg. Qed.

Lemma quot_nonpos_ceiling (q : Q) :
  Qnum q <= 0 -> Z.quot (Qnum q) (Zpos (Qden q)) = Qceiling q.
Proof.
  destruct q as [n d]; unfold Qceiling; cbn. intros Hn.
  rewrite <- (Z.opp_involutive n) at 1. rewrite Z.quot_opp_l by done.
  f_equal. apply Z.quot_div_nonneg; lia.
Qed.

Lemma Qnum_nonneg (q : Q) : 0 <= Qnum q <-> (0 <= q)%Q.
Proof. unfold Qle; cbn. lia. Qed.

Lemma quot_mono (p q : Q) :
  (p <= q)%Q ->
  Z.quot (Qnum p) (Zpos (Qden p)) <= Z.quot (Qnum q) (Zpos (Qden q)).
Proof.
  intros Hpq. destruct (Z_le_gt_dec 0 (Qnum p)) as [Hp|Hp].
  - assert (0 <= Qnum q) as Hq.
    { apply Qnum_nonneg. apply Qle_trans with p; [by apply Qnum_nonneg|done]. }
    rewrite !quot_nonneg_floor by done. by apply Qfloor_resp_le.
  - destruct (Z_le_gt_dec 0 (Qnum q)) as [Hq|Hq].
    + transitivity 0.
      * apply Z.quot_le_upper_bound; lia.
      * apply Z.quot_pos; lia.
    + rewrite !quot_nonpos_ceiling by lia. by apply Qceiling_resp_le.
Qed.

Lemma quot_inject_Z (z : Z) :
  Z.quot (Qnum (inject_Z z)) (Zpos (Qden (inject_Z z))) = z.
Proof. cbn. apply Z.quot_1_r. Qed.

Lemma wrap32_small (z : Z) : - 2 ^ 31 <= z < 2 ^ 31 -> Num.wrap32 z = z.
Proof. intros Hz. unfold Num.wrap32. rewrite Z.mod_small; lia. Qed.

(** Within the 32-bit range, [v >> 9] is monotone in [v]. *)
Lemma shr_mono (p q : Qc) :
  (inject_Z (- 2 ^ 31) <= p)%Q -> (p <= q)%Q -> (q < inject_Z (2 ^ 31))%Q ->
  Num.shr (Fin p) regionsShift <= Num.shr (Fin q) regionsShift.
Proof.
  intros Hlo Hpq Hhi. unfold Num.shr, Num.ToInt32.
  pose proof (quot_mono _ _ Hlo) as Hlo'. rewrite quot_inject_Z in Hlo'.
  pose proof (quot_mono _ _ Hpq) as Hpq'.
  assert (Z.quot (Qnum q) (Zpos (Qden q)) < 2 ^ 31) as Hhi'.
  { destruct (Z_le_gt_dec 0 (Qnum q)) as [Hq|Hq].
    - rewrite quot_nonneg_floor by done. rewrite Zlt_Qlt.
      eapply Qle_lt_trans; [apply Qfloor_le|done].
    - eapply Z.le_lt_trans; [apply Z.quot_le_upper_bound with (q := 0); lia|done]. }
  rewrite !wrap32_small by lia.
  rewrite !Z.shiftr_div_pow2 by done. apply Z.div_le_mono; [done|lia].
Qed.

Lemma elem_of_getRegions bounds x y :
  (x, y) ∈ getRegions bounds <->
  Num.shr (vx (bmin bounds)) regionsShift <= x <= Num.shr (vx (bmax bounds)) regionsShift /\
  Num.shr (vy (bmin bounds)) regionsShift <= y <= Num.shr (vy (bmax bounds)) regionsShift.
Proof.
  unfold getRegions. rewrite list_elem_of_In, in_flat_map. split.
  - intros (y' & Hy%list_elem_of_In%elem_of_seqZ & Hx%list_elem_of_In).
    apply list_elem_of_fmap in Hx as (x' & [= -> ->] & Hx%elem_of_seqZ). lia.
  - intros [Hx Hy]. exists y. split.
    + apply list_elem_of_In, elem_of_seqZ. lia.
    + apply list_elem_of_In, list_elem_of_fmap. exists x. split; [done|].
      apply elem_of_seqZ. lia.
Qed.

(** X2.  [getRegions] lists exactly the regions whose two coordinates lie
    between those of the corners of the rectangle, shifted right by 9, and
    lists each of them once; it lists none when a corner coordinate of
    [max] shifts below that of [min]. *)
Theorem getRegions_lists_each_region_once (bounds : Bounds) :
  NoDup (getRegions bounds) /\
  forall x y,
    (x, y) ∈ getRegions bounds <->
    Num.shr (vx (bmin bounds)) regionsShift <= x <= Num.shr (vx (bmax bounds)) regionsShift /\
    Num.shr (vy (bmin bounds)) regionsShift <= y <= Num.shr (vy (bmax bounds)) regionsShift.
Proof. split; [apply NoDup_getRegions|apply elem_of_getRegions]. Qed.

(** X3.  For a rectangle with finite corners within the signed 32-bit
    range, the region of every point of the rectangle is among the regions
    [getRegions] returns. *)
Theorem getRegions_covers_bounds (minx miny maxx maxy px py : Qc) :
  (inject_Z (- 2 ^ 31) <= minx)%Q -> (maxx < inject_Z (2 ^ 31))%Q ->
  (inject_Z (- 2 ^ 31) <= miny)%Q -> (maxy < inject_Z (2 ^ 31))%Q ->
  (minx <= px)%Q -> (px <= maxx)%Q -> (miny <= py)%Q -> (py <= maxy)%Q ->
  (Num.shr (Fin px) regionsShift, Num.shr (Fin py) regionsShift)
  ∈ getRegions (mkBounds (mkVec (Fin minx) (Fin miny)) (mkVec (Fin maxx) (Fin maxy))).
Proof.
  intros Hx0 Hx1 Hy0 Hy1 Hpx0 Hpx1 Hpy0 Hpy1.
  apply elem_of_getRegions; cbn [bmin bmax vx vy]. split_and!.
  - apply shr_mono; [done|done|]. exact (Qle_lt_trans _ _ _ Hpx1 Hx1).
  - apply shr_mono; [|done|done]. exact (Qle_trans _ _ _ Hx0 Hpx0).
  - apply shr_mono; [done|done|]. exact (Qle_lt_trans _ _ _ Hpy1 Hy1).
  - apply shr_mono; [|done|done]. exact (Qle_trans _ _ _ Hy0 Hpy0).
Qed.

Lemma getRegions_covers_bounds_witness :
  (Num.shr (Num.ofZ 600) regionsShift, Num.shr (Num.ofZ (-20)) regionsShift)
  ∈ getRegions (mkBounds (mkVec (Num.ofZ 450) (Num.ofZ (-50)))
                         (mkVec (Num.ofZ 1100) (Num.ofZ 50))).
Proof.
  apply (getRegions_covers_bounds
           (Q2Qc (inject_Z 450)) (Q2Qc (inject_Z (-50)))
           (Q2Qc (inject_Z 1100)) (Q2Qc (inject_Z 50))
           (Q2Qc (inject_Z 600)) (Q2Qc (inject_Z (-20)))); by vm_compute.
Defined.

(** * The grid of a world: what [pairs] and [hash] hold *)

Lemma pair_count_elem_of g p :
  pairs_ok (Grid.pairs g) -> p ∈ Grid.pairs g -> pair_count g (pair_id p) = count p.
Proof.
  intros [Hnd _] Hp. unfold pair_count. by rewrite (pairs_lookup_elem_of _ _ Hnd Hp).
Qed.

Lemma shared_pos rho a b :
  0 < shared rho a b -> exists r, r ∈ rho a /\ r ∈ rho b.
Proof.
  unfold shared. intros Hpos.
  destruct (filter (fun r => r ∈ rho b) (rho a)) as [|r l] eqn:Hf; [cbn in Hpos; lia|].
  assert (r ∈ filter (fun r => r ∈ rho b) (rho a)) as Hr by (rewrite Hf; left).
  apply list_elem_of_filter in Hr as [? ?]. by exists r.
Qed.

Lemma shared_elem_of rho a b r :
  r ∈ rho a -> r ∈ rho b -> 0 < shared rho a b.
Proof.
  intros Ha Hb. unfold shared.
  assert (r ∈ filter (fun r => r ∈ rho b) (rho a)) as Hr
    by by apply list_elem_of_filter.
  destruct (filter (fun r => r ∈ rho b) (rho a)); [by apply elem_of_nil in Hr|].
  cbn. lia.
Qed.

Lemma grid_inv_pair_sound h g p :
  grid_inv h g -> p ∈ Grid.pairs g ->
  1 <= count p /\ pair_id p = getPairId (bodyA p) (bodyB p) /\ bodyA p <> bodyB p /\
  canCollide_ref h (bodyA p) (bodyB p) = true /\
  exists r, r ∈ regs h (bodyA p) /\ r ∈ regs h (bodyB p).
Proof.
  intros Hinv Hp. destruct (inv_pairs_ok _ _ _ Hinv) as [Hnd Hok].
  destruct (Hok p Hp) as (Hc & Hid & Hne). split_and!; try done.
  - pose proof (inv_count _ _ _ Hinv _ _ Hne) as Hcount.
    rewrite <- Hid, (pair_count_elem_of g p (inv_pairs_ok _ _ _ Hinv) Hp) in Hcount.
    destruct (canCollide_ref h (bodyA p) (bodyB p)); [done|lia].
  - pose proof (inv_count _ _ _ Hinv _ _ Hne) as Hcount.
    rewrite <- Hid, (pair_count_elem_of g p (inv_pairs_ok _ _ _ Hinv) Hp) in Hcount.
    destruct (canCollide_ref h (bodyA p) (bodyB p)); [|lia].
    apply shared_pos. lia.
Qed.

Lemma grid_inv_pair_complete h g a b r :
  grid_inv h g -> a <> b -> canCollide_ref h a b = true ->
  r ∈ regs h a -> r ∈ regs h b ->
  exists p, p ∈ Grid.pairs g /\ pair_id p = getPairId a b /\
    ((bodyA p = a /\ bodyB p = b) \/ (bodyA p = b /\ bodyB p = a)).
Proof.
  intros Hinv Hne Hcan Ha Hb.
  pose proof (inv_count _ _ _ Hinv _ _ Hne) as Hcount. rewrite Hcan in Hcount.
  pose proof (shared_elem_of _ _ _ _ Ha Hb) as Hpos.
  unfold pair_count in Hcount.
  destruct (Grid.pairs_lookup (getPairId a b) (Grid.pairs g)) as [p|] eqn:Hp; [|lia].
  apply pairs_lookup_Some in Hp as [Hin Hid]. exists p. split_and!; try done.
  destruct (inv_pairs_ok _ _ _ Hinv) as [_ Hok].
  destruct (Hok p Hin) as (_ & Hid' & _). rewrite Hid in Hid'.
  symmetry in Hid'. by apply getPairId_inj in Hid'.
Qed.

(** X4.  In every state a world can reach, the keys of [pairs] are distinct,
    and every entry has a count of at least 1, the key [getPairId] gives for
    its two bodies, two different bodies that [canCollide] accepts, and a
    region in which both bodies are registered. *)
Theorem pairs_hold_collidable_neighbours `{MathOps} (w : World.t) (p : Pair) :
  reachable w -> p ∈ Grid.pairs (World.broadphase w) ->
  NoDup (pair_id <$> Grid.pairs (World.broadphase w)) /\
  1 <= count p /\ pair_id p = getPairId (bodyA p) (bodyB p) /\ bodyA p <> bodyB p /\
  canCollide_ref (World.heap w) (bodyA p) (bodyB p) = true /\
  exists r, r ∈ regs (World.heap w) (bodyA p) /\ r ∈ regs (World.heap w) (bodyB p).
Proof.
  intros Hw%reachable_inv Hp. pose proof (winv_grid _ Hw) as Hinv. split.
  - apply (inv_pairs_ok _ _ _ Hinv).
  - by apply (grid_inv_pair_sound _ (World.broadphase w)).
Qed.

Lemma pairs_hold_collidable_neighbours_witness :
  NoDup (pair_id <$> Grid.pairs (World.broadphase Sample.shot_stepped)) /\
  1 <= count (mkPair (1, 2) 2 1 1) /\
  pair_id (mkPair (1, 2) 2 1 1) = getPairId 2 1 /\ 2 <> 1 /\
  canCollide_ref (World.heap Sample.shot_stepped) 2 1 = true /\
  exists r, r ∈ regs (World.heap Sample.shot_stepped) 2 /\
            r ∈ regs (World.heap Sample.shot_stepped) 1.
Proof.
  apply (@pairs_hold_collidable_neighbours sample_ops Sample.shot_stepped
           (mkPair (1, 2) 2 1 1)).
  - apply run_from_new_reachable. vm_compute. eexists. reflexivity.
  - vm_compute. left.
Defined.

(** X5.  In every state a world can reach, two different bodies that
    [canCollide] accepts and that are registered in a common region have an
    entry in [pairs], under the key [getPairId] gives for them. *)
Theorem broadphase_misses_no_pair `{MathOps} (w : World.t) (a b : Z) (r : Region) :
  reachable w -> a <> b -> canCollide_ref (World.heap w) a b = true ->
  r ∈ regs (World.heap w) a -> r ∈ regs (World.heap w) b ->
  exists p, p ∈ Grid.pairs (World.broadphase w) /\ pair_id p = getPairId a b /\
    ((bodyA p = a /\ bodyB p = b) \/ (bodyA p = b /\ bodyB p = a)).
Proof.
  intros Hw%reachable_inv. apply grid_inv_pair_complete, Hw.
Qed.

Lemma broadphase_misses_no_pair_witness :
  exists p, p ∈ Grid.pairs (World.broadphase Sample.shot_stepped) /\
    pair_id p = getPairId 1 2 /\
    ((bodyA p = 1 /\ bodyB p = 2) \/ (bodyA p = 2 /\ bodyB p = 1)).
Proof.
  apply (@broadphase_misses_no_pair sample_ops Sample.shot_stepped 1 2 (0, 0)).
  - apply run_from_new_reachable. vm_compute. eexists. reflexivity.
  - done.
  - vm_compute. reflexivity.
  - apply (bool_decide_unpack _). vm_compute. exact I.
  - apply (bool_decide_unpack _). vm_compute. exact I.
Defined.

(** X6.  In every state a world can reach, the list [hash] keeps for a
    region holds no body twice, and holds a body exactly when the region is
    among the [regions] stored in that body. *)
Theorem hash_holds_registered_bodies `{MathOps} (w : World.t) (r : Region) (o : Z) :
  reachable w ->
  NoDup (Grid.hash_at (World.broadphase w) r) /\
  (o ∈ Grid.hash_at (World.broadphase w) r <-> r ∈ regs (World.heap w) o).
Proof.
  intros Hw%reachable_inv. pose proof (winv_grid _ Hw) as Hinv. split.
  - apply (inv_hash_nodup _ _ _ Hinv).
  - apply (inv_hash _ _ _ Hinv).
Qed.

Lemma hash_holds_registered_bodies_witness :
  NoDup (Grid.hash_at (World.broadphase Sample.shot_stepped) (0, 0)) /\
  (2 ∈ Grid.hash_at (World.broadphase Sample.shot_stepped) (0, 0) <->
   (0, 0) ∈ regs (World.heap Sample.shot_stepped) 2).
Proof.
  apply (@hash_holds_registered_bodies sample_ops Sample.shot_stepped (0, 0) 2).
  apply run_from_new_reachable. vm_compute. eexists. reflexivity.
Defined.

(** * world.js: the loop of [update] *)

Lemma Qceiling_eq (x : Q) (n : Z) :
  (inject_Z (n - 1) < x)%Q -> (x <= inject_Z n)%Q -> Qceiling x = n.
Proof.
  intros Hlo Hhi.
  pose proof (Qceiling_resp_le _ _ Hhi) as H1. rewrite Qceiling_Z in H1.
  pose proof (Qle_ceiling x) as H2.
  assert (inject_Z (n - 1) < inject_Z (Qceiling x))%Q as H3
    by (eapply Qlt_le_trans; done).
  rewrite <- Zlt_Qlt in H3. lia.
Qed.

Lemma Qceiling_minus_1 (x : Q) : Qceiling (x - 1) = Qceiling x - 1.
Proof.
  apply Qceiling_eq.
  - replace (Qceiling x - 1 - 1) with (Qceiling x - 1 + -1) by lia.
    rewrite inject_Z_plus. apply Qplus_lt_le_compat; [apply Qceiling_lt|done].
  - replace (Qceiling x - 1) with (Qceiling x + -1) by lia.
    rewrite inject_Z_plus. apply Qplus_le_compat; [apply Qle_ceiling|done].
Qed.

Lemma Qc_div_33 (d : Qc) : (this (d / Q2Qc (inject_Z 33))%Qc == d / 33)%Q.
Proof.
  unfold Qcdiv, Qcmult, Qcinv, Q2Qc. cbn [this]. rewrite !Qred_correct. done.
Qed.

Lemma ceil_div_maxDelta (d : Qc) :
  Num.ceil (Fin d / World.maxDelta)%num = Num.ofZ (Qceiling (d / 33)%Q).
Proof.
  unfold World.maxDelta, Num.ofZ, Num.div, Num.ceil, Num.ofZ.
  assert (Num.Qc_eqb (Q2Qc (inject_Z 33)) (Q2Qc 0) = false) as -> by done.
  do 3 f_equal. apply Qceiling_comp, Qc_div_33.
Qed.

Lemma Qc_ltb_ofZ (k : Z) : Num.Qc_ltb (Q2Qc (inject_Z k)) 0 = bool_decide (k < 0).
Proof.
  unfold Num.Qc_ltb. apply bool_decide_ext.
  unfold Qclt, Q2Qc. cbn [this]. rewrite !Qred_correct.
  change 0%Q with (inject_Z 0). by rewrite <- Zlt_Qlt.
Qed.

(** [update] on a finite delta, by the number of steps. *)
Lemma update_Fin `{MathOps} (d : Qc) (w : World.t) :
  World.update (Fin d) w
  = if bool_decide (Qceiling (d / 33)%Q < 0) then None
    else Some (World.update_loop (Z.to_nat (Qceiling (d / 33)%Q)) (Fin d) w []).
Proof.
  unfold World.update. rewrite ceil_div_maxDelta. unfold Num.ofZ.
  by rewrite Qc_ltb_ofZ, Qceiling_Q2Qc, Qceiling_Z.
Qed.

(** The sensors collected before a run of the loop stay in front. *)
Lemma update_loop_sensors `{MathOps} n delta w sensors :
  World.update_loop n delta w sensors
  = ((World.update_loop n delta w []).1, sensors ++ (World.update_loop n delta w []).2).
Proof.
  revert delta w sensors. induction n as [|n IH]; intros delta w sensors; cbn.
  - by rewrite app_nil_r.
  - destruct (Num.ltb delta World.maxDelta);
      destruct (World._update _ w) as [w1 s1];
      rewrite IH, (IH _ _ ([] ++ s1)); cbn; by rewrite app_assoc.
Qed.

(** X7.  With a delta of 33 ms or more and below [2^53], the range in which
    [delta - 33] is computed without rounding, [update] runs one sub-step of
    33 ms and goes on as [update] does with the rest of the delta; the
    sensors of that sub-step come first in the list returned. *)
Theorem update_splits_off_a_full_step `{MathOps} (d : Qc) (w : World.t) :
  (inject_Z 33 <= d)%Q -> (d < Num.exact_bound)%Qc ->
  World.update (Fin d) w
  = match World.update (Fin d - World.maxDelta)%num
            (World._update World.maxDelta w).1 with
    | Some (w2, s2) => Some (w2, (World._update World.maxDelta w).2 ++ s2)
    | None => None
    end.
Proof.
  intros Hd _.
  assert (Fin d - World.maxDelta = Fin (d - Q2Qc (inject_Z 33))%Qc)%num as Hsub by done.
  rewrite Hsub, !update_Fin.
  assert (Qceiling ((d - Q2Qc (inject_Z 33))%Qc / 33) = Qceiling (d / 33) - 1) as ->.
  { rewrite <- Qceiling_minus_1. apply Qceiling_comp.
    unfold Qcminus, Qcplus, Qcopp, Q2Qc. cbn [this]. rewrite !Qred_correct. field. }
  assert (1 <= Qceiling (d / 33)) as Hk.
  { assert (Qceiling (inject_Z 1) <= Qceiling (d / 33)) as Hle; [|by rewrite Qceiling_Z in Hle].
    apply Qceiling_resp_le, Qle_shift_div_l; [done|]. by rewrite Qmult_1_l. }
  rewrite !bool_decide_eq_false_2 by lia.
  replace (Z.to_nat (Qceiling (d / 33))) with (S (Z.to_nat (Qceiling (d / 33) - 1)))
    by lia.
  cbn [World.update_loop].
  assert (Num.ltb (Fin d) World.maxDelta = false) as ->.
  { cbn. apply bool_decide_eq_false_2. intros Hlt. apply Qlt_not_le in Hlt.
    apply Hlt. unfold Q2Qc. cbn [this]. by rewrite Qred_correct. }
  rewrite Hsub. destruct (World._update World.maxDelta w) as [w1 s1]. cbn [fst snd].
  rewrite update_loop_sensors. by destruct (World.update_loop _ _ w1 []).
Qed.

Lemma update_splits_off_a_full_step_witness :
  @World.update sample_ops (Num.ofZ 70) Sample.shot
  = match @World.update sample_ops (Num.ofZ 70 - World.maxDelta)%num
            (@World._update sample_ops World.maxDelta Sample.shot).1 with
    | Some (w2, s2) =>
        Some (w2, (@World._update sample_ops World.maxDelta Sample.shot).2 ++ s2)
    | None => None
    end.
Proof.
  apply (@update_splits_off_a_full_step sample_ops (Q2Qc (inject_Z 70)) Sample.shot);
    by vm_compute.
Defined.

(** X8.  [update] runs no sub-step, returns no sensor and leaves the world
    as it was when the delta is NaN or lies above -33 and at or below 0. *)
Theorem update_without_steps `{MathOps} (delta : num) (w : World.t) :
  delta = NaN \/
  (Num.ltb (Num.ofZ (-33)) delta = true /\ Num.leb delta Num.zero = true) ->
  World.update delta w = Some (w, []).
Proof.
  intros [->|[Hlo Hhi]]; [done|].
  destruct delta as [d| | |]; try done.
  assert (inject_Z (-33) < d)%Q as Hlo'.
  { apply Qc_ltb_true in Hlo. unfold Qclt, Q2Qc in Hlo. cbn [this] in Hlo.
    by rewrite Qred_correct in Hlo. }
  assert (d <= 0)%Q as Hhi'.
  { unfold Num.leb in Hhi. apply orb_true_iff in Hhi as [Hlt|Heq].
    - cbn in Hlt. apply Qc_ltb_true in Hlt. by apply Qlt_le_weak.
    - cbn in Heq. apply Qc_eqb_true in Heq. by rewrite Heq. }
  rewrite update_Fin.
  assert (Qceiling (d / 33) = 0) as ->; [|done].
  apply Qceiling_eq.
  - apply Qlt_shift_div_l; [done|]. exact Hlo'.
  - apply Qle_shift_div_r; [done|]. by rewrite Qmult_0_l.
Qed.

Lemma update_without_steps_witness :
  @World.update sample_ops (Num.ofZ (-16)) Sample.shot = Some (Sample.shot, []).
Proof.
  apply (@update_without_steps sample_ops (Num.ofZ (-16)) Sample.shot).
  right. by vm_compute.
Defined.

(** X9.  The loop of [update] never ends when the delta is infinite or at
    most -33: the step counter starts below zero, or infinite, and only
    moves away from zero. *)
Theorem update_does_not_return `{MathOps} (delta : num) (w : World.t) :
  delta = PInf \/ delta = NInf \/ Num.leb delta (Num.ofZ (-33)) = true ->
  World.update delta w = None.
Proof.
  intros [->|[->|Hhi]]; [done|done|].
  destruct delta as [d| | |]; try done.
  assert (d <= inject_Z (-33))%Q as Hhi'.
  { unfold Num.leb in Hhi. apply orb_true_iff in Hhi as [Hlt|Heq].
    - cbn in Hlt. apply Qc_ltb_true in Hlt. unfold Qclt, Q2Qc in Hlt. cbn [this] in Hlt.
      rewrite Qred_correct in Hlt. by apply Qlt_le_weak.
    - cbn in Heq. apply Qc_eqb_true in Heq. rewrite Heq. unfold Q2Qc. cbn [this].
      by rewrite Qred_correct. }
  rewrite update_Fin.
  assert (Qceiling (d / 33) <= -1) as Hk; [|by rewrite bool_decide_eq_true_2 by lia].
  assert (Qceiling (d / 33) <= Qceiling (inject_Z (-1))) as Hle;
    [|by rewrite Qceiling_Z in Hle].
  apply Qceiling_resp_le, Qle_shift_div_r; [done|]. exact Hhi'.
Qed.

Lemma update_does_not_return_witness :
  @World.update sample_ops (Num.ofZ (-40)) Sample.shot = None.
Proof.
  apply (@update_does_not_return sample_ops (Num.ofZ (-40)) Sample.shot).
  right. right. by vm_compute.
Defined.

(** * The bodies *)

(** ** bullet.js *)

Lemma Qclt_irrefl (p : Qc) : (p < p)%Qc -> False.
Proof. intros H. by apply (Qclt_not_eq _ _ H). Qed.

Lemma Qclt_asym (p q : Qc) : (p < q)%Qc -> (q < p)%Qc -> False.
Proof. intros H1 H2. by apply (Qclt_irrefl p), Qclt_trans with q. Qed.

Ltac num_order :=
  cbn; try done; unfold Num.Qc_ltb; repeat case_bool_decide; cbn; try done;
  unfold Num.Qc_ltb; repeat case_bool_decide; try done;
  exfalso; by eauto using Qclt_asym, Qclt_irrefl.

(** No number is below the minimum it was taken in, nor above the maximum. *)
Lemma ltb_min_l a b : Num.ltb a (Num.min a b) = false.
Proof. destruct a as [p| | |], b as [q| | |]; num_order. Qed.

Lemma ltb_min_r a b : Num.ltb b (Num.min a b) = false.
Proof. destruct a as [p| | |], b as [q| | |]; num_order. Qed.

Lemma ltb_max_l a b : Num.ltb (Num.max a b) a = false.
Proof. destruct a as [p| | |], b as [q| | |]; num_order. Qed.

Lemma ltb_max_r a b : Num.ltb (Num.max a b) b = false.
Proof. destruct a as [p| | |], b as [q| | |]; num_order. Qed.

Lemma bullet_bounds_hold_both_positions this s :
  isOutOfRegion (position this) (bounds (BodyBullet._updateBounds this s)) = false /\
  isOutOfRegion (Bullet.prevPosition s) (bounds (BodyBullet._updateBounds this s))
  = false.
Proof.
  unfold isOutOfRegion, BodyBullet._updateBounds, Num.gtb. cbn.
  by rewrite !ltb_min_l, !ltb_min_r, !ltb_max_l, !ltb_max_r.
Qed.

(** X11.  [update] of a bullet either leaves the queue alone and sets the
    bounds to a rectangle that holds both the position the bullet had and
    the position it has now, or it finds the bullet at the end of its long
    of life, queues it once, and leaves its bounds alone. *)
Theorem bullet_bounds_span_the_step `{MathOps} (delta : num) (b : Body)
    (s : Bullet.t) (queue : list Z) :
  let r := BodyBullet.update delta b s queue in
  (r.2 = queue /\
   isOutOfRegion (position b) (bounds r.1) = false /\
   isOutOfRegion (position r.1) (bounds r.1) = false) \/
  (r.2 = queue ++ [id b] /\ bounds r.1 = bounds b /\ Bullet.longOfLife s <> None).
Proof.
  cbn zeta. unfold BodyBullet.update.
  destruct (Bullet.longOfLife s) as [life|]; [destruct (Num.geb _ _)|].
  - right. by cbn.
  - left. cbn [fst snd]. split; [done|].
    match goal with
    | |- context [BodyBullet._updateBounds ?t ?u] =>
        destruct (bullet_bounds_hold_both_positions t u) as [H1 H2]
    end.
    split; [exact H2|exact H1].
  - left. cbn [fst snd]. split; [done|].
    match goal with
    | |- context [BodyBullet._updateBounds ?t ?u] =>
        destruct (bullet_bounds_hold_both_positions t u) as [H1 H2]
    end.
    split; [exact H2|exact H1].
Qed.

(** ** player.js *)









(** Each part of [update] keeps [normalBounds], and marks the body as
    updated or leaves it as it is. *)
Lemma update_move_marks delta b s :
  Player.normalBounds (BodyPlayer.update_move delta (b, s)).2 = Player.normalBounds s /\
  (isUpdated (BodyPlayer.update_move delta (b, s)).1 = true \/
   (BodyPlayer.update_move delta (b, s)).1 = b).
Proof.
  unfold BodyPlayer.update_move.
  destruct (Num.truthy (Player.forceX s)); [|by split; [|right]].
  destruct (Player.isOnGround s); (split; [done|by left]).
Qed.

Lemma update_jump_marks delta b s :
  Player.normalBounds (BodyPlayer.update_jump delta (b, s)).2 = Player.normalBounds s /\
  (isUpdated (BodyPlayer.update_jump delta (b, s)).1 = true \/
   (BodyPlayer.update_jump delta (b, s)).1 = b).
Proof.
  unfold BodyPlayer.update_jump.
  destruct (Player.jumpTimer s); [|by split; [|right]]. split; [done|by left].
Qed.

Lemma update_fall_marks delta b s :
  Player.normalBounds (BodyPlayer.update_fall delta (b, s)).2 = Player.normalBounds s /\
  (isUpdated (BodyPlayer.update_fall delta (b, s)).1 = true \/
   (BodyPlayer.update_fall delta (b, s)).1 = b).
Proof.
  unfold BodyPlayer.update_fall.
  destruct (Player.fallTimer s); [|by split; [|right]].
  destruct (negb (Player.isOnGround s)); [|by split; [|right]]. split; [done|by left].
Qed.

Lemma player_updateBounds_idem b s s' :
  Player.normalBounds s' = Player.normalBounds s ->
  BodyPlayer._updateBounds (BodyPlayer._updateBounds b s) s' = BodyPlayer._updateBounds b s.
Proof. intros Hn. unfold BodyPlayer._updateBounds. cbn. by rewrite Hn. Qed.

Lemma player_updateBounds_state b s s' t :
  Player.normalBounds s' = Player.normalBounds s ->
  BodyPlayer._updateBounds (set_state t b) s' = set_state t (BodyPlayer._updateBounds b s).
Proof. intros Hn. unfold BodyPlayer._updateBounds. cbn. by rewrite Hn. Qed.

(** X14.  After [update], the bounds of a player are its [normalBounds]
    moved to its position, provided they were so before or the player was
    marked as updated, as [setPosition] marks it. *)
Theorem player_bounds_follow_position (delta : num) (b : Body) (s s' : Player.t) :
  state b = IsPlayer s ->
  isUpdated b = true \/ BodyPlayer._updateBounds b s = b ->
  state (BodyPlayer.update delta b s) = IsPlayer s' ->
  BodyPlayer._updateBounds (BodyPlayer.update delta b s) s'
  = BodyPlayer.update delta b s.
Proof.
  intros Hs Hsync. unfold BodyPlayer.update.
  destruct (update_move_marks delta b s) as [N1 U1].
  destruct (BodyPlayer.update_move delta (b, s)) as [b1 s1]. cbn [fst snd] in *.
  destruct (update_jump_marks delta b1 (BodyPlayer.set_moveDirectionY 0 s1)) as [N2 U2].
  destruct (BodyPlayer.update_jump delta _) as [b2 s2]. cbn [fst snd] in *.
  destruct (update_fall_marks delta b2 s2) as [N3 U3].
  destruct (BodyPlayer.update_fall delta _) as [b3 s3]. cbn [fst snd] in *.
  cbn [Player.normalBounds BodyPlayer.set_moveDirectionY] in N2.
  assert (Player.normalBounds s3 = Player.normalBounds s) as N by congruence.
  assert (isUpdated b3 = true \/ b3 = b) as U.
  { destruct U3 as [?| ->]; [by left|]. destruct U2 as [?| ->]; [by left|]. done. }
  unfold BodyPlayer.update_finish. cbn [isUpdated set_state].
  destruct (isUpdated b3) eqn:Hu.
  - unfold BodyPlayer._updateBounds at 2. cbn [state set_bounds set_state].
    intros [= <-]. by apply player_updateBounds_idem.
  - cbn [state set_state]. intros [= <-].
    destruct U as [?| ->]; [done|]. destruct Hsync as [?|Hsync]; [congruence|].
    rewrite (player_updateBounds_state b s s3) by done. by rewrite Hsync.
Qed.

Lemma player_bounds_follow_position_witness :
  BodyPlayer._updateBounds
    (BodyPlayer.update (Num.ofZ 16) Sample.jumper (Sample.player_state Sample.jumper))
    (Sample.player_state
       (BodyPlayer.update (Num.ofZ 16) Sample.jumper (Sample.player_state Sample.jumper)))
  = BodyPlayer.update (Num.ofZ 16) Sample.jumper (Sample.player_state Sample.jumper).
Proof.
  apply (player_bounds_follow_position (Num.ofZ 16) Sample.jumper
           (Sample.player_state Sample.jumper)).
  - vm_compute. reflexivity.
  - left. vm_compute. reflexivity.
  - vm_compute. reflexivity.
Defined.

(** ** bounce.js *)

(** What [updateCollision] does to the counter and the force of the X axis. *)
Lemma bounce_updateCollision_x correction b s :
  exists s',
    state (BodyBounce.updateCollision correction b s) = IsBounce s' /\
    position (BodyBounce.updateCollision correction b s) = position b /\
    fst (Bounce.countCollisionsFix s')
    = (if decide (fst (Bounce.countCollisionsFix s) < 3)
       then fst (Bounce.countCollisionsFix s) + 1
       else fst (Bounce.countCollisionsFix s)) /\
    (fst (Bounce.countCollisionsFix s) = 3 -> vx (Bounce.force s') = Num.zero).
Proof.
  unfold BodyBounce.updateCollision. eexists. split; [reflexivity|].
  split; [done|]. unfold BOUNCE_FIXES_LIMIT.X, BOUNCE_FIXES_LIMIT.Y.
  destruct s as [f g rs md [cx cy] nb]. cbn [Bounce.countCollisionsFix fst snd].
  destruct (Z.leb_spec cx 3), (Z.eqb_spec cx 3); case_decide; try lia;
    (split; [|intros ?; try lia]);
    cbn -[Num.add Num.mul Num.sub Num.neqb Num.sign Num.ltb Num.gtb];
    repeat (case_match; cbn -[Num.add Num.mul Num.sub Num.neqb Num.sign Num.ltb Num.gtb]);
    try done.
Qed.

Lemma Body_updateCollision_x correction b s :
  state b = IsBounce s ->
  exists s',
    state (Body_updateCollision correction b) = IsBounce s' /\
    position (Body_updateCollision correction b) = position b /\
    fst (Bounce.countCollisionsFix s')
    = (if decide (fst (Bounce.countCollisionsFix s) < 3)
       then fst (Bounce.countCollisionsFix s) + 1
       else fst (Bounce.countCollisionsFix s)) /\
    (fst (Bounce.countCollisionsFix s) = 3 -> vx (Bounce.force s') = Num.zero).
Proof.
  intros Hs. unfold Body_updateCollision. rewrite Hs. apply bounce_updateCollision_x.
Qed.

(** X15.  Four calls of [updateCollision] on a bounce body, whatever the
    corrections, leave the counter of the X axis at its limit and the force
    along X at zero, and [update] then no longer moves the body along X. *)
Theorem bounce_rests_sideways_after_four_collisions (b : Body) (s : Bounce.t)
    (c1 c2 c3 c4 : Vec) (delta : num) :
  state b = IsBounce s -> 0 <= fst (Bounce.countCollisionsFix s) <= 3 ->
  let b4 :=
    Body_updateCollision c4 (Body_updateCollision c3
      (Body_updateCollision c2 (Body_updateCollision c1 b))) in
  exists s4,
    state b4 = IsBounce s4 /\
    fst (Bounce.countCollisionsFix s4) = 3 /\
    vx (Bounce.force s4) = Num.zero /\
    vx (position (BodyBounce.update delta b4 s4)) = vx (position b4).
Proof.
  intros Hs Hc. cbn zeta.
  destruct (Body_updateCollision_x c1 b s Hs) as (s1 & Hs1 & _ & Hc1 & _).
  destruct (Body_updateCollision_x c2 _ s1 Hs1) as (s2 & Hs2 & _ & Hc2 & _).
  destruct (Body_updateCollision_x c3 _ s2 Hs2) as (s3 & Hs3 & _ & Hc3 & _).
  destruct (Body_updateCollision_x c4 _ s3 Hs3) as (s4 & Hs4 & _ & Hc4 & Hf4).
  assert (fst (Bounce.countCollisionsFix s3) = 3) as H3 by (repeat case_decide; lia).
  exists s4. split; [done|]. split; [rewrite Hc4; case_decide; lia|].
  split; [by apply Hf4|].
  assert (fst (Bounce.countCollisionsFix s4) = 3) as H4 by (rewrite Hc4; case_decide; lia).
  unfold BodyBounce.update. rewrite H4. unfold BOUNCE_FIXES_LIMIT.X.
  cbn [Z.ltb Z.compare Pos.compare Pos.compare_cont].
  destruct (snd (Bounce.countCollisionsFix s4) <? BOUNCE_FIXES_LIMIT.Y);
    cbn -[Num.add Num.mul]; repeat case_match; done.
Qed.

Lemma bounce_rests_sideways_after_four_collisions_witness :
  exists s4,
    state (Body_updateCollision (mkVec Num.one Num.zero)
             (Body_updateCollision (mkVec Num.one Num.zero)
                (Body_updateCollision (mkVec Num.one Num.zero)
                   (Body_updateCollision (mkVec Num.one Num.zero) Sample.ball_body))))
    = IsBounce s4 /\
    fst (Bounce.countCollisionsFix s4) = 3 /\
    vx (Bounce.force s4) = Num.zero /\
    vx (position
          (BodyBounce.update (Num.ofZ 16)
             (Body_updateCollision (mkVec Num.one Num.zero)
                (Body_updateCollision (mkVec Num.one Num.zero)
                   (Body_updateCollision (mkVec Num.one Num.zero)
                      (Body_updateCollision (mkVec Num.one Num.zero)
                         Sample.ball_body)))) s4))
    = vx (position
            (Body_updateCollision (mkVec Num.one Num.zero)
               (Body_updateCollision (mkVec Num.one Num.zero)
                  (Body_updateCollision (mkVec Num.one Num.zero)
                     (Body_updateCollision (mkVec Num.one Num.zero)
                        Sample.ball_body))))).
Proof.
  refine (bounce_rests_sideways_after_four_collisions Sample.ball_body _
            (mkVec Num.one Num.zero) (mkVec Num.one Num.zero)
            (mkVec Num.one Num.zero) (mkVec Num.one Num.zero) (Num.ofZ 16)
            eq_refl _).
  vm_compute. split; discriminate.
Defined.

(** * engine.js: the rectangle of intersection, the collisions, the fall *)

(** ** One axis of [getIntersection] *)

Lemma ltb_Fin_max (p : Qc) x y :
  Num.ltb (Fin p) x = false -> Num.ltb (Fin p) y = false ->
  Num.ltb (Fin p) (Num.max x y) = false.
Proof.
  destruct x, y; cbn; try done; intros;
    repeat match goal with |- context [if ?c then _ else _] => destruct c end;
    cbn; done.
Qed.

Lemma ltb_min_Fin (p : Qc) x y :
  Num.ltb x (Fin p) = false -> Num.ltb y (Fin p) = false ->
  Num.ltb (Num.min x y) (Fin p) = false.
Proof.
  destruct x, y; cbn; try done; intros;
    repeat match goal with |- context [if ?c then _ else _] => destruct c end;
    cbn; done.
Qed.

Lemma Qc_diff_neg (m M : Qc) : (m - M < 0)%Qc -> (m < M)%Qc.
Proof.
  intros H. apply Qclt_minus_iff. apply Qclt_minus_iff in H.
  replace (M + - m)%Qc with (0 + - (m - M))%Qc by ring. done.
Qed.

Lemma between_diff (p : Qc) m M :
  Num.ltb (Fin p) M = false -> Num.ltb m (Fin p) = false ->
  Num.ltb (m - M)%num Num.zero = false.
Proof.
  destruct m as [m| | |], M as [M| | |]; cbn; try done.
  unfold Num.Qc_ltb. intros HM%bool_decide_eq_false_1 Hm%bool_decide_eq_false_1.
  apply bool_decide_eq_false_2. intros Hlt%Qc_diff_neg.
  apply Qcnot_lt_le in HM, Hm.
  apply (Qcle_not_lt _ _ (Qcle_trans _ _ _ HM Hm)). done.
Qed.

Lemma axis_meets (p : Qc) amin amax bmin bmax :
  Num.ltb (Fin p) amin = false -> Num.ltb amax (Fin p) = false ->
  Num.ltb (Fin p) bmin = false -> Num.ltb bmax (Fin p) = false ->
  Num.ltb (Num.min amax bmax - Num.max amin bmin)%num Num.zero = false.
Proof.
  intros. apply (between_diff p); [by apply ltb_Fin_max|by apply ltb_min_Fin].
Qed.

(** X16.  Two rectangles that share a point with finite coordinates have a
    rectangle of intersection whose width and height are not negative:
    stage 4 does not skip their pair. *)
Theorem rectangles_sharing_a_point_are_not_skipped (a b : Bounds) (px py : Qc) :
  isOutOfRegion (mkVec (Fin px) (Fin py)) a = false ->
  isOutOfRegion (mkVec (Fin px) (Fin py)) b = false ->
  Num.ltb (width (getIntersection a b)) Num.zero
  || Num.ltb (height (getIntersection a b)) Num.zero = false.
Proof.
  unfold isOutOfRegion, Num.gtb. cbn [vx vy].
  intros (((Ha1 & Ha2)%orb_false_iff & Ha3)%orb_false_iff & Ha4)%orb_false_iff.
  intros (((Hb1 & Hb2)%orb_false_iff & Hb3)%orb_false_iff & Hb4)%orb_false_iff.
  unfold getIntersection. cbn [width height]. apply orb_false_iff.
  split; [by apply (axis_meets px)|by apply (axis_meets py)].
Qed.

Lemma rectangles_sharing_a_point_are_not_skipped_witness :
  Num.ltb (width (getIntersection (bounds Sample.walker_body) (bounds Sample.pad_body)))
    Num.zero
  || Num.ltb (height (getIntersection (bounds Sample.walker_body)
                        (bounds Sample.pad_body))) Num.zero = false.
Proof.
  apply (rectangles_sharing_a_point_are_not_skipped
           (bounds Sample.walker_body) (bounds Sample.pad_body)
           (Q2Qc (inject_Z 10)) (Q2Qc (inject_Z 0))); vm_compute; reflexivity.
Defined.

Lemma Qc_diff_nonneg (m M : Qc) : ~ (m - M < 0)%Qc -> (M <= m)%Qc.
Proof. intros H%Qcnot_lt_le. by apply Qcle_minus_iff. Qed.

Lemma axis_point (a0 a1 b0 b1 : Qc) :
  Num.ltb (Num.min (Fin a1) (Fin b1) - Num.max (Fin a0) (Fin b0))%num Num.zero = false ->
  exists p,
    Num.ltb (Fin p) (Fin a0) = false /\ Num.ltb (Fin a1) (Fin p) = false /\
    Num.ltb (Fin p) (Fin b0) = false /\ Num.ltb (Fin b1) (Fin p) = false.
Proof.
  cbn. unfold Num.Qc_ltb.
  destruct (bool_decide (b1 < a1)%Qc) eqn:H1, (bool_decide (a0 < b0)%Qc) eqn:H0;
    cbn; unfold Num.Qc_ltb;
    intros HmM%bool_decide_eq_false_1%Qc_diff_nonneg;
    [apply bool_decide_eq_true_1 in H1|apply bool_decide_eq_true_1 in H1
    |apply bool_decide_eq_false_1, Qcnot_lt_le in H1
    |apply bool_decide_eq_false_1, Qcnot_lt_le in H1];
    [apply bool_decide_eq_true_1 in H0|apply bool_decide_eq_false_1, Qcnot_lt_le in H0
    |apply bool_decide_eq_true_1 in H0|apply bool_decide_eq_false_1, Qcnot_lt_le in H0];
    [exists b0|exists a0|exists b0|exists a0];
    repeat split; apply bool_decide_eq_false_2, Qcle_not_lt;
    eauto 4 using Qcle_refl, Qclt_le_weak, Qcle_trans.
Qed.

(** X17.  For two rectangles with finite corners, a rectangle of
    intersection whose width and height are not negative means that the two
    rectangles share a point: stage 4 goes on only with pairs whose bounds
    touch or overlap. *)
Theorem pairs_not_skipped_share_a_point (ax0 ay0 ax1 ay1 bx0 by0 bx1 by1 : Qc) :
  let a := mkBounds (mkVec (Fin ax0) (Fin ay0)) (mkVec (Fin ax1) (Fin ay1)) in
  let b := mkBounds (mkVec (Fin bx0) (Fin by0)) (mkVec (Fin bx1) (Fin by1)) in
  Num.ltb (width (getIntersection a b)) Num.zero
  || Num.ltb (height (getIntersection a b)) Num.zero = false ->
  exists px py,
    isOutOfRegion (mkVec (Fin px) (Fin py)) a = false /\
    isOutOfRegion (mkVec (Fin px) (Fin py)) b = false.
Proof.
  cbn zeta. unfold getIntersection. cbn [width height bmin bmax vx vy].
  intros [Hx Hy]%orb_false_iff.
  destruct (axis_point _ _ _ _ Hx) as (px & Hx1 & Hx2 & Hx3 & Hx4).
  destruct (axis_point _ _ _ _ Hy) as (py & Hy1 & Hy2 & Hy3 & Hy4).
  exists px, py. unfold isOutOfRegion, Num.gtb. cbn [bmin bmax vx vy].
  by rewrite Hx1, Hx2, Hx3, Hx4, Hy1, Hy2, Hy3, Hy4.
Qed.

Lemma pairs_not_skipped_share_a_point_witness :
  exists px py,
    isOutOfRegion (mkVec (Fin px) (Fin py))
      (mkBounds (mkVec (Num.ofZ 10) (Num.ofZ (-5))) (mkVec (Num.ofZ 20) (Num.ofZ 5)))
    = false /\
    isOutOfRegion (mkVec (Fin px) (Fin py))
      (mkBounds (mkVec (Num.ofZ 0) (Num.ofZ (-5))) (mkVec (Num.ofZ 10) (Num.ofZ 5)))
    = false.
Proof.
  apply (pairs_not_skipped_share_a_point
           (Q2Qc (inject_Z 10)) (Q2Qc (inject_Z (-5)))
           (Q2Qc (inject_Z 20)) (Q2Qc (inject_Z 5))
           (Q2Qc (inject_Z 0)) (Q2Qc (inject_Z (-5)))
           (Q2Qc (inject_Z 10)) (Q2Qc (inject_Z 5))).
  vm_compute. reflexivity.
Defined.

(** ** The collisions of stage 4 *)

(** What [detectPair] puts on the list of collisions. *)
Lemma detectPair_collisions h d pair c :
  c ∈ collisions (detectPair h d pair) ->
  c ∈ collisions d \/
  exists A B,
    h !! bodyA pair = Some A /\ h !! bodyB pair = Some B /\
    c = mkCollision (bodyA pair) (bodyB pair) (getIntersection (bounds A) (bounds B)) /\
    isSensor A = false /\ isSensor B = false /\
    type A <> BULLET /\ type B <> BULLET /\
    Num.ltb (width (intersection c)) Num.zero = false /\
    Num.ltb (height (intersection c)) Num.zero = false.
Proof.
  unfold detectPair.
  destruct (h !! bodyA pair) as [A|] eqn:HA; [|by left].
  destruct (h !! bodyB pair) as [B|] eqn:HB; [|by left].
  destruct (Num.ltb (width _) _ || Num.ltb (height _) _) eqn:Hneg; [by left|].
  destruct (isSensor A || isSensor B) eqn:Hsens; [by left|].
  destruct (bool_decide (type A = BULLET) || bool_decide (type B = BULLET)) eqn:Hbul.
  { destruct (bool_decide (type A = BULLET)); by left. }
  cbn [collisions]. intros [Hc|Hc%list_elem_of_singleton]%elem_of_app; [by left|].
  right. exists A, B. subst c. cbn [intersection].
  apply orb_false_iff in Hneg as [? ?], Hsens as [? ?], Hbul as [HbA HbB].
  apply bool_decide_eq_false_1 in HbA, HbB. done.
Qed.

Lemma detectPairs_collisions h pairs d c :
  c ∈ collisions (foldl (detectPair h) d pairs) ->
  c ∈ collisions d \/
  exists pair A B,
    pair ∈ pairs /\
    h !! bodyA pair = Some A /\ h !! bodyB pair = Some B /\
    c = mkCollision (bodyA pair) (bodyB pair) (getIntersection (bounds A) (bounds B)) /\
    isSensor A = false /\ isSensor B = false /\
    type A <> BULLET /\ type B <> BULLET /\
    Num.ltb (width (intersection c)) Num.zero = false /\
    Num.ltb (height (intersection c)) Num.zero = false.
Proof.
  revert d. induction pairs as [|pair pairs IH]; intros d; cbn [foldl]; [by left|].
  intros [Hc|(p & A & B & Hp & H)]%IH.
  - apply detectPair_collisions in Hc as [Hc|(A & B & H)]; [by left|].
    right. exists pair, A, B. split; [left|done].
  - right. exists p, A, B. split; [by right|done].
Qed.

Lemma detectCollisions_collisions h pairs queue sensors0 :
  (detectCollisions h pairs queue sensors0).1.2
  = collisions (foldl (detectPair h) (mkDetected [] [] sensors0) pairs).
Proof. unfold detectCollisions. by destruct (foldl (resolveBullet h) _ _). Qed.

(** X18.  When every entry of [pairs] holds two bodies that [canCollide]
    accepts, as it does in the grid of a world, every collision stage 4
    hands to the correction of positions is between a static body that is
    not a sensor and a player or a bounce body, with the rectangle of
    intersection of their bounds, neither side of which is negative. *)
Theorem collisions_are_between_static_and_moving_bodies (h : Heap) (pairs : list Pair)
    (queue : list Z) (sensors0 : list Sensor) (c : Collision) :
  (forall p, p ∈ pairs -> canCollide_ref h (bodyA p) (bodyB p) = true) ->
  c ∈ (detectCollisions h pairs queue sensors0).1.2 ->
  exists A B,
    h !! collision_bodyA c = Some A /\ h !! collision_bodyB c = Some B /\
    isSensor A = false /\ isSensor B = false /\
    ((type A = STATIC /\ (type B = PLAYER \/ type B = BOUNCE)) \/
     (type B = STATIC /\ (type A = PLAYER \/ type A = BOUNCE))) /\
    intersection c = getIntersection (bounds A) (bounds B) /\
    Num.ltb (width (intersection c)) Num.zero = false /\
    Num.ltb (height (intersection c)) Num.zero = false.
Proof.
  intros Hcan. rewrite detectCollisions_collisions.
  intros [Hc|(p & A & B & Hp & HA & HB & -> & HsA & HsB & HbA & HbB & Hw & Hh)]
    %detectPairs_collisions; [by apply elem_of_nil in Hc|].
  exists A, B. cbn [collision_bodyA collision_bodyB intersection] in *.
  split_and!; try done.
  specialize (Hcan p Hp). unfold canCollide_ref in Hcan. rewrite HA, HB in Hcan.
  apply canCollide_cases in Hcan as [Hcases _].
  destruct (type A), (type B); naive_solver.
Qed.

Lemma collisions_are_between_static_and_moving_bodies_witness :
  exists A B,
    World.heap Sample.landing !! 2 = Some A /\ World.heap Sample.landing !! 1 = Some B /\
    isSensor A = false /\ isSensor B = false /\
    ((type A = STATIC /\ (type B = PLAYER \/ type B = BOUNCE)) \/
     (type B = STATIC /\ (type A = PLAYER \/ type A = BOUNCE))) /\
    mkIntersection (Num.ofZ 10) (Num.ofZ 3) = getIntersection (bounds A) (bounds B) /\
    Num.ltb (Num.ofZ 10) Num.zero = false /\
    Num.ltb (Num.ofZ 3) Num.zero = false.
Proof.
  apply (collisions_are_between_static_and_moving_bodies
           (World.heap Sample.landing) [mkPair (1, 2) 2 1 1] [] []
           (mkCollision 2 1 (mkIntersection (Num.ofZ 10) (Num.ofZ 3)))).
  - intros p ->%list_elem_of_singleton. vm_compute. reflexivity.
  - vm_compute. left.
Defined.

(** ** The fall of a player *)

Lemma afterUpdate_body_other h i j : i <> j -> afterUpdate_body h j !! i = h !! i.
Proof.
  intros Hne. unfold afterUpdate_body. repeat case_match; try done.
  by rewrite lookup_insert_ne.
Qed.

Lemma afterUpdate_body_timers h i b s :
  afterUpdate_body h i !! i = Some b -> state b = IsPlayer s ->
  Player.isOnGround s = true \/ Player.jumpTimer s <> None \/ Player.fallTimer s <> None.
Proof.
  unfold afterUpdate_body.
  destruct (h !! i) as [body|] eqn:Hb; [|by rewrite Hb].
  destruct (state body) as [|s0| |] eqn:Hs; try (rewrite Hb; intros [= <-]; congruence).
  destruct (negb (Player.isOnGround s0) && bool_decide (Player.jumpTimer s0 = None)
            && bool_decide (Player.fallTimer s0 = None)) eqn:Hc.
  - rewrite lookup_insert_eq. intros [= <-]. cbn. intros [= <-]. cbn. by right; right.
  - rewrite Hb. intros [= <-]. rewrite Hs. intros [= <-].
    apply andb_false_iff in Hc as [[Hc|Hc]%andb_false_iff|Hc].
    + left. by destruct (Player.isOnGround s0).
    + right; left. by apply bool_decide_eq_false_1 in Hc.
    + right; right. by apply bool_decide_eq_false_1 in Hc.
Qed.

Lemma afterUpdate_timers bodies h i b s :
  i ∈ bodies -> afterUpdate bodies h !! i = Some b -> state b = IsPlayer s ->
  Player.isOnGround s = true \/ Player.jumpTimer s <> None \/ Player.fallTimer s <> None.
Proof.
  unfold afterUpdate. revert h i b s.
  induction bodies as [|j bodies IH] using rev_ind; intros h i b s Hi;
    [by apply elem_of_nil in Hi|].
  rewrite foldl_app. cbn [foldl].
  destruct (decide (i = j)) as [->|Hne]; [apply afterUpdate_body_timers|].
  rewrite afterUpdate_body_other by done.
  apply IH. apply elem_of_app in Hi as [Hi|Hi%list_elem_of_singleton]; done.
Qed.

(** X19.  When a sub-step ends, every player of the world is on the ground
    or has its jump timer or its fall timer running: the last stage starts
    the fall of a player that is in the air without a timer. *)
Theorem no_player_is_left_in_the_air `{MathOps} (delta : num) (w : World.t)
    (i : Z) (b : Body) (s : Player.t) :
  i ∈ World.bodies (World._update delta w).1 ->
  World.heap (World._update delta w).1 !! i = Some b -> state b = IsPlayer s ->
  Player.isOnGround s = true \/ Player.jumpTimer s <> None \/ Player.fallTimer s <> None.
Proof.
  unfold World._update.
  destruct (removeBodies _ _ _) as [[h1 g1] bodies].
  destruct (Grid.update _ _) as [h2 g2].
  destruct (detectCollisions _ _ _ _) as [[q cs] ss]. cbn [fst World.bodies World.heap].
  apply afterUpdate_timers.
Qed.

Lemma no_player_is_left_in_the_air_witness :
  Player.isOnGround
    (Sample.player_state
       (default Sample.walker_body
          (World.heap (@World._update sample_ops (Num.ofZ 16) Sample.touching).1 !! 2)))
  = true \/
  Player.jumpTimer
    (Sample.player_state
       (default Sample.walker_body
          (World.heap (@World._update sample_ops (Num.ofZ 16) Sample.touching).1 !! 2)))
  <> None \/
  Player.fallTimer
    (Sample.player_state
       (default Sample.walker_body
          (World.heap (@World._update sample_ops (Num.ofZ 16) Sample.touching).1 !! 2)))
  <> None.
Proof.
  apply (@no_player_is_left_in_the_air sample_ops (Num.ofZ 16) Sample.touching 2
           (default Sample.walker_body
              (World.heap (@World._update sample_ops (Num.ofZ 16) Sample.touching).1
               !! 2))).
  - apply (bool_decide_unpack _). vm_compute. exact I.
  - vm_compute. reflexivity.
  - vm_compute. reflexivity.
Defined.

(** * world.js: the array [bodies], and what becomes of a removed body *)

(** ** The stages of a sub-step, one by one *)

Lemma World_update_stages `{MathOps} delta w :
  exists h2 g2 bodies2 h3 g3 queue collisions sensors,
    let st1 :=
      updatePositions delta (World.bodies w) (World.bounds w)
        (mkStage (World.heap w) (World.bodiesToRemove w) []) in
    removeBodies (World.bodies w) (st_bodiesToRemove st1) (st_heap st1, World.broadphase w)
    = (h2, g2, bodies2) /\
    Grid.update bodies2 (h2, g2) = (h3, g3) /\
    detectCollisions h3 (Grid.pairs g3) [] (st_sensors st1) = (queue, collisions, sensors) /\
    World._update delta w
    = (World.mk (World.bounds w) (World.gravity w) bodies2 queue g3
         (afterUpdate bodies2 (correctionPositions collisions h3)) (World.nextId w),
       sensors).
Proof.
  unfold World._update.
  destruct (removeBodies _ _ _) as [[h2 g2] bodies2].
  destruct (Grid.update _ _) as [h3 g3] eqn:Hg.
  destruct (detectCollisions _ _ _ _) as [[q cs] ss] eqn:Hd.
  by exists h2, g2, bodies2, h3, g3, q, cs, ss.
Qed.

(** ** The array [bodies] *)

Lemma removeBodies_bodies bodies queue st :
  (removeBodies bodies queue st).2 = foldl (fun bs b => splice_first b bs) bodies queue.
Proof.
  unfold removeBodies. revert bodies st.
  induction queue as [|b queue IH]; intros bodies st; cbn [foldl]; [done|].
  apply IH.
Qed.

Lemma splice_first_subseteq b l o : o ∈ splice_first b l -> o ∈ l.
Proof.
  induction l as [|x l IH]; cbn; [done|].
  case_decide; [by right|]. intros [->|?]%elem_of_cons; [left|right; auto].
Qed.

Lemma foldl_splice_first l queue :
  NoDup l ->
  NoDup (foldl (fun bs b => splice_first b bs) l queue) /\
  forall o, o ∈ foldl (fun bs b => splice_first b bs) l queue <-> o ∈ l /\ o ∉ queue.
Proof.
  revert l. induction queue as [|b queue IH]; intros l Hnd; cbn [foldl].
  - split; [done|]. intros o. split; [intros ?; split; [done|apply not_elem_of_nil]|].
    by intros [? _].
  - destruct (IH (splice_first b l) (NoDup_splice_first b l Hnd)) as [IH1 IH2].
    split; [done|]. intros o. rewrite IH2, elem_of_splice_first by done.
    rewrite not_elem_of_cons. naive_solver.
Qed.

Lemma updatePositions_queue `{MathOps} delta bodies worldBounds st b :
  b ∈ st_bodiesToRemove st ->
  b ∈ st_bodiesToRemove (updatePositions delta bodies worldBounds st).
Proof.
  unfold updatePositions. revert st.
  induction bodies as [|i bodies IH]; intros st Hb; cbn [foldl]; [done|].
  by apply IH, updatePosition_skips_queued.
Qed.

Lemma World_update_bodies `{MathOps} delta w :
  World.nextId (World._update delta w).1 = World.nextId w /\
  exists queue,
    (forall b, b ∈ World.bodiesToRemove w -> b ∈ queue) /\
    World.bodies (World._update delta w).1
    = foldl (fun bs b => splice_first b bs) (World.bodies w) queue.
Proof.
  destruct (World_update_stages delta w)
    as (h2 & g2 & bodies2 & h3 & g3 & q & cs & ss & Hrm & _ & _ & ->).
  cbn zeta in Hrm. cbn [fst World.nextId World.bodies]. split; [done|].
  pose proof (removeBodies_bodies (World.bodies w)
    (st_bodiesToRemove (updatePositions delta (World.bodies w) (World.bounds w)
       (mkStage (World.heap w) (World.bodiesToRemove w) [])))
    (st_heap (updatePositions delta (World.bodies w) (World.bounds w)
       (mkStage (World.heap w) (World.bodiesToRemove w) [])), World.broadphase w)) as B.
  rewrite Hrm in B. cbn [snd] in B.
  eexists. split; [|exact B].
  intros b Hb. by apply updatePositions_queue.
Qed.

Lemma World_update_bodies_inv `{MathOps} delta w :
  NoDup (World.bodies w) /\ (forall i, i ∈ World.bodies w -> 0 < i < World.nextId w) ->
  NoDup (World.bodies (World._update delta w).1) /\
  (forall i, i ∈ World.bodies (World._update delta w).1 ->
     0 < i < World.nextId (World._update delta w).1).
Proof.
  intros [Hnd Hlt].
  destruct (World_update_bodies delta w) as (-> & queue & _ & ->).
  destruct (foldl_splice_first (World.bodies w) queue Hnd) as [H1 H2].
  split; [done|]. intros i [Hi _]%H2. by apply Hlt.
Qed.

Lemma World_update_loop_bodies_inv `{MathOps} n delta w sensors :
  NoDup (World.bodies w) /\ (forall i, i ∈ World.bodies w -> 0 < i < World.nextId w) ->
  NoDup (World.bodies (World.update_loop n delta w sensors).1) /\
  (forall i, i ∈ World.bodies (World.update_loop n delta w sensors).1 ->
     0 < i < World.nextId (World.update_loop n delta w sensors).1).
Proof.
  revert delta w sensors. induction n as [|n IH]; intros delta w sensors Hw; [done|].
  cbn [World.update_loop].
  destruct (Num.ltb delta World.maxDelta);
    match goal with
    | |- context [World._update ?d w] =>
        pose proof (World_update_bodies_inv d w Hw) as Hw';
        destruct (World._update d w) as [w' s]
    end; by apply IH.
Qed.

Lemma push_body_bodies_inv (w : World.t) (r : Body * Z) :
  0 < World.nextId w ->
  id r.1 = World.nextId w /\ regions r.1 = None /\ fixes_within_limit r.1
  /\ r.2 = World.nextId w + 1 ->
  NoDup (World.bodies w) /\ (forall i, i ∈ World.bodies w -> 0 < i < World.nextId w) ->
  0 < World.nextId (World.push_body w r).1 /\
  NoDup (World.bodies (World.push_body w r).1) /\
  (forall i, i ∈ World.bodies (World.push_body w r).1 ->
     0 < i < World.nextId (World.push_body w r).1).
Proof.
  destruct r as [body nid]. cbn [fst snd]. intros Hpos (Hid & _ & _ & ->) [Hnd Hlt].
  unfold World.push_body. cbn [fst World.bodies World.nextId]. rewrite Hid.
  split; [lia|]. split.
  - apply NoDup_app. split_and!; [done| |apply NoDup_singleton].
    intros i Hi ->%list_elem_of_singleton. specialize (Hlt _ Hi). lia.
  - intros i [Hi| ->%list_elem_of_singleton]%elem_of_app; [specialize (Hlt _ Hi)|]; lia.
Qed.

Lemma on_player_bodies (f : Body -> Player.t -> Body) body w w' :
  on_player f body w = Some w' ->
  World.bodies w' = World.bodies w /\ World.nextId w' = World.nextId w /\
  World.bodiesToRemove w' = World.bodiesToRemove w.
Proof. unfold on_player. repeat case_match; try done. by intros [= <-]. Qed.

Lemma on_bounce_bodies (f : Body -> Bounce.t -> Body) body w w' :
  on_bounce f body w = Some w' ->
  World.bodies w' = World.bodies w /\ World.nextId w' = World.nextId w /\
  World.bodiesToRemove w' = World.bodiesToRemove w.
Proof. unfold on_bounce. repeat case_match; try done. by intros [= <-]. Qed.

Lemma World_update_loop_nextId `{MathOps} n delta w sensors :
  World.nextId (World.update_loop n delta w sensors).1 = World.nextId w.
Proof.
  revert delta w sensors. induction n as [|n IH]; intros delta w sensors; [done|].
  cbn [World.update_loop].
  destruct (Num.ltb delta World.maxDelta);
    match goal with
    | |- context [World._update ?d w] =>
        destruct (World_update_bodies d w) as [Hn _];
        destruct (World._update d w) as [w' s]
    end; rewrite IH; done.
Qed.

Lemma call_bodies_inv `{MathOps} c w w' :
  call c w = Some w' ->
  0 < World.nextId w /\ NoDup (World.bodies w) /\
  (forall i, i ∈ World.bodies w -> 0 < i < World.nextId w) ->
  0 < World.nextId w' /\ NoDup (World.bodies w') /\
  (forall i, i ∈ World.bodies w' -> 0 < i < World.nextId w').
Proof.
  intros Hc (Hpos & Hw). destruct c; cbn [call] in Hc.
  - apply (inj Some) in Hc. subst w'.
    by apply push_body_bodies_inv; [|apply BodyBullet_constructor_fresh|].
  - apply (inj Some) in Hc. subst w'.
    by apply push_body_bodies_inv; [|apply BodyBounce_constructor_fresh|].
  - apply (inj Some) in Hc. subst w'.
    by apply push_body_bodies_inv; [|apply BodyPlayer_constructor_fresh|].
  - apply (inj Some) in Hc. subst w'.
    by apply push_body_bodies_inv; [|apply BodyStatic_constructor_fresh|].
  - unfold World.update in Hc.
    destruct (Num.ceil _) as [q| | |]; cbn in Hc; try done.
    + destruct (Num.Qc_ltb q 0); cbn in Hc; [done|]. apply (inj Some) in Hc. subst w'.
      split; [by rewrite World_update_loop_nextId|].
      by apply World_update_loop_bodies_inv.
    + apply (inj Some) in Hc. by subst w'.
  - apply (inj Some) in Hc. by subst w'.
  - apply on_player_bodies in Hc as (-> & -> & _). done.
  - apply on_player_bodies in Hc as (-> & -> & _). done.
  - apply on_player_bodies in Hc as (-> & -> & _). done.
  - apply on_player_bodies in Hc as (-> & -> & _). done.
  - apply on_bounce_bodies in Hc as (-> & -> & _). done.
  - apply on_bounce_bodies in Hc as (-> & -> & _). done.
  - apply on_bounce_bodies in Hc as (-> & -> & _). done.
Qed.

Lemma run_bodies_inv `{MathOps} calls w w' :
  run calls w = Some w' ->
  0 < World.nextId w /\ NoDup (World.bodies w) /\
  (forall i, i ∈ World.bodies w -> 0 < i < World.nextId w) ->
  0 < World.nextId w' /\ NoDup (World.bodies w') /\
  (forall i, i ∈ World.bodies w' -> 0 < i < World.nextId w').
Proof.
  revert w. induction calls as [|c calls IH]; intros w; cbn [run].
  - by intros [= <-].
  - destruct (call c w) as [w1|] eqn:Hc; cbn; [|done].
    intros Hr Hw. eapply IH; [done|]. by eapply call_bodies_inv.
Qed.

Lemma reachable_bodies_inv `{MathOps} w :
  reachable w ->
  NoDup (World.bodies w) /\ (forall i, i ∈ World.bodies w -> 0 < i < World.nextId w).
Proof.
  intros (o & calls & Hr). eapply run_bodies_inv in Hr as (_ & ? & ?); [done|].
  cbn. split; [lia|]. split; [constructor|]. by intros i ?%elem_of_nil.
Qed.

(** X20.  In every state a world can reach, [bodies] lists no body twice,
    and the ids of the bodies it lists are positive and below the next id
    [getNextId] gives. *)
Theorem bodies_are_listed_once `{MathOps} (w : World.t) :
  reachable w ->
  NoDup (World.bodies w) /\
  forall i, i ∈ World.bodies w -> 0 < i < World.nextId w.
Proof. apply reachable_bodies_inv. Qed.

Lemma bodies_are_listed_once_witness :
  NoDup (World.bodies Sample.landing) /\
  forall i, i ∈ World.bodies Sample.landing -> 0 < i < World.nextId Sample.landing.
Proof.
  apply (@bodies_are_listed_once sample_ops Sample.landing).
  apply run_from_new_reachable. vm_compute. eexists. reflexivity.
Defined.

(** ** A body that stage 2 removes *)

(** Stage 1 queues every body it reports as out of the world. *)
Lemma updatePosition_outWorld `{MathOps} delta worldBounds st i :
  (forall b, SensorOutWorld b ∈ st_sensors st -> b ∈ st_bodiesToRemove st) ->
  forall b,
    SensorOutWorld b ∈ st_sensors (updatePosition delta worldBounds st i) ->
    b ∈ st_bodiesToRemove (updatePosition delta worldBounds st i).
Proof.
  intros Hst b. unfold updatePosition.
  destruct (st_heap st !! i) as [body|]; [|apply Hst].
  case_bool_decide; [apply Hst|].
  destruct (includes i (st_bodiesToRemove st)); [apply Hst|].
  pose proof (Body_update_queue delta body (st_bodiesToRemove st)) as Hq.
  destruct (Body_update delta body (st_bodiesToRemove st)) as [body' q]. cbn [snd] in Hq.
  destruct (isOutOfRegion _ _); cbn [st_sensors st_bodiesToRemove].
  - intros [Hb|[= ->]%list_elem_of_singleton]%elem_of_app.
    + apply elem_of_app. left. by apply Hq, Hst.
    + apply elem_of_app. right. left.
  - intros Hb. by apply Hq, Hst.
Qed.

Lemma updatePositions_outWorld `{MathOps} delta bodies worldBounds st :
  (forall b, SensorOutWorld b ∈ st_sensors st -> b ∈ st_bodiesToRemove st) ->
  forall b,
    SensorOutWorld b ∈ st_sensors (updatePositions delta bodies worldBounds st) ->
    b ∈ st_bodiesToRemove (updatePositions delta bodies worldBounds st).
Proof.
  unfold updatePositions. revert st.
  induction bodies as [|i bodies IH]; intros st Hst; cbn [foldl]; [done|].
  by apply IH, updatePosition_outWorld.
Qed.

(** Stage 4 adds records of overlaps and of hits only. *)
Lemma detectPair_sensors h d pair x :
  x ∈ sensors (detectPair h d pair) ->
  x ∈ sensors d \/ exists a b, x = SensorOverlap a b.
Proof.
  unfold detectPair. repeat case_match; cbn [sensors]; try (by left).
  intros [? | ->%list_elem_of_singleton]%elem_of_app; [by left|right; eauto].
Qed.

Lemma detectPairs_sensors h pairs d x :
  x ∈ sensors (foldl (detectPair h) d pairs) ->
  x ∈ sensors d \/ exists a b, x = SensorOverlap a b.
Proof.
  revert d. induction pairs as [|pair pairs IH]; intros d; cbn [foldl]; [by left|].
  intros [Hx|?]%IH; [|by right]. by apply detectPair_sensors in Hx.
Qed.

Lemma resolveBullet_sensors h st entry x :
  x ∈ (resolveBullet h st entry).2 ->
  x ∈ st.2 \/ exists a b p, x = SensorHit a b p.
Proof.
  unfold resolveBullet. destruct st as [q ss].
  destruct (state <$> h !! bt_bullet entry) as [[| | |s]|]; try (by left).
  destruct (HitResult.target _); [|by left]. cbn [snd].
  intros [? | ->%list_elem_of_singleton]%elem_of_app; [by left|right; eauto].
Qed.

Lemma resolveBullets_sensors h entries st x :
  x ∈ (foldl (resolveBullet h) st entries).2 ->
  x ∈ st.2 \/ exists a b p, x = SensorHit a b p.
Proof.
  revert st. induction entries as [|e entries IH]; intros st; cbn [foldl]; [by left|].
  intros [Hx|?]%IH; [|by right]. by apply resolveBullet_sensors in Hx.
Qed.

Lemma detectCollisions_outWorld h pairs queue sensors0 b :
  SensorOutWorld b ∈ (detectCollisions h pairs queue sensors0).2 ->
  SensorOutWorld b ∈ sensors0.
Proof.
  unfold detectCollisions.
  destruct (foldl (resolveBullet h) _ _) as [q ss] eqn:Hr. cbn [snd].
  intros Hx. assert (SensorOutWorld b ∈ (foldl (resolveBullet h)
    (queue, sensors (foldl (detectPair h) (mkDetected [] [] sensors0) pairs))
    (bulletsTargets (foldl (detectPair h) (mkDetected [] [] sensors0) pairs))).2) as Hx'
    by by rewrite Hr.
  apply resolveBullets_sensors in Hx' as [Hx'|(? & ? & ? & [=])]. cbn [snd] in Hx'.
  by apply detectPairs_sensors in Hx' as [Hx'|(? & ? & [=])].
Qed.

(** What [removeBody] of the grid does to the regions stored in the bodies. *)
Lemma Grid_removeBody_regs h g c o :
  grid_inv h g ->
  regs (Grid.removeBody c (h, g)).1 o = if decide (o = c) then [] else regs h o.
Proof.
  intros Hinv. unfold Grid.removeBody.
  destruct (h !! c) as [body|] eqn:HB; cbn [fst].
  - destruct (regions body) as [rs|] eqn:Hreg; cbn [fst].
    + cbn [id set_regions set_regionsString]. rewrite (inv_ids _ _ _ Hinv _ _ HB).
      rewrite regs_insert. by case_decide.
    + case_decide as Ho; [|done]. subst o. unfold regs. by rewrite HB, Hreg.
  - case_decide as Ho; [|done]. subst o. unfold regs. by rewrite HB.
Qed.

Lemma removeBodies_regs queue bodies st o :
  grid_inv st.1 st.2 -> o ∈ queue ->
  regs (removeBodies bodies queue st).1.1 o = [].
Proof.
  unfold removeBodies. revert bodies st.
  induction queue as [|c queue IH]; intros bodies [h g] Hinv Ho; cbn [foldl];
    [by apply elem_of_nil in Ho|].
  cbn [fst snd] in Hinv.
  pose proof (Grid_removeBody_inv h g c Hinv) as Hinv'.
  destruct (decide (o ∈ queue)) as [Hin|Hnin]; [by apply IH|].
  apply elem_of_cons in Ho as [->|?]; [|done].
  pose proof (Grid_removeBody_regs h g c c Hinv) as Hr. rewrite decide_True in Hr by done.
  clear IH. revert Hinv' Hr. generalize (Grid.removeBody c (h, g)).
  generalize (splice_first c bodies). clear Hinv.
  induction queue as [|d queue IH]; intros bs st Hinv Hr; cbn [foldl]; [done|].
  apply not_elem_of_cons in Hnin as [Hne Hnin]. destruct st as [h' g'].
  apply IH; [done|by apply Grid_removeBody_inv|].
  rewrite Grid_removeBody_regs by done. by rewrite decide_False.
Qed.

(** The grid touches the body it is given and no other. *)
Lemma Grid_update_body_other st i o :
  grid_inv st.1 st.2 -> o <> i -> (Grid.update_body st i).1 !! o = st.1 !! o.
Proof.
  destruct st as [h g]. cbn [fst snd]. intros Hinv Hne. unfold Grid.update_body.
  cbn [fst snd]. destruct (h !! i) as [body|] eqn:HB; [|done].
  pose proof (inv_ids _ _ _ Hinv _ _ HB) as Hid.
  destruct (regions body) as [old|] eqn:Hreg.
  - case_bool_decide; [done|]. destruct (isUpdated body); [|done].
    set (body' := if bool_decide (type body ≠ BULLET) then set_isUpdated false body
                  else body).
    assert (id body' = i) as Hid' by (unfold body'; by case_bool_decide).
    rewrite Hid'. case_bool_decide.
    + unfold Grid._updateBody. cbn [fst id set_regions set_regionsString].
      rewrite Hid'. by rewrite !lookup_insert_ne.
    + cbn [fst]. by rewrite lookup_insert_ne.
  - unfold Grid._addBody. cbn [fst].
    set (body' := if bool_decide _ then _ else _).
    assert (id body' = i) as Hid' by (unfold body'; by case_bool_decide).
    rewrite Hid'. by rewrite lookup_insert_ne.
Qed.

Lemma Grid_update_other bodies st o :
  grid_inv st.1 st.2 -> o ∉ bodies -> (Grid.update bodies st).1 !! o = st.1 !! o.
Proof.
  unfold Grid.update. revert st.
  induction bodies as [|i bodies IH]; intros st Hinv Ho; cbn [foldl]; [done|].
  apply not_elem_of_cons in Ho as [Hne Ho].
  rewrite IH; [by apply Grid_update_body_other|by apply Grid_update_body_inv|done].
Qed.

Lemma regs_frame h h' o : heap_rel body_frame h h' -> regs h' o = regs h o.
Proof.
  intros Hrel. specialize (Hrel o). unfold regs.
  destruct (h !! o), (h' !! o); try done. by destruct Hrel as (_ & -> & _).
Qed.

Lemma removed_body_is_gone `{MathOps} delta w b :
  world_inv w -> NoDup (World.bodies w) ->
  b ∈ World.bodiesToRemove w \/ SensorOutWorld b ∈ (World._update delta w).2 ->
  (b ∉ World.bodies (World._update delta w).1) /\
  regs (World.heap (World._update delta w).1) b = [].
Proof.
  intros Hw Hnd Hb.
  destruct (World_update_stages delta w)
    as (h2 & g2 & bodies2 & h3 & g3 & q & cs & ss & Hrm & Hgu & Hdc & Hup).
  cbn zeta in Hrm, Hdc. rewrite Hup in Hb |- *. cbn [fst snd World.bodies World.heap] in *.
  set (st0 := mkStage (World.heap w) (World.bodiesToRemove w) []) in *.
  set (st1 := updatePositions delta (World.bodies w) (World.bounds w) st0) in *.
  assert (b ∈ st_bodiesToRemove st1) as Hq.
  { destruct Hb as [Hb|Hb]; [by apply updatePositions_queue|].
    apply (updatePositions_outWorld delta (World.bodies w) (World.bounds w) st0).
    - by intros ? ?%elem_of_nil.
    - apply (detectCollisions_outWorld h3 (Grid.pairs g3) [] (st_sensors st1) b).
      by rewrite Hdc. }
  pose proof (updatePositions_frame delta (World.bodies w) (World.bounds w) st0) as F1.
  fold st1 in F1. cbn [st_heap st0] in F1.
  assert (grid_inv (st_heap st1) (World.broadphase w)) as G1
    by (eapply grid_inv_evolves, heap_rel_frame_evolves; [apply Hw|done]).
  destruct (removeBodies_grid (st_bodiesToRemove st1) (World.bodies w)
              (st_heap st1, World.broadphase w) G1) as [G2 _].
  pose proof (removeBodies_regs (st_bodiesToRemove st1) (World.bodies w)
                (st_heap st1, World.broadphase w) b G1 Hq) as R2.
  pose proof (removeBodies_bodies (World.bodies w) (st_bodiesToRemove st1)
                (st_heap st1, World.broadphase w)) as B2.
  rewrite Hrm in G2, R2, B2. cbn [fst snd] in G2, R2, B2.
  destruct (foldl_splice_first (World.bodies w) (st_bodiesToRemove st1) Hnd) as [_ Hin].
  assert (b ∉ bodies2) as Hnin.
  { rewrite B2. intros [_ Hn]%Hin. done. }
  split; [done|].
  pose proof (Grid_update_other bodies2 (h2, g2) b G2 Hnin) as R3.
  rewrite Hgu in R3. cbn [fst] in R3.
  pose proof (correctionPositions_frame cs h3) as F4.
  pose proof (afterUpdate_frame bodies2 (correctionPositions cs h3)) as F5.
  rewrite (regs_frame _ _ _ F5), (regs_frame _ _ _ F4).
  unfold regs in R2 |- *. by rewrite R3.
Qed.

(** X21.  A body that is in [bodiesToRemove] when a sub-step begins, or that
    the sub-step reports as out of the world, is gone when the sub-step
    ends: [bodies] no longer lists it, its [regions] are deleted, no list of
    [hash] holds it and no entry of [pairs] refers to it. *)
Theorem removed_bodies_leave_the_world `{MathOps} (delta : num) (w : World.t) (b : Z) :
  reachable w ->
  b ∈ World.bodiesToRemove w \/ SensorOutWorld b ∈ (World._update delta w).2 ->
  (b ∉ World.bodies (World._update delta w).1) /\
  regs (World.heap (World._update delta w).1) b = [] /\
  (forall r, b ∉ Grid.hash_at (World.broadphase (World._update delta w).1) r) /\
  (forall p, p ∈ Grid.pairs (World.broadphase (World._update delta w).1) ->
     bodyA p <> b /\ bodyB p <> b).
Proof.
  intros Hr Hb. pose proof (reachable_inv w Hr) as Hw.
  destruct (reachable_bodies_inv w Hr) as [Hnd _].
  destruct (removed_body_is_gone delta w b Hw Hnd Hb) as [Hnin Hregs].
  pose proof (winv_grid _ (World_update_inv delta w Hw)) as Hinv.
  split_and!; try done.
  - intros r Hin. apply (inv_hash _ _ _ Hinv) in Hin. rewrite Hregs in Hin.
    by apply elem_of_nil in Hin.
  - intros p Hp.
    destruct (grid_inv_pair_sound _ _ p Hinv Hp) as (_ & _ & _ & _ & r & HrA & HrB).
    split; intros Heq; rewrite Heq, Hregs in *; by eapply elem_of_nil.
Qed.

Lemma removed_bodies_leave_the_world_witness :
  (2 ∉ World.bodies (@World._update sample_ops (Num.ofZ 16) Sample.shot_stepped).1) /\
  regs (World.heap (@World._update sample_ops (Num.ofZ 16) Sample.shot_stepped).1) 2
  = [] /\
  (forall r,
     2 ∉ Grid.hash_at
           (World.broadphase (@World._update sample_ops (Num.ofZ 16) Sample.shot_stepped).1)
           r) /\
  (forall p,
     p ∈ Grid.pairs
           (World.broadphase (@World._update sample_ops (Num.ofZ 16) Sample.shot_stepped).1) ->
     bodyA p <> 2 /\ bodyB p <> 2).
Proof.
  apply (@removed_bodies_leave_the_world sample_ops (Num.ofZ 16) Sample.shot_stepped 2).
  - apply run_from_new_reachable. vm_compute. eexists. reflexivity.
  - left. apply (bool_decide_unpack _). vm_compute. exact I.
Defined.

(** * grid.js: registering a body and removing it again *)

(** ** The entries of [pairs] that do not involve the body at hand *)

Lemma pairs_add_count_free k d ps :
  (forall p, p ∈ ps -> pair_id p <> k) -> Grid.pairs_add_count k d ps = ps.
Proof.
  intros Hfree. unfold Grid.pairs_add_count.
  induction ps as [|p ps IH]; cbn; [done|]. rewrite decide_False.
  - f_equal. apply IH. intros q Hq. apply Hfree. by right.
  - apply Hfree. left.
Qed.

Lemma pairs_delete_free k ps :
  (forall p, p ∈ ps -> pair_id p <> k) -> Grid.pairs_delete k ps = ps.
Proof.
  intros Hfree. unfold Grid.pairs_delete.
  induction ps as [|p ps IH]; [done|]. rewrite filter_cons_True.
  - f_equal. apply IH. intros q Hq. apply Hfree. by right.
  - apply Hfree. left.
Qed.

Section other_pairs.
Context (B : Z) (ps0 : list Pair).
Hypothesis Hfree : forall p o, p ∈ ps0 -> pair_id p <> getPairId B o.

Lemma pairs_extend_refl : pairs_extend B ps0 ps0.
Proof. exists []. split; [by rewrite app_nil_r|]. by intros p ?%elem_of_nil. Qed.

Lemma pairs_extend_add_count ps o d :
  pairs_extend B ps0 ps ->
  pairs_extend B ps0 (Grid.pairs_add_count (getPairId B o) d ps).
Proof using Type*.
  intros (e & -> & He). exists (Grid.pairs_add_count (getPairId B o) d e). split.
  - unfold Grid.pairs_add_count at 1. rewrite fmap_app.
    fold (Grid.pairs_add_count (getPairId B o) d ps0).
    fold (Grid.pairs_add_count (getPairId B o) d e).
    rewrite pairs_add_count_free; [done|]. intros p Hp. by apply Hfree.
  - intros p (q & -> & Hq)%list_elem_of_fmap. destruct (He q Hq) as [o' Ho'].
    exists o'. by case_decide.
Qed.

Lemma pairs_extend_delete ps o :
  pairs_extend B ps0 ps ->
  pairs_extend B ps0 (Grid.pairs_delete (getPairId B o) ps).
Proof using Type*.
  intros (e & -> & He). exists (Grid.pairs_delete (getPairId B o) e). split.
  - unfold Grid.pairs_delete at 1. rewrite filter_app.
    fold (Grid.pairs_delete (getPairId B o) ps0).
    fold (Grid.pairs_delete (getPairId B o) e).
    rewrite pairs_delete_free; [done|]. intros p Hp. by apply Hfree.
  - intros p [_ Hp]%list_elem_of_filter. by apply He.
Qed.

Lemma pairs_extend_push ps o x y c :
  pairs_extend B ps0 ps ->
  pairs_extend B ps0 (ps ++ [mkPair (getPairId B o) x y c]).
Proof.
  intros (e & -> & He). exists (e ++ [mkPair (getPairId B o) x y c]).
  split; [by rewrite app_assoc|].
  intros p [Hp | ->%list_elem_of_singleton]%elem_of_app; [by apply He|by exists o].
Qed.

Lemma addPair_extend h body g o :
  id body = B -> pairs_extend B ps0 (Grid.pairs g) ->
  pairs_extend B ps0 (Grid.pairs (Grid.addPair h body g o)).
Proof using Type*.
  intros Hid He. unfold Grid.addPair.
  destruct (h !! o) as [ob|]; [|done].
  case_bool_decide; [done|]. destruct (canCollide body ob); [|done]. cbn [negb].
  rewrite Hid. destruct (Grid.pairs_lookup _ _); cbn [Grid.pairs].
  - by apply pairs_extend_add_count.
  - by apply pairs_extend_push.
Qed.

Lemma removePair_extend h body g o :
  id body = B -> pairs_extend B ps0 (Grid.pairs g) ->
  pairs_extend B ps0 (Grid.pairs (Grid.removePair h body g o)).
Proof using Type*.
  intros Hid He. unfold Grid.removePair.
  destruct (h !! o) as [ob|]; [|done]. rewrite Hid.
  destruct (Grid.pairs_lookup _ _); [|done]. case_bool_decide; cbn [Grid.pairs].
  - by apply pairs_extend_delete.
  - by apply pairs_extend_add_count.
Qed.

Lemma addPairs_extend h body arg g :
  id body = B -> pairs_extend B ps0 (Grid.pairs g) ->
  pairs_extend B ps0 (Grid.pairs (Grid._addPairs h body arg g)).
Proof using Type*.
  intros Hid. unfold Grid._addPairs. revert g.
  induction (Grid.regions_or arg body) as [|r rs IH]; intros g He; cbn [foldl]; [done|].
  apply IH. generalize (Grid.hash_at g r). intros l. revert g He.
  induction l as [|o l IHl]; intros g He; cbn [foldl]; [done|].
  by apply IHl, addPair_extend.
Qed.

Lemma removePairs_extend h body arg g :
  id body = B -> pairs_extend B ps0 (Grid.pairs g) ->
  pairs_extend B ps0 (Grid.pairs (Grid._removePairs h body arg g)).
Proof using Type*.
  intros Hid. unfold Grid._removePairs. revert g.
  induction (Grid.regions_or arg body) as [|r rs IH]; intros g He; cbn [foldl]; [done|].
  apply IH. generalize (Grid.hash_at g r). intros l. revert g He.
  induction l as [|o l IHl]; intros g He; cbn [foldl]; [done|].
  by apply IHl, removePair_extend.
Qed.

Lemma pairs_extend_free ps :
  pairs_extend B ps0 ps ->
  (forall p o, p ∈ ps -> pair_id p <> getPairId B o) -> ps = ps0.
Proof.
  intros (e & -> & He) Hps. destruct e as [|p e]; [by rewrite app_nil_r|].
  destruct (He p) as [o Ho]; [left|]. exfalso. apply (Hps p o); [|done].
  apply elem_of_app. right. left.
Qed.

End other_pairs.

(** No entry of [pairs] involves a body that is registered nowhere. *)
Lemma grid_inv_unregistered h g B p o :
  grid_inv h g -> regs h B = [] -> p ∈ Grid.pairs g -> pair_id p <> getPairId B o.
Proof.
  intros Hinv HB Hp Hid.
  destruct (grid_inv_pair_sound _ _ p Hinv Hp) as (_ & Hk & _ & _ & r & HrA & HrB).
  rewrite Hk in Hid.
  apply getPairId_inj in Hid as [[Heq _]|[_ Heq]]; rewrite Heq, HB in *;
    by eapply elem_of_nil.
Qed.

Lemma splice_first_snoc B l : B ∉ l -> splice_first B (l ++ [B]) = l.
Proof.
  induction l as [|x l IH]; cbn; intros Hl.
  - by rewrite decide_True.
  - apply not_elem_of_cons in Hl as [Hne Hl]. rewrite decide_False by done.
    by rewrite IH.
Qed.

Lemma Grid_add_remove h g B body :
  grid_inv h g -> h !! B = Some body -> regions body = None ->
  regionsString body = None ->
  (Grid.removeBody B (Grid._addBody body (h, g))).1 = h /\
  Grid.pairs (Grid.removeBody B (Grid._addBody body (h, g))).2 = Grid.pairs g /\
  forall r,
    Grid.hash_at (Grid.removeBody B (Grid._addBody body (h, g))).2 r = Grid.hash_at g r.
Proof.
  intros Hinv HB Hreg Hstr.
  pose proof (inv_ids _ _ _ Hinv _ _ HB) as Hid.
  assert (regs h B = []) as HregsB by (unfold regs; by rewrite HB, Hreg).
  pose proof (Grid_addBody_inv h g B body Hinv HB Hreg) as Hinv1.
  pose proof (Grid_removeBody_inv _ _ B Hinv1) as Hinv2.
  pose proof (Grid_removeBody_regs _ _ B B Hinv1) as Hregs2.
  rewrite decide_True in Hregs2 by done.
  revert Hinv1 Hinv2 Hregs2. unfold Grid._addBody.
  set (rs := getRegions (bounds body)).
  set (body1 := if bool_decide (type (set_regions (Some rs) body) <> STATIC)
                then set_regionsString (Some rs) (set_regions (Some rs) body)
                else set_regions (Some rs) body).
  assert (id body1 = B /\ regions body1 = Some rs /\
          set_regionsString None (set_regions None body1) = body) as (Hid1 & Hreg1 & Hback).
  { unfold body1. destruct body; cbn in *. subst. by case_bool_decide. }
  rewrite Hid1. set (h1 := <[B := body1]> h).
  set (gp := foldl (fun g region => Grid.hash_push region B g) g rs).
  intros Hinv1 Hinv2 Hregs2. cbn [fst snd] in Hinv1.
  unfold Grid.removeBody in *. unfold h1 in *.
  cbn [fst snd] in Hinv2, Hregs2 |- *.
  rewrite lookup_insert_eq, Hreg1 in Hinv2, Hregs2 |- *.
  cbn [fst snd] in Hinv2, Hregs2 |- *.
  rewrite ?Hid1, ?Hback, ?Hid in Hinv2, Hregs2 |- *.
  destruct (foldl_hash_push B rs g (NoDup_getRegions _)) as [Hpp Hph]. fold gp in Hpp, Hph.
  set (ga := Grid._addPairs (<[B := body1]> h) body1 None gp) in *.
  destruct (foldl_hash_splice B rs ga (NoDup_getRegions _)) as [Hsp Hsh].
  set (gs := foldl (fun g region => Grid.hash_splice region B g) ga rs) in *.
  assert (foldl (fun g region => Grid.hash_splice region (id body1) g) ga rs = gs) as Hgs
    by (unfold gs; by rewrite Hid1).
  rewrite Hgs in Hinv2 |- *.
  split_and!.
  - rewrite insert_insert_eq. exact (insert_id _ _ _ HB).
  - assert (forall p o, p ∈ Grid.pairs g -> pair_id p <> getPairId B o) as Hfree
      by (intros p o Hp; by apply (grid_inv_unregistered h g)).
    apply (pairs_extend_free B).
    + apply (removePairs_extend B _ Hfree _ _ _ _ Hid1).
      rewrite Hsp. apply (addPairs_extend B _ Hfree _ _ _ _ Hid1).
      rewrite Hpp. apply pairs_extend_refl.
    + intros p o Hp. by eapply grid_inv_unregistered.
  - intros r.
    assert (Grid.hash (Grid._removePairs (<[B := body1]> h) body1 None gs) = Grid.hash gs)
      as Hh1.
    { rewrite (removePairs_None _ _ _ rs) by done.
      destruct (removePairs_spec (<[B := body1]> h) body1 rs gs (0, 0)) as [Hh _];
        [|done].
      rewrite Hsp. apply (inv_pairs_ok _ _ _ Hinv1). }
    assert (Grid.hash ga = Grid.hash gp) as Hh2.
    { unfold ga. rewrite (addPairs_None _ _ _ rs) by done.
      by destruct (addPairs_spec (<[B := body1]> h) body1 rs gp (0, 0)) as [Hh _]. }
    unfold Grid.hash_at at 1. rewrite Hh1. fold (Grid.hash_at gs r). rewrite Hsh.
    unfold Grid.hash_at at 1 2. rewrite Hh2. fold (Grid.hash_at gp r). rewrite Hph.
    case_decide; [|done]. apply splice_first_snoc.
    intros Hin%(inv_hash _ _ _ Hinv). rewrite HregsB in Hin. by apply elem_of_nil in Hin.
Qed.

(** X22.  In a state a world can reach, registering in the grid a body that
    is not registered yet and removing it again leaves the bodies, the list
    of pairs and the content of every list of [hash] as they were. *)
Theorem grid_add_then_remove_restores `{MathOps} (w : World.t) (B : Z) (body : Body) :
  reachable w -> World.heap w !! B = Some body ->
  regions body = None -> regionsString body = None ->
  let st := Grid.removeBody B (Grid._addBody body (World.heap w, World.broadphase w)) in
  st.1 = World.heap w /\
  Grid.pairs st.2 = Grid.pairs (World.broadphase w) /\
  forall r, Grid.hash_at st.2 r = Grid.hash_at (World.broadphase w) r.
Proof.
  intros Hw%reachable_inv HB Hreg Hstr. by apply Grid_add_remove; [apply Hw|..].
Qed.

Lemma grid_add_then_remove_restores_witness :
  World.heap Sample.landing_then_bullet !! 3 = Some Sample.late_bullet /\
  pair_id <$> Grid.pairs (World.broadphase Sample.landing_then_bullet) = [(1, 2)] /\
  pair_id <$> Grid.pairs
                (Grid._addBody Sample.late_bullet
                   (World.heap Sample.landing_then_bullet,
                    World.broadphase Sample.landing_then_bullet)).2
  = [(1, 2); (1, 3)] /\
  let st :=
    Grid.removeBody 3
      (Grid._addBody Sample.late_bullet
         (World.heap Sample.landing_then_bullet,
          World.broadphase Sample.landing_then_bullet)) in
  st.1 = World.heap Sample.landing_then_bullet /\
  Grid.pairs st.2 = Grid.pairs (World.broadphase Sample.landing_then_bullet) /\
  forall r,
    Grid.hash_at st.2 r = Grid.hash_at (World.broadphase Sample.landing_then_bullet) r.
Proof.
  assert (World.heap Sample.landing_then_bullet !! 3 = Some Sample.late_bullet) as Hb
    by (vm_compute; reflexivity).
  split; [exact Hb|]. split; [vm_compute; reflexivity|].
  split; [vm_compute; reflexivity|].
  apply (@grid_add_then_remove_restores sample_ops Sample.landing_then_bullet 3
           Sample.late_bullet).
  - apply run_from_new_reachable. vm_compute. eexists. reflexivity.
  - exact Hb.
  - vm_compute. reflexivity.
  - vm_compute. reflexivity.
Defined.

(** * The grid at rest, and the static bodies *)

(** X23.  In a state a world can reach, removing a body from the grid a
    second time changes nothing: the first removal deletes the [regions] of
    the body, and [removeBody] returns at once when there are none. *)
Theorem grid_removeBody_twice `{MathOps} (w : World.t) (B : Z) :
  reachable w ->
  Grid.removeBody B (Grid.removeBody B (World.heap w, World.broadphase w))
  = Grid.removeBody B (World.heap w, World.broadphase w).
Proof.
  intros Hw%reachable_inv. pose proof (winv_grid _ Hw) as Hinv.
  unfold Grid.removeBody at 2 3.
  destruct (World.heap w !! B) as [b|] eqn:HB.
  - destruct (regions b) as [rs|] eqn:Hreg.
    + unfold Grid.removeBody. cbn [id set_regions set_regionsString].
      rewrite (inv_ids _ _ _ Hinv _ _ HB), lookup_insert_eq. done.
    + unfold Grid.removeBody. by rewrite HB, Hreg.
  - unfold Grid.removeBody. by rewrite HB.
Qed.

Lemma grid_removeBody_twice_witness :
  Grid.removeBody 2
    (Grid.removeBody 2
       (World.heap Sample.shot_stepped, World.broadphase Sample.shot_stepped))
  = Grid.removeBody 2
      (World.heap Sample.shot_stepped, World.broadphase Sample.shot_stepped).
Proof.
  apply (@grid_removeBody_twice sample_ops Sample.shot_stepped 2).
  apply run_from_new_reachable. vm_compute. eexists. reflexivity.
Defined.

(** X24.  [update] of the grid changes neither the grid nor the bodies when
    every body it is given is registered and is static or not marked as
    updated. *)
Theorem grid_update_skips_bodies_at_rest (bodies : list Z) (h : Heap) (g : Grid.t) :
  (forall i, i ∈ bodies ->
     exists b, h !! i = Some b /\ regions b <> None /\
               (type b = STATIC \/ isUpdated b = false)) ->
  Grid.update bodies (h, g) = (h, g).
Proof.
  unfold Grid.update. induction bodies as [|i bodies IH]; intros Hb; cbn [foldl]; [done|].
  assert (Grid.update_body (h, g) i = (h, g)) as ->.
  { destruct (Hb i) as (b & Hi & Hreg & Hrest); [left|].
    unfold Grid.update_body. cbn [fst]. rewrite Hi.
    destruct (regions b); [|done].
    case_bool_decide; [done|]. by destruct Hrest as [?| ->]. }
  apply IH. intros j Hj. apply Hb. by right.
Qed.

Lemma grid_update_skips_bodies_at_rest_witness :
  Grid.update [1; 2]
    (World.heap Sample.touching_stepped, World.broadphase Sample.touching_stepped)
  = (World.heap Sample.touching_stepped, World.broadphase Sample.touching_stepped).
Proof.
  apply (grid_update_skips_bodies_at_rest [1; 2]).
  intros i [-> | [-> | Hi%elem_of_nil]%elem_of_cons]%elem_of_cons; [| |done].
  - exists (default Sample.pad_body (World.heap Sample.touching_stepped !! 1)).
    split; [vm_compute; reflexivity|]. split; [vm_compute; discriminate|].
    left. vm_compute. reflexivity.
  - exists (default Sample.pad_body (World.heap Sample.touching_stepped !! 2)).
    split; [vm_compute; reflexivity|]. split; [vm_compute; discriminate|].
    right. vm_compute. reflexivity.
Defined.

(** ** Static bodies *)

Lemma body_place_refl b : body_place b b.
Proof. done. Qed.

Lemma body_place_trans a b c : body_place a b -> body_place b c -> body_place a c.
Proof. unfold body_place. intros (? & ? & ? & ?) (? & ? & ? & ?). split_and!; congruence. Qed.

Lemma static_rests_refl b : static_rests b b.
Proof. done. Qed.

Lemma static_rests_trans a b c :
  static_rests a b -> static_rests b c -> static_rests a c.
Proof.
  unfold static_rests, type. intros Hab Hbc Ha. destruct (Hab Ha) as (? & ? & Hs).
  destruct Hbc as (? & ? & ?); [by rewrite Hs|]. split_and!; congruence.
Qed.

Lemma body_place_static b b' : body_place b b' -> static_rests b b'.
Proof. intros (? & ? & ? & ?) _. done. Qed.

Lemma static_rests_other b b' : type b <> STATIC -> static_rests b b'.
Proof. by intros Hne Hs. Qed.

Lemma Grid_removeBody_place h g b :
  grid_inv h g -> heap_rel body_place h (Grid.removeBody b (h, g)).1.
Proof.
  intros Hinv. unfold Grid.removeBody.
  destruct (h !! b) as [body|] eqn:HB; [|by apply heap_rel_refl, body_place_refl].
  destruct (regions body) as [rs|] eqn:Hreg; [|by apply heap_rel_refl, body_place_refl].
  cbn [fst id set_regions set_regionsString].
  rewrite (inv_ids _ _ _ Hinv _ _ HB).
  by eapply heap_rel_insert; [apply body_place_refl|done|].
Qed.

Lemma removeBodies_place queue bodies st :
  grid_inv st.1 st.2 ->
  heap_rel body_place st.1 (removeBodies bodies queue st).1.1.
Proof.
  unfold removeBodies. revert bodies st.
  induction queue as [|b l IH]; intros bodies st Hinv; cbn [foldl].
  - by apply heap_rel_refl, body_place_refl.
  - destruct st as [h g].
    eapply heap_rel_trans; [apply body_place_trans| |apply IH].
    + by apply Grid_removeBody_place.
    + by apply Grid_removeBody_inv.
Qed.

Lemma Grid_update_body_place st i :
  grid_inv st.1 st.2 -> heap_rel body_place st.1 (Grid.update_body st i).1.
Proof.
  destruct st as [h g]. cbn [fst snd]. intros Hinv. unfold Grid.update_body.
  cbn [fst snd]. destruct (h !! i) as [body|] eqn:HB;
    [|by apply heap_rel_refl, body_place_refl].
  pose proof (inv_ids _ _ _ Hinv _ _ HB) as Hid.
  destruct (regions body) as [old|] eqn:Hreg.
  - case_bool_decide as Hst; [by apply heap_rel_refl, body_place_refl|].
    destruct (isUpdated body) eqn:Hup; [|by apply heap_rel_refl, body_place_refl].
    set (body' := if bool_decide (type body ≠ BULLET) then set_isUpdated false body
                  else body).
    assert (id body' = i /\ body_place body body') as (Hid' & Hg').
    { unfold body'. by case_bool_decide. }
    rewrite Hid'. case_bool_decide.
    + unfold Grid._updateBody. cbn [fst id set_regions set_regionsString]. rewrite Hid'.
      eapply heap_rel_trans; [apply body_place_trans| |].
      * by eapply heap_rel_insert; [apply body_place_refl|done|].
      * eapply heap_rel_insert; [apply body_place_refl|apply lookup_insert_eq|done].
    + by eapply heap_rel_insert; [apply body_place_refl|done|].
  - unfold Grid._addBody. cbn [fst].
    set (body' := if bool_decide _ then _ else _).
    assert (id body' = i /\ body_place body body') as (Hid' & Hg').
    { unfold body'. by case_bool_decide. }
    rewrite Hid'. by eapply heap_rel_insert; [apply body_place_refl|done|].
Qed.

Lemma Grid_update_place bodies st :
  grid_inv st.1 st.2 -> heap_rel body_place st.1 (Grid.update bodies st).1.
Proof.
  unfold Grid.update. revert st.
  induction bodies as [|i bodies IH]; intros st Hinv; cbn [foldl].
  - by apply heap_rel_refl, body_place_refl.
  - eapply heap_rel_trans; [apply body_place_trans| |apply IH].
    + by apply Grid_update_body_place.
    + by apply Grid_update_body_inv.
Qed.

Lemma updatePosition_static `{MathOps} delta worldBounds st i :
  heap_rel static_rests (st_heap st) (st_heap (updatePosition delta worldBounds st i)).
Proof.
  unfold updatePosition.
  destruct (st_heap st !! i) as [body|] eqn:HB;
    [|by apply heap_rel_refl, static_rests_refl].
  case_bool_decide as Hst; [by apply heap_rel_refl, static_rests_refl|].
  destruct (includes i _); [by apply heap_rel_refl, static_rests_refl|].
  destruct (Body_update delta body _) as [body' q].
  destruct (isOutOfRegion _ _); cbn [st_heap];
    (eapply heap_rel_insert; [apply static_rests_refl|done|by apply static_rests_other]).
Qed.

Lemma updatePositions_static `{MathOps} delta bodies worldBounds st :
  heap_rel static_rests (st_heap st)
    (st_heap (updatePositions delta bodies worldBounds st)).
Proof.
  unfold updatePositions. revert st.
  induction bodies as [|i bodies IH]; intros st; cbn [foldl].
  - by apply heap_rel_refl, static_rests_refl.
  - eapply heap_rel_trans; [apply static_rests_trans| |apply IH].
    apply updatePosition_static.
Qed.

Lemma Body_resolve_static p c body :
  static_rests body (Body_setPosition p (Body_updateCollision c body)).
Proof.
  intros Hs. unfold type in Hs. destruct (state body) eqn:Hst; try done.
  unfold Body_updateCollision. rewrite Hst. unfold Body_setPosition. by rewrite Hst.
Qed.

Lemma correctionPosition_static h collision :
  heap_rel static_rests h (correctionPosition h collision).
Proof.
  unfold correctionPosition.
  destruct (h !! collision_bodyA collision) as [A|] eqn:HA;
    [|by apply heap_rel_refl, static_rests_refl].
  destruct (h !! collision_bodyB collision) as [B|] eqn:HB;
    [|by apply heap_rel_refl, static_rests_refl].
  destruct (bool_decide (type A = PLAYER) || bool_decide (type A = BOUNCE)).
  - repeat match goal with |- context [let '(_, _) := ?c in _] => destruct c end.
    eapply heap_rel_insert; [apply static_rests_refl|done|apply Body_resolve_static].
  - repeat match goal with |- context [let '(_, _) := ?c in _] => destruct c end.
    eapply heap_rel_insert; [apply static_rests_refl|done|apply Body_resolve_static].
Qed.

Lemma correctionPositions_static collisions h :
  heap_rel static_rests h (correctionPositions collisions h).
Proof.
  unfold correctionPositions.
  apply heap_rel_foldl;
    [apply static_rests_refl|apply static_rests_trans|apply correctionPosition_static].
Qed.

Lemma afterUpdate_static bodies h : heap_rel static_rests h (afterUpdate bodies h).
Proof.
  unfold afterUpdate.
  apply heap_rel_foldl; [apply static_rests_refl|apply static_rests_trans|].
  intros h' i. unfold afterUpdate_body.
  destruct (h' !! i) as [body|] eqn:HB; [|by apply heap_rel_refl, static_rests_refl].
  destruct (state body) as [|s| |] eqn:Hs; try by apply heap_rel_refl, static_rests_refl.
  destruct (_ && _); [|by apply heap_rel_refl, static_rests_refl].
  eapply heap_rel_insert; [apply static_rests_refl|done|].
  apply static_rests_other. unfold type. by rewrite Hs.
Qed.

Lemma World_update_static `{MathOps} delta w :
  world_inv w ->
  heap_rel static_rests (World.heap w) (World.heap (World._update delta w).1).
Proof.
  intros Hw.
  destruct (World_update_stages delta w)
    as (h2 & g2 & bodies2 & h3 & g3 & q & cs & ss & Hrm & Hgu & Hdc & ->).
  cbn zeta in Hrm, Hdc. cbn [fst World.heap].
  set (st0 := mkStage (World.heap w) (World.bodiesToRemove w) []) in *.
  set (st1 := updatePositions delta (World.bodies w) (World.bounds w) st0) in *.
  pose proof (updatePositions_frame delta (World.bodies w) (World.bounds w) st0) as F1.
  pose proof (updatePositions_static delta (World.bodies w) (World.bounds w) st0) as S1.
  fold st1 in F1, S1. cbn [st_heap st0] in F1, S1.
  assert (grid_inv (st_heap st1) (World.broadphase w)) as G1
    by (eapply grid_inv_evolves, heap_rel_frame_evolves; [apply Hw|done]).
  destruct (removeBodies_grid (st_bodiesToRemove st1) (World.bodies w)
              (st_heap st1, World.broadphase w) G1) as [G2 _].
  pose proof (removeBodies_place (st_bodiesToRemove st1) (World.bodies w)
                (st_heap st1, World.broadphase w) G1) as S2.
  rewrite Hrm in G2, S2. cbn [fst snd] in G2, S2.
  pose proof (Grid_update_place bodies2 (h2, g2) G2) as S3.
  rewrite Hgu in S3. cbn [fst] in S3.
  pose proof (correctionPositions_static cs h3) as S4.
  pose proof (afterUpdate_static bodies2 (correctionPositions cs h3)) as S5.
  eapply heap_rel_trans; [apply static_rests_trans|exact S1|].
  eapply heap_rel_trans; [apply static_rests_trans| |].
  { eapply heap_rel_mono; [apply body_place_static|exact S2]. }
  eapply heap_rel_trans; [apply static_rests_trans| |].
  { eapply heap_rel_mono; [apply body_place_static|exact S3]. }
  eapply heap_rel_trans; [apply static_rests_trans|exact S4|exact S5].
Qed.

Lemma World_update_loop_static `{MathOps} n delta w sensors :
  world_inv w ->
  heap_rel static_rests (World.heap w)
    (World.heap (World.update_loop n delta w sensors).1).
Proof.
  revert delta w sensors. induction n as [|n IH]; intros delta w sensors Hw.
  - by apply heap_rel_refl, static_rests_refl.
  - cbn [World.update_loop].
    destruct (Num.ltb delta World.maxDelta);
      match goal with
      | |- context [World._update ?d w] =>
          pose proof (World_update_inv d w Hw) as Hw';
          pose proof (World_update_static d w Hw) as Hs;
          destruct (World._update d w) as [w' s]
      end; (eapply heap_rel_trans; [apply static_rests_trans|exact Hs|by apply IH]).
Qed.

(** X25.  Neither a sub-step nor a whole [update] changes the position,
    the bounds or the class fields of a static body of a world. *)
Theorem static_bodies_stay_in_place `{MathOps} (delta : num) (w w' : World.t)
    (sensors : list Sensor) (i : Z) (b : Body) :
  reachable w ->
  World._update delta w = (w', sensors) \/ World.update delta w = Some (w', sensors) ->
  World.heap w !! i = Some b -> type b = STATIC ->
  exists b',
    World.heap w' !! i = Some b' /\
    position b' = position b /\ bounds b' = bounds b /\ state b' = state b.
Proof.
  intros Hw%reachable_inv Hstep Hb Hst.
  assert (heap_rel static_rests (World.heap w) (World.heap w')) as Hrel.
  { destruct Hstep as [Hstep|Hstep].
    - pose proof (World_update_static delta w Hw) as Hs. by rewrite Hstep in Hs.
    - unfold World.update in Hstep.
      destruct (Num.ceil _) as [q| | |]; try done.
      + destruct (Num.Qc_ltb q 0); [done|]. apply (inj Some) in Hstep.
        pose proof (World_update_loop_static (Z.to_nat (Qceiling q)) delta w [] Hw) as Hs.
        by rewrite Hstep in Hs.
      + apply (inj Some) in Hstep. injection Hstep as <- _.
        by apply heap_rel_refl, static_rests_refl. }
  specialize (Hrel i). rewrite Hb in Hrel.
  destruct (World.heap w' !! i) as [b'|]; [|done]. exists b'. split; [done|by apply Hrel].
Qed.

Lemma static_bodies_stay_in_place_witness :
  exists b',
    World.heap (@World._update sample_ops (Num.ofZ 16) Sample.landing).1 !! 1 = Some b' /\
    position b' = position (default Sample.pad_body (World.heap Sample.landing !! 1)) /\
    bounds b' = bounds (default Sample.pad_body (World.heap Sample.landing !! 1)) /\
    state b' = state (default Sample.pad_body (World.heap Sample.landing !! 1)).
Proof.
  apply (@static_bodies_stay_in_place sample_ops (Num.ofZ 16) Sample.landing
           (@World._update sample_ops (Num.ofZ 16) Sample.landing).1
           (@World._update sample_ops (Num.ofZ 16) Sample.landing).2 1
           (default Sample.pad_body (World.heap Sample.landing !! 1))).
  - apply run_from_new_reachable. vm_compute. eexists. reflexivity.
  - left. apply surjective_pairing.
  - vm_compute. reflexivity.
  - vm_compute. reflexivity.
Defined.

(** * engine.js: the overlaps with sensors, and the correction of positions *)

Lemma detectPair_sensors_mono h d pair x :
  x ∈ sensors d -> x ∈ sensors (detectPair h d pair).
Proof.
  intros Hx. unfold detectPair.
  destruct (h !! bodyA pair) as [A|]; [|done]. destruct (h !! bodyB pair) as [B|]; [|done].
  destruct (_ || _); [done|]. destruct (_ || _); cbn [sensors].
  - apply elem_of_app. by left.
  - destruct (_ || _); [|done]. by destruct (bool_decide _).
Qed.

Lemma detectPairs_sensors_mono h pairs d x :
  x ∈ sensors d -> x ∈ sensors (foldl (detectPair h) d pairs).
Proof.
  revert d. induction pairs as [|p pairs IH]; intros d Hx; cbn [foldl]; [done|].
  by apply IH, detectPair_sensors_mono.
Qed.

Lemma resolveBullets_sensors_mono h entries st x :
  x ∈ st.2 -> x ∈ (foldl (resolveBullet h) st entries).2.
Proof.
  revert st. induction entries as [|e entries IH]; intros st Hx; cbn [foldl]; [done|].
  apply IH. unfold resolveBullet. destruct st as [q ss]. cbn [snd] in Hx.
  destruct (state <$> h !! bt_bullet e) as [[| | |s]|]; try done.
  destruct (HitResult.target _); [|done]. cbn [snd]. apply elem_of_app. by left.
Qed.

(** X26.  Stage 4 reports every entry of [pairs] one of whose bodies is a
    sensor and whose rectangle of intersection has no negative side: the
    sensors returned hold the record of the two bodies. *)
Theorem sensor_overlaps_are_reported (h : Heap) (pairs : list Pair) (queue : list Z)
    (sensors0 : list Sensor) (p : Pair) (A B : Body) :
  p ∈ pairs -> h !! bodyA p = Some A -> h !! bodyB p = Some B ->
  isSensor A || isSensor B = true ->
  Num.ltb (width (getIntersection (bounds A) (bounds B))) Num.zero
  || Num.ltb (height (getIntersection (bounds A) (bounds B))) Num.zero = false ->
  SensorOverlap (bodyA p) (bodyB p) ∈ (detectCollisions h pairs queue sensors0).2.
Proof.
  intros Hp HA HB Hsens Hpos. unfold detectCollisions.
  destruct (foldl (resolveBullet h) _ _) as [q ss] eqn:Hr. cbn [snd].
  change ss with (q, ss).2. rewrite <- Hr. clear Hr.
  apply resolveBullets_sensors_mono. cbn [snd].
  generalize (mkDetected [] [] sensors0).
  induction pairs as [|p' pairs IH]; intros d; [by apply elem_of_nil in Hp|].
  cbn [foldl]. apply elem_of_cons in Hp as [<-|Hp]; [|by apply IH].
  apply detectPairs_sensors_mono. unfold detectPair. rewrite HA, HB, Hpos, Hsens.
  cbn [sensors]. apply elem_of_app. right. left.
Qed.

Lemma sensor_overlaps_are_reported_witness :
  SensorOverlap 2 1
  ∈ (detectCollisions (World.heap Sample.touching_stepped) [Sample.touching_pair] [] []).2.
Proof.
  apply (sensor_overlaps_are_reported (World.heap Sample.touching_stepped)
           [Sample.touching_pair] [] [] Sample.touching_pair
           (default Sample.pad_body (World.heap Sample.touching_stepped !! 2))
           (default Sample.pad_body (World.heap Sample.touching_stepped !! 1))).
  - left.
  - vm_compute. reflexivity.
  - vm_compute. reflexivity.
  - vm_compute. reflexivity.
  - vm_compute. reflexivity.
Defined.

(** ** The correction of a position *)

Lemma zero_neg : (Num.zero * Num.ofZ (-1))%num = Num.zero.
Proof. cbn. f_equal; by apply Qc_is_canon. Qed.

(** What [updateCollision] and [setPosition] do to a player or a bounce
    body, apart from its class fields. *)
Lemma Body_resolve_moving p c body :
  type body = PLAYER \/ type body = BOUNCE ->
  position (Body_updateCollision c body) = position body /\
  position (Body_setPosition p (Body_updateCollision c body)) = mkVec (vx p) (vy p) /\
  isUpdated (Body_setPosition p (Body_updateCollision c body)) = true /\
  bounds (Body_setPosition p (Body_updateCollision c body)) = bounds body /\
  id (Body_setPosition p (Body_updateCollision c body)) = id body.
Proof.
  unfold type. destruct (state body) as [| s | s |] eqn:Hs; intros [?|?]; try done.
  - unfold Body_updateCollision. rewrite Hs.
    unfold Body_setPosition, BodyPlayer.updateCollision. cbn. done.
  - unfold Body_updateCollision. rewrite Hs.
    unfold Body_setPosition, BodyBounce.updateCollision. cbn. done.
Qed.

(** X27.  The correction of a collision moves the player or the bounce body
    of the pair, marks it as updated and leaves its bounds and every other
    body alone.  It moves the body along one axis at most, by the width of
    the intersection along X or by its height along Y, away from the
    position of the other body. *)
Theorem correction_moves_along_one_axis (h : Heap) (c : Collision) (A B R S : Body)
    (r : Z) :
  h !! collision_bodyA c = Some A -> h !! collision_bodyB c = Some B ->
  (r, R, S)
  = (if bool_decide (type A = PLAYER) || bool_decide (type A = BOUNCE)
     then (collision_bodyA c, A, B) else (collision_bodyB c, B, A)) ->
  type R = PLAYER \/ type R = BOUNCE ->
  exists cx cy R',
    correctionPosition h c = <[r := R']> h /\
    position R' = mkVec (vx (position R) + cx) (vy (position R) + cy) /\
    isUpdated R' = true /\ bounds R' = bounds R /\
    (cx = Num.zero \/ cy = Num.zero) /\
    (cx = Num.zero \/
     (Num.ltb (vx (position R)) (vx (position S)) = false /\
      cx = width (intersection c)) \/
     (Num.ltb (vx (position R)) (vx (position S)) = true /\
      cx = (width (intersection c) * Num.ofZ (-1))%num)) /\
    (cy = Num.zero \/
     (Num.ltb (vy (position R)) (vy (position S)) = false /\
      cy = height (intersection c)) \/
     (Num.ltb (vy (position R)) (vy (position S)) = true /\
      cy = (height (intersection c) * Num.ofZ (-1))%num)).
Proof.
  intros HA HB HR Hty. unfold correctionPosition. rewrite HA, HB.
  destruct (bool_decide (type A = PLAYER) || bool_decide (type A = BOUNCE));
    injection HR as -> -> ->;
    repeat match goal with
           | |- context [if ?c then _ else _] => destruct c eqn:?
           end;
    destruct (Body_resolve_moving
                (mkVec Num.zero Num.zero) (mkVec Num.zero Num.zero) _ Hty) as [Hpos _];
    (eexists _, _, _; split; [reflexivity|]);
    match goal with
    | |- context [Body_setPosition ?p (Body_updateCollision ?v ?b)] =>
        destruct (Body_resolve_moving p v b Hty) as (Hp0 & Hp1 & Hu & Hb & _);
        rewrite Hp1, Hu, Hb, Hp0
    end;
    cbn [vx vy]; rewrite ?zero_neg; split_and!; try reflexivity; auto.
Qed.

Lemma correction_moves_along_one_axis_witness :
  exists cx cy R',
    correctionPosition (World.heap Sample.landing)
      (mkCollision 2 1 (mkIntersection (Num.ofZ 10) (Num.ofZ 3)))
    = <[2 := R']> (World.heap Sample.landing) /\
    position R'
    = mkVec
        (vx (position (default Sample.pad_body (World.heap Sample.landing !! 2))) + cx)
        (vy (position (default Sample.pad_body (World.heap Sample.landing !! 2))) + cy) /\
    isUpdated R' = true /\
    bounds R' = bounds (default Sample.pad_body (World.heap Sample.landing !! 2)) /\
    (cx = Num.zero \/ cy = Num.zero) /\
    (cx = Num.zero \/
     (Num.ltb (vx (position (default Sample.pad_body (World.heap Sample.landing !! 2))))
        (vx (position (default Sample.pad_body (World.heap Sample.landing !! 1))))
      = false /\ cx = Num.ofZ 10) \/
     (Num.ltb (vx (position (default Sample.pad_body (World.heap Sample.landing !! 2))))
        (vx (position (default Sample.pad_body (World.heap Sample.landing !! 1))))
      = true /\ cx = (Num.ofZ 10 * Num.ofZ (-1))%num)) /\
    (cy = Num.zero \/
     (Num.ltb (vy (position (default Sample.pad_body (World.heap Sample.landing !! 2))))
        (vy (position (default Sample.pad_body (World.heap Sample.landing !! 1))))
      = false /\ cy = Num.ofZ 3) \/
     (Num.ltb (vy (position (default Sample.pad_body (World.heap Sample.landing !! 2))))
        (vy (position (default Sample.pad_body (World.heap Sample.landing !! 1))))
      = true /\ cy = (Num.ofZ 3 * Num.ofZ (-1))%num)).
Proof.
  apply (correction_moves_along_one_axis (World.heap Sample.landing)
           (mkCollision 2 1 (mkIntersection (Num.ofZ 10) (Num.ofZ 3)))
           (default Sample.pad_body (World.heap Sample.landing !! 2))
           (default Sample.pad_body (World.heap Sample.landing !! 1))
           (default Sample.pad_body (World.heap Sample.landing !! 2))
           (default Sample.pad_body (World.heap Sample.landing !! 1)) 2).
  - vm_compute. reflexivity.
  - vm_compute. reflexivity.
  - vm_compute. reflexivity.
  - left. vm_compute. reflexivity.
Defined.
